(** * The client-side data pipeline of the CSV viewer

    A shallow embedding of the view logic of [CSVViewer]
    (src/components/ColumnManager.tsx, second half) and of
    [CategoryManager]: category selection, the filter chain, the formula
    check, the two sort comparators, pagination and the sort state.

    JavaScript strings are sequences of UTF-16 code units, numbers are
    binary64 values carried as the rational they denote together with the
    two infinities and NaN (the sign of zero is not kept: no modelled
    operation observes it). *)

From Stdlib Require Import ZArith QArith Qround Qpower Lia List Ascii String.
From stdpp Require Import base list gmap sets.

Local Open Scope Z_scope.

(** ** Host language: strings, numbers, arrays *)

Module JS.

(** A string is the list of its UTF-16 code units. *)
Abbreviation jsstring := (list N).

(** An ASCII literal as a JavaScript string. *)
Definition lit (s : string) : jsstring :=
  List.map N_of_ascii (list_ascii_of_string s).

Definition HASH : N := 35.    (* number sign, the path delimiter *)
Definition DQUOTE : N := 34.  (* double quote *)
Definition SLASH : N := 47.   (* solidus *)
Definition COMMA : N := 44.
Definition NBSP : N := 160.   (* U+00A0 *)
Definition BOM : N := 65279.  (* U+FEFF *)
Definition SPACE : N := 32.

(** WhiteSpace and LineTerminator code units: what [trim], the regular
    expression class [\s] and the numeric parser skip. *)
Definition isWhiteSpace (c : N) : bool :=
  (bool_decide (c ∈ [9; 10; 11; 12; 13; 32; 160; 5760; 8232; 8233; 8239;
                       8287; 12288; 65279]%N)
   || ((8192 <=? c) && (c <=? 8202))%N)%bool.

Definition isDigit (c : N) : bool := ((48 <=? c) && (c <=? 57))%N.

Fixpoint trimStart (s : jsstring) : jsstring :=
  match s with
  | c :: s' => if isWhiteSpace c then trimStart s' else s
  | [] => []
  end.

Definition trimEnd (s : jsstring) : jsstring := rev (trimStart (rev s)).

(** [s.trim()] *)
Definition trim (s : jsstring) : jsstring := trimEnd (trimStart s).

(** [s.split(sep)] for a separator of one code unit; the empty string
    splits into one empty segment. *)
Fixpoint split (sep : N) (s : jsstring) : list jsstring :=
  match s with
  | [] => [[]]
  | c :: s' =>
      if (c =? sep)%N then [] :: split sep s'
      else match split sep s' with
           | p :: ps => (c :: p) :: ps
           | [] => [[c]]
           end
  end.

(** [parts.join(sep)] *)
Fixpoint join (sep : jsstring) (parts : list jsstring) : jsstring :=
  match parts with
  | [] => []
  | [p] => p
  | p :: ps => p ++ sep ++ join sep ps
  end.

(** [s.startsWith(p)] *)
Fixpoint startsWith (p s : jsstring) : bool :=
  match p, s with
  | [], _ => true
  | a :: p', b :: s' => (a =? b)%N && startsWith p' s'
  | _ :: _, [] => false
  end.

(** [s.includes(p)]: [p] occurs in [s] as a substring. *)
Fixpoint includes (s p : jsstring) : bool :=
  startsWith p s ||
  match s with
  | [] => false
  | _ :: s' => includes s' p
  end.

(** [String(v)] of a cell that may be [undefined]. *)
Definition toStr (v : option jsstring) : jsstring :=
  match v with
  | Some s => s
  | None => lit "undefined"
  end.

(** *** Numbers *)

Inductive number : Type :=
| NaN
| PosInf
| NegInf
| Num (q : Q).

(** Round a positive rational to the nearest binary64 value, ties to even;
    [None] is overflow. *)
Definition roundPos (q : Q) : option Q :=
  let n := Qnum q in
  let d := Zpos (Qden q) in
  let k := Z.log2 n - Z.log2 d in
  (* e2 = floor (log2 q) *)
  let e2 := if Qle_bool (inject_Z 2 ^ k) q then k else k - 1 in
  let p := Z.max (e2 - 52) (-1074) in
  let scaled := (q / inject_Z 2 ^ p)%Q in
  let fl := Qfloor scaled in
  let rest := (scaled - inject_Z fl)%Q in
  let m :=
    match (rest ?= 1 # 2)%Q with
    | Lt => fl
    | Gt => fl + 1
    | Eq => if Z.even fl then fl else fl + 1
    end in
  let r := Qred (inject_Z m * inject_Z 2 ^ p)%Q in
  if Qle_bool (inject_Z 2 ^ 1024) r then None else Some r.

(** The Number value of a real: zero stays zero, magnitudes are rounded,
    overflow gives an infinity. *)
Definition toNumber (q : Q) : number :=
  match (q ?= 0)%Q with
  | Eq => Num 0
  | Gt => match roundPos q with Some r => Num r | None => PosInf end
  | Lt => match roundPos (- q) with Some r => Num (Qred (- r)) | None => NegInf end
  end.

Definition isNaN (x : number) : bool :=
  match x with NaN => true | _ => false end.

Definition isFinite (x : number) : bool :=
  match x with Num _ => true | _ => false end.

(** [x === y] on numbers. *)
Definition strictEq (x y : number) : bool :=
  match x, y with
  | Num a, Num b => Qeq_bool a b
  | PosInf, PosInf | NegInf, NegInf => true
  | _, _ => false
  end.

(** [x <= y] on numbers; false as soon as one side is NaN. *)
Definition le (x y : number) : bool :=
  match x, y with
  | NaN, _ | _, NaN => false
  | NegInf, _ | _, PosInf => true
  | Num a, Num b => Qle_bool a b
  | _, _ => false
  end.

(** [x >= y] *)
Definition ge (x y : number) : bool := le y x.

(** [x - y] *)
Definition sub (x y : number) : number :=
  match x, y with
  | NaN, _ | _, NaN => NaN
  | PosInf, PosInf | NegInf, NegInf => NaN
  | PosInf, _ | _, NegInf => PosInf
  | NegInf, _ | _, PosInf => NegInf
  | Num a, Num b => toNumber (a - b)
  end.

(** [x / y]; the divisor zero is the positive zero. *)
Definition div (x y : number) : number :=
  match x, y with
  | NaN, _ | _, NaN => NaN
  | Num a, Num b =>
      if Qeq_bool b 0 then
        match (a ?= 0)%Q with Eq => NaN | Gt => PosInf | Lt => NegInf end
      else toNumber (a / b)
  | Num _, _ => Num 0
  | PosInf, Num b => if Qle_bool 0 b then PosInf else NegInf
  | NegInf, Num b => if Qle_bool 0 b then NegInf else PosInf
  | _, _ => NaN
  end.

(** Truthiness of a number: [0] and [NaN] are falsy. *)
Definition truthy (x : number) : bool :=
  match x with
  | NaN => false
  | Num q => negb (Qeq_bool q 0)
  | _ => true
  end.

(** [!v] for a value that is a number or [null]. *)
Definition falsy (v : option number) : bool :=
  match v with
  | None => true
  | Some x => negb (truthy x)
  end.

(** [x || 0] *)
Definition orZero (x : number) : number :=
  if truthy x then x else Num 0.

(** The sign a sort comparator result has for [Array.prototype.sort]: a NaN
    result counts as [+0]. *)
Definition sgn (x : number) : comparison :=
  match x with
  | NaN => Eq
  | PosInf => Gt
  | NegInf => Lt
  | Num q => (q ?= 0)%Q
  end.

(** *** parseFloat *)

Fixpoint spanDigits (s : jsstring) : list N * jsstring :=
  match s with
  | c :: s' =>
      if isDigit c then let (ds, r) := spanDigits s' in (c :: ds, r)
      else ([], s)
  | [] => ([], [])
  end.

Definition digitsValue (ds : list N) : Z :=
  fold_left (fun acc c => 10 * acc + (Z.of_N c - 48)) ds 0.

(** An optional sign: [true] for a minus. *)
Definition takeSign (s : jsstring) : bool * jsstring :=
  match s with
  | 43%N :: s' => (false, s')
  | 45%N :: s' => (true, s')
  | _ => (false, s)
  end.

(** An optional ExponentPart; without digits after the indicator there is
    none. *)
Definition exponentPart (s : jsstring) : Z :=
  match s with
  | c :: s' =>
      if ((c =? 101) || (c =? 69))%N then
        let (neg, s'') := takeSign s' in
        let (ds, _) := spanDigits s'' in
        match ds with
        | [] => 0
        | _ => if neg then - digitsValue ds else digitsValue ds
        end
      else 0
  | [] => 0
  end.

(** [parseFloat(s)]: skip leading white space, read the longest prefix that
    is a StrDecimalLiteral, NaN when there is none. *)
Definition parseFloatStr (s : jsstring) : number :=
  let (neg, t) := takeSign (trimStart s) in
  if startsWith (lit "Infinity") t then (if neg then NegInf else PosInf)
  else
    let (ip, r1) := spanDigits t in
    let (fp, r2) :=
      match r1 with
      | 46%N :: r => spanDigits r
      | _ => ([], r1)
      end in
    match ip, fp with
    | [], [] => NaN
    | _, _ =>
        let e := exponentPart r2 - Z.of_nat (length fp) in
        let m := inject_Z (digitsValue (ip ++ fp)) in
        let v := (m * inject_Z 10 ^ e)%Q in
        toNumber (if neg then - v else v)
    end.

(** [parseFloat(v)] of a cell: [undefined] is first turned into the string
    "undefined", which has no numeric prefix. *)
Definition parseFloat (v : option jsstring) : number :=
  parseFloatStr (toStr v).

(** *** Arrays *)

(** A relative index of [Array.prototype.slice] made absolute. *)
Definition relIndex (len i : Z) : Z :=
  if i <? 0 then Z.max (len + i) 0 else Z.min i len.

(** [l.slice(start, end)] *)
Definition slice {A} (l : list A) (start stop : Z) : list A :=
  let len := Z.of_nat (length l) in
  let k := relIndex len start in
  let final := relIndex len stop in
  take (Z.to_nat (final - k)) (drop (Z.to_nat k) l).

(** [l.splice(start, deleteCount, ...items)]: the elements removed and
    the array left. *)
Definition splice {A} (l : list A) (start deleteCount : Z) (items : list A)
    : list A * list A :=
  let len := Z.of_nat (length l) in
  let k := relIndex len start in
  let dc := Z.min (Z.max deleteCount 0) (len - k) in
  (take (Z.to_nat dc) (drop (Z.to_nat k) l),
   take (Z.to_nat k) l ++ items ++ drop (Z.to_nat (k + dc)) l).

(** [Array.prototype.sort] with a comparator, as a stable insertion sort:
    an element moves behind those it does not compare smaller than. *)
Fixpoint insertBy {A} (cmp : A -> A -> number) (x : A) (l : list A) : list A :=
  match l with
  | [] => [x]
  | y :: l' =>
      match sgn (cmp x y) with
      | Gt => y :: insertBy cmp x l'
      | _ => x :: l
      end
  end.

Definition sort {A} (cmp : A -> A -> number) (l : list A) : list A :=
  foldr (insertBy cmp) [] l.

End JS.

Import JS.

(** ** CategoryManager: the category tree and the cascading toggle *)

Module CategoryManager.

#[local] Unset Elimination Schemes.
Inductive CategoryNode : Type :=
  mkNode { name : jsstring; path : jsstring; children : list CategoryNode }.
#[local] Set Elimination Schemes.

(** The inner [dfs] of [collectPaths] at one node: push the path, then
    visit the children. *)
Fixpoint dfs (node : CategoryNode) : list jsstring :=
  match node with
  | mkNode _ p cs => p :: List.flat_map dfs cs
  end.

(** Flat list of all paths in a forest, in preorder. *)
Definition collectPaths (nodes : list CategoryNode) : list jsstring :=
  List.flat_map dfs nodes.

Definition areAllSelected (tree : list CategoryNode)
    (selected : gset jsstring) : bool :=
  forallb (fun p => bool_decide (p ∈ selected)) (collectPaths tree).

Definition toggleAll (tree : list CategoryNode)
    (selected : gset jsstring) : gset jsstring :=
  if areAllSelected tree selected then ∅
  else foldl (fun newSel p => {[p]} ∪ newSel) ∅ (collectPaths tree).

(** Toggle a single category with cascading rules; the result is the set
    handed to [onSelectionChange]. *)
Definition togglePath (tree : list CategoryNode) (selected : gset jsstring)
    (path : jsstring) : gset jsstring :=
  let flatAllPaths := collectPaths tree in
  let newSel := selected in
  let isSelected := bool_decide (path ∈ newSel) in
  let descendants :=
    List.filter
      (fun p => bool_decide (p = path) || startsWith (path ++ [HASH]) p)
      flatAllPaths in
  if isSelected then
    foldl (fun newSel d => newSel ∖ {[d]}) newSel descendants
  else
    let newSel := foldl (fun newSel d => {[d]} ∪ newSel) newSel descendants in
    let parts := split HASH path in
    foldl (fun newSel i => {[join [HASH] (take i parts)]} ∪ newSel) newSel
      (seq 1 (length parts - 1)).

End CategoryManager.

Import CategoryManager.

(** ** CSVViewer: view state, filter chain, sort, pagination *)

Module CSVViewer.

(** One row of the dataset: column name to cell text. *)
Abbreviation Row := (gmap jsstring jsstring).

Inductive direction : Type := asc | desc.

Record SortConfig : Type := { key : jsstring; dir : direction }.

Inductive columnType : Type := TString | TNumber.

(** A contains or exclude value: an array of patterns or one string. *)
Inductive patterns : Type :=
| PArray (ps : list jsstring)
| PString (s : jsstring).

(** The filter stored for a column. *)
Inductive Filter : Type :=
| FEquals (value : number)
| FRange (min max : option number)
| FText (contains exclude : option patterns).

Inductive toastType : Type := success | error.

Record Toast : Type :=
  { type : toastType; title : jsstring; message : option jsstring }.

(** What the host supplies and the embedding does not unfold:
    [String.prototype.toLowerCase], [String.prototype.localeCompare], and
    the callable [new Function] builds for a formula once every quoted
    reference is replaced by [(parseFloat(row[ref])||0)]. [compileFormula]
    is [None] when construction throws; the callable is [None] on a row
    where evaluation throws. Formulas whose value is not a number are
    outside the model. *)
Class Host : Type := {
  toLowerCase : jsstring -> jsstring;
  localeCompare : jsstring -> jsstring -> number;
  compileFormula : jsstring -> option (Row -> option number);
}.

Definition NUMERIC_COLUMNS : list jsstring :=
  [lit "pri/we"; lit "pro/cal"; lit "weight"; lit "price"; lit "calories";
   lit "proteins"; lit "fats"; lit "carbohydrates"; lit "average_rating";
   lit "rating_count"].

Definition ALWAYS_HIDDEN_COLUMNS : list jsstring := [lit "html_path"].

Definition HIDDEN_BY_DEFAULT_COLUMNS : list jsstring :=
  [lit "url"; lit "pri/we"; lit "pro/cal"; lit "content"; lit "description";
   lit "category"].

Definition SHOWN_BY_DEFAULT_COLUMNS : list jsstring :=
  [lit "imgUrl"; lit "name"; lit "megacategory"; lit "price"; lit "weight";
   lit "calories"; lit "proteins"; lit "fats"; lit "carbohydrates";
   lit "average_rating"; lit "rating_count"; lit "availability";
   lit "last_upd_time"].

Definition CATEGORY_COLUMN : jsstring := lit "category".

Definition normalizeString `{Host} (str : option jsstring) : jsstring :=
  match str with
  | None => []
  | Some s =>
      toLowerCase (List.map (fun c => if (c =? NBSP)%N then SPACE else c) s)
  end.

(** Remove a leading BOM, then trim. *)
Definition normalizeHeader (header : jsstring) : jsstring :=
  trim match header with
       | c :: r => if (c =? BOM)%N then r else header
       | [] => []
       end.

Definition includesStr (l : list jsstring) (x : jsstring) : bool :=
  bool_decide (x ∈ l).

(** The column types the header effect derives. *)
Definition deriveColumnTypes (headers : list jsstring)
    : gmap jsstring columnType :=
  foldl (fun types header =>
           <[header := if includesStr NUMERIC_COLUMNS (normalizeHeader header)
                       then TNumber else TString]> types)
        ∅ headers.

(** The state the component holds ([useState]); [toasts] logs the calls of
    [addToast]. *)
Record ViewState : Type := {
  visibleColumns : list jsstring;
  sortConfig : option SortConfig;
  filters : list (jsstring * option Filter);
  searchQuery : jsstring;
  currentPage : Z;
  rowsPerPage : Z;
  columnTypes : gmap jsstring columnType;
  hideUnknownMacros : bool;
  formulaInput : jsstring;
  appliedFormula : jsstring;
  formulaSortDir : option direction;
  showFormulaHistory : bool;
  selectedCategories : gset jsstring;
  toasts : list Toast;
}.

Definition initialState : ViewState := {|
  visibleColumns := [];
  sortConfig := None;
  filters := [];
  searchQuery := [];
  currentPage := 1;
  rowsPerPage := 10;
  columnTypes := ∅;
  hideUnknownMacros := true;
  formulaInput := [];
  appliedFormula := [];
  formulaSortDir := None;
  showFormulaHistory := false;
  selectedCategories := ∅;
  toasts := [];
|}.

Definition setVisibleColumns (v : list jsstring) (st : ViewState) :=
  {| visibleColumns := v; sortConfig := sortConfig st; filters := filters st;
     searchQuery := searchQuery st; currentPage := currentPage st;
     rowsPerPage := rowsPerPage st; columnTypes := columnTypes st;
     hideUnknownMacros := hideUnknownMacros st;
     formulaInput := formulaInput st; appliedFormula := appliedFormula st;
     formulaSortDir := formulaSortDir st;
     showFormulaHistory := showFormulaHistory st;
     selectedCategories := selectedCategories st; toasts := toasts st |}.

Definition setSortConfig (v : option SortConfig) (st : ViewState) :=
  {| visibleColumns := visibleColumns st; sortConfig := v;
     filters := filters st;
     searchQuery := searchQuery st; currentPage := currentPage st;
     rowsPerPage := rowsPerPage st; columnTypes := columnTypes st;
     hideUnknownMacros := hideUnknownMacros st;
     formulaInput := formulaInput st; appliedFormula := appliedFormula st;
     formulaSortDir := formulaSortDir st;
     showFormulaHistory := showFormulaHistory st;
     selectedCategories := selectedCategories st; toasts := toasts st |}.

Definition setFilters (v : list (jsstring * option Filter)) (st : ViewState) :=
  {| visibleColumns := visibleColumns st; sortConfig := sortConfig st;
     filters := v;
     searchQuery := searchQuery st; currentPage := currentPage st;
     rowsPerPage := rowsPerPage st; columnTypes := columnTypes st;
     hideUnknownMacros := hideUnknownMacros st;
     formulaInput := formulaInput st; appliedFormula := appliedFormula st;
     formulaSortDir := formulaSortDir st;
     showFormulaHistory := showFormulaHistory st;
     selectedCategories := selectedCategories st; toasts := toasts st |}.

Definition setSearchQuery (v : jsstring) (st : ViewState) :=
  {| visibleColumns := visibleColumns st; sortConfig := sortConfig st;
     filters := filters st;
     searchQuery := v; currentPage := currentPage st;
     rowsPerPage := rowsPerPage st; columnTypes := columnTypes st;
     hideUnknownMacros := hideUnknownMacros st;
     formulaInput := formulaInput st; appliedFormula := appliedFormula st;
     formulaSortDir := formulaSortDir st;
     showFormulaHistory := showFormulaHistory st;
     selectedCategories := selectedCategories st; toasts := toasts st |}.

Definition setCurrentPage (v : Z) (st : ViewState) :=
  {| visibleColumns := visibleColumns st; sortConfig := sortConfig st;
     filters := filters st;
     searchQuery := searchQuery st; currentPage := v;
     rowsPerPage := rowsPerPage st; columnTypes := columnTypes st;
     hideUnknownMacros := hideUnknownMacros st;
     formulaInput := formulaInput st; appliedFormula := appliedFormula st;
     formulaSortDir := formulaSortDir st;
     showFormulaHistory := showFormulaHistory st;
     selectedCategories := selectedCategories st; toasts := toasts st |}.

Definition setRowsPerPage (v : Z) (st : ViewState) :=
  {| visibleColumns := visibleColumns st; sortConfig := sortConfig st;
     filters := filters st;
     searchQuery := searchQuery st; currentPage := currentPage st;
     rowsPerPage := v; columnTypes := columnTypes st;
     hideUnknownMacros := hideUnknownMacros st;
     formulaInput := formulaInput st; appliedFormula := appliedFormula st;
     formulaSortDir := formulaSortDir st;
     showFormulaHistory := showFormulaHistory st;
     selectedCategories := selectedCategories st; toasts := toasts st |}.

Definition setHideUnknownMacros (v : bool) (st : ViewState) :=
  {| visibleColumns := visibleColumns st; sortConfig := sortConfig st;
     filters := filters st;
     searchQuery := searchQuery st; currentPage := currentPage st;
     rowsPerPage := rowsPerPage st; columnTypes := columnTypes st;
     hideUnknownMacros := v;
     formulaInput := formulaInput st; appliedFormula := appliedFormula st;
     formulaSortDir := formulaSortDir st;
     showFormulaHistory := showFormulaHistory st;
     selectedCategories := selectedCategories st; toasts := toasts st |}.

Definition setFormulaInput (v : jsstring) (st : ViewState) :=
  {| visibleColumns := visibleColumns st; sortConfig := sortConfig st;
     filters := filters st;
     searchQuery := searchQuery st; currentPage := currentPage st;
     rowsPerPage := rowsPerPage st; columnTypes := columnTypes st;
     hideUnknownMacros := hideUnknownMacros st;
     formulaInput := v; appliedFormula := appliedFormula st;
     formulaSortDir := formulaSortDir st;
     showFormulaHistory := showFormulaHistory st;
     selectedCategories := selectedCategories st; toasts := toasts st |}.

Definition setAppliedFormula (v : jsstring) (st : ViewState) :=
  {| visibleColumns := visibleColumns st; sortConfig := sortConfig st;
     filters := filters st;
     searchQuery := searchQuery st; currentPage := currentPage st;
     rowsPerPage := rowsPerPage st; columnTypes := columnTypes st;
     hideUnknownMacros := hideUnknownMacros st;
     formulaInput := formulaInput st; appliedFormula := v;
     formulaSortDir := formulaSortDir st;
     showFormulaHistory := showFormulaHistory st;
     selectedCategories := selectedCategories st; toasts := toasts st |}.

Definition setFormulaSortDir (v : option direction) (st : ViewState) :=
  {| visibleColumns := visibleColumns st; sortConfig := sortConfig st;
     filters := filters st;
     searchQuery := searchQuery st; currentPage := currentPage st;
     rowsPerPage := rowsPerPage st; columnTypes := columnTypes st;
     hideUnknownMacros := hideUnknownMacros st;
     formulaInput := formulaInput st; appliedFormula := appliedFormula st;
     formulaSortDir := v;
     showFormulaHistory := showFormulaHistory st;
     selectedCategories := selectedCategories st; toasts := toasts st |}.

Definition setShowFormulaHistory (v : bool) (st : ViewState) :=
  {| visibleColumns := visibleColumns st; sortConfig := sortConfig st;
     filters := filters st;
     searchQuery := searchQuery st; currentPage := currentPage st;
     rowsPerPage := rowsPerPage st; columnTypes := columnTypes st;
     hideUnknownMacros := hideUnknownMacros st;
     formulaInput := formulaInput st; appliedFormula := appliedFormula st;
     formulaSortDir := formulaSortDir st;
     showFormulaHistory := v;
     selectedCategories := selectedCategories st; toasts := toasts st |}.

Definition setSelectedCategories (v : gset jsstring) (st : ViewState) :=
  {| visibleColumns := visibleColumns st; sortConfig := sortConfig st;
     filters := filters st;
     searchQuery := searchQuery st; currentPage := currentPage st;
     rowsPerPage := rowsPerPage st; columnTypes := columnTypes st;
     hideUnknownMacros := hideUnknownMacros st;
     formulaInput := formulaInput st; appliedFormula := appliedFormula st;
     formulaSortDir := formulaSortDir st;
     showFormulaHistory := showFormulaHistory st;
     selectedCategories := v; toasts := toasts st |}.

Definition setColumnTypes (v : gmap jsstring columnType) (st : ViewState) :=
  {| visibleColumns := visibleColumns st; sortConfig := sortConfig st;
     filters := filters st;
     searchQuery := searchQuery st; currentPage := currentPage st;
     rowsPerPage := rowsPerPage st; columnTypes := v;
     hideUnknownMacros := hideUnknownMacros st;
     formulaInput := formulaInput st; appliedFormula := appliedFormula st;
     formulaSortDir := formulaSortDir st;
     showFormulaHistory := showFormulaHistory st;
     selectedCategories := selectedCategories st; toasts := toasts st |}.

Definition addToast (t : Toast) (st : ViewState) :=
  {| visibleColumns := visibleColumns st; sortConfig := sortConfig st;
     filters := filters st;
     searchQuery := searchQuery st; currentPage := currentPage st;
     rowsPerPage := rowsPerPage st; columnTypes := columnTypes st;
     hideUnknownMacros := hideUnknownMacros st;
     formulaInput := formulaInput st; appliedFormula := appliedFormula st;
     formulaSortDir := formulaSortDir st;
     showFormulaHistory := showFormulaHistory st;
     selectedCategories := selectedCategories st;
     toasts := toasts st ++ [t] |}.

(** *** The formula check *)

(** Scanner state for the pattern: a double quote, one or more characters
    that are not double quotes, a double quote. *)
Inductive quoteScan : Type :=
| Outside
| Inside (body : jsstring).

(** All captures of the global pattern in [s], left to right. An opening
    quote directly followed by a quote does not match; the second quote may
    open the next match. *)
Fixpoint scanRefs (st : quoteScan) (s : jsstring) : list jsstring :=
  match s with
  | [] => []
  | c :: s' =>
      match st with
      | Outside =>
          if (c =? DQUOTE)%N then scanRefs (Inside []) s'
          else scanRefs Outside s'
      | Inside body =>
          if (c =? DQUOTE)%N then
            match body with
            | [] => scanRefs (Inside []) s'
            | _ => body :: scanRefs Outside s'
            end
          else scanRefs (Inside (body ++ [c])) s'
      end
  end.

Definition quotedRefs (formula : jsstring) : list jsstring :=
  scanRefs Outside formula.

(** [s] with every match of the pattern replaced by the empty string; what
    was read after a quote that finds no match is kept. *)
Fixpoint scanStrip (st : quoteScan) (s : jsstring) : jsstring :=
  match s with
  | [] =>
      match st with
      | Outside => []
      | Inside body => DQUOTE :: body
      end
  | c :: s' =>
      match st with
      | Outside =>
          if (c =? DQUOTE)%N then scanStrip (Inside []) s'
          else c :: scanStrip Outside s'
      | Inside body =>
          if (c =? DQUOTE)%N then
            match body with
            | [] => DQUOTE :: scanStrip (Inside []) s'
            | _ => scanStrip Outside s'
            end
          else scanStrip (Inside (body ++ [c])) s'
      end
  end.

Definition stripQuoted (formula : jsstring) : jsstring :=
  scanStrip Outside formula.

(** After a solidus: white space, then the digit zero, then no digit. *)
Fixpoint zeroFollows (s : jsstring) : bool :=
  match s with
  | [] => false
  | c :: s' =>
      if isWhiteSpace c then zeroFollows s'
      else if (c =? 48)%N then
        match s' with
        | d :: _ => negb (isDigit d)
        | [] => true
        end
      else false
  end.

(** The test of the division pattern: a solidus, white space, the digit
    zero not followed by a digit, somewhere in [s]. *)
Fixpoint divisionByZeroTest (s : jsstring) : bool :=
  match s with
  | [] => false
  | c :: s' => ((c =? SLASH)%N && zeroFollows s') || divisionByZeroTest s'
  end.

(** The literal-division-by-zero check of [validateAndApplyFormula]. *)
Definition detectsDivisionByZero (formula : jsstring) : bool :=
  let formulaWithoutQuotes := stripQuoted formula in
  divisionByZeroTest formulaWithoutQuotes.

(** What a quoted reference stands for in the compiled expression:
    [(parseFloat(row[col])||0)]. *)
Definition refValue (row : Row) (col : jsstring) : number :=
  orZero (parseFloat (row !! col)).

(** Function to evaluate the formula per row; a throw inside the callable
    is turned into NaN. *)
Definition buildFormulaFn `{Host} (appliedFormula : jsstring)
    : option (Row -> number) :=
  match trim appliedFormula with
  | [] => None
  | _ =>
      match compileFormula appliedFormula with
      | Some fn => Some (fun row => default NaN (fn row))
      | None => None
      end
  end.

Definition errorToast (t : jsstring) (m : option jsstring) : Toast :=
  {| type := error; title := t; message := m |}.

Definition validateAndApplyFormula `{Host} (headers : list jsstring)
    (data : list Row) (st : ViewState) : ViewState :=
  let formula := trim (formulaInput st) in
  match formula with
  | [] => st
  | _ =>
      (* Validate column names exist *)
      let missingCols :=
        List.filter (fun col => negb (includesStr headers col))
          (quotedRefs formula) in
      match missingCols with
      | _ :: _ =>
          addToast (errorToast (lit "Unknown column(s)")
                      (Some (join (lit ", ") missingCols))) st
      | [] =>
          (* Detect division by constant zero *)
          if detectsDivisionByZero formula then
            addToast (errorToast (lit "Division by zero")
                        (Some (lit "Formula contains division by 0 constant")))
              st
          else
            let invalid :=
              addToast (errorToast (lit "Invalid formula syntax") None) st in
            let applied :=
              addToast {| type := success; title := lit "Formula applied";
                          message := None |}
                (setShowFormulaHistory false
                   (setFormulaSortDir None
                      (setAppliedFormula formula
                         (setFormulaInput formula st)))) in
            (* Try compiling function *)
            match compileFormula formula with
            | None => invalid
            | Some fn =>
                (* quick test on first row if exists *)
                match data with
                | row0 :: _ =>
                    match fn row0 with
                    | None => invalid
                    | Some testVal =>
                        if isNaN testVal then
                          addToast (errorToast (lit "Formula result is NaN")
                                      (Some (lit "Ensure numeric columns used.")))
                            st
                        else applied
                    end
                | [] => applied
                end
            end
      end
  end.

(** *** Filter and sort data *)

(** The canonical category path of a row. *)
Definition categoryPath (row : Row) : jsstring :=
  let rawValue := default [] (row !! CATEGORY_COLUMN) in
  match rawValue with
  | [] => []
  | _ => join [HASH] (List.map trim (split HASH rawValue))
  end.

(** Category filter (if category column exists). *)
Definition categoryFilter (headers : list jsstring)
    (selectedCategories : gset jsstring) (workingData : list Row) : list Row :=
  if existsb (fun h => bool_decide (normalizeHeader h = CATEGORY_COLUMN)) headers
     && (0 <? size selectedCategories)%nat
  then List.filter
         (fun row => bool_decide (categoryPath row ∈ selectedCategories))
         workingData
  else workingData.

(** Apply search filter. *)
Definition searchFilter `{Host} (searchQuery : jsstring)
    (visibleColumns : list jsstring) (workingData : list Row) : list Row :=
  match searchQuery with
  | [] => workingData
  | _ =>
      let query := normalizeString (Some searchQuery) in
      List.filter
        (fun row =>
           existsb (fun column => includes (normalizeString (row !! column)) query)
             visibleColumns)
        workingData
  end.

(** Apply hide unknown macros filter. *)
Definition unknownMacrosFilter (hideUnknownMacros : bool)
    (filteredData : list Row) : list Row :=
  if hideUnknownMacros then
    List.filter
      (fun row =>
         let calories := parseFloat (row !! lit "calories") in
         negb (strictEq calories (Num 100500)))
      filteredData
  else filteredData.

(** [Number(v)] of a bound: [null] is [0]. *)
Definition boundValue (v : option number) : number := default (Num 0) v.

Definition equalsPredicate (column : jsstring) (value : number)
    (row : Row) : bool :=
  let v := parseFloat (row !! column) in
  strictEq v value.

Definition rangePredicate (column : jsstring) (min max : option number)
    (row : Row) : bool :=
  let value := parseFloat (row !! column) in
  (falsy min || ge value (boundValue min))
  && (falsy max || le value (boundValue max)).

(** Truthiness of a contains or exclude value: an array always, a string
    when it is not empty. *)
Definition givenPatterns (v : option patterns) : bool :=
  match v with
  | None => false
  | Some (PArray _) => true
  | Some (PString s) => negb (bool_decide (s = []))
  end.

Fixpoint countQuotes (s : jsstring) : nat :=
  match s with
  | [] => O
  | c :: s' => ((if (c =? DQUOTE)%N then 1 else 0) + countQuotes s')%nat
  end.

(** Split at the commas that an even number of double quotes follows. *)
Fixpoint splitOutsideQuotes (s : jsstring) : list jsstring :=
  match s with
  | [] => [[]]
  | c :: s' =>
      if (c =? COMMA)%N && Nat.even (countQuotes s')
      then [] :: splitOutsideQuotes s'
      else match splitOutsideQuotes s' with
           | p :: ps => (c :: p) :: ps
           | [] => [[c]]
           end
  end.

(** Drop one double quote at the start and one at the end. *)
Definition stripQuoteEnds (s : jsstring) : jsstring :=
  let s1 := match s with
            | c :: r => if (c =? DQUOTE)%N then r else s
            | [] => []
            end in
  match rev s1 with
  | c :: r => if (c =? DQUOTE)%N then rev r else s1
  | [] => []
  end.

Definition nonEmpty (s : jsstring) : bool := negb (bool_decide (s = [])).

Definition containsPatterns `{Host} (v : patterns) : list jsstring :=
  let ps := match v with PArray ps => ps | PString s => [s] end in
  List.filter nonEmpty (List.map (fun p => normalizeString (Some p)) ps).

Definition excludePatterns `{Host} (v : patterns) : list jsstring :=
  let ps := match v with
            | PArray ps => ps
            | PString s =>
                List.map (fun p => stripQuoteEnds (trim p)) (splitOutsideQuotes s)
            end in
  List.filter nonEmpty (List.map (fun p => normalizeString (Some p)) ps).

(** One round of [Object.entries(filters).forEach]. *)
Definition applyColumnFilter `{Host} (columnTypes : gmap jsstring columnType)
    (filteredData : list Row) (entry : jsstring * option Filter) : list Row :=
  let (column, filter) := entry in
  match filter with
  | None => filteredData
  | Some filter =>
      match columnTypes !! column with
      | Some TNumber =>
          match filter with
          | FEquals value => List.filter (equalsPredicate column value) filteredData
          | FRange min max => List.filter (rangePredicate column min max) filteredData
          | FText _ _ => filteredData
          end
      | _ =>
          match filter with
          | FText containsVal excludeVal =>
              let filteredData :=
                match containsVal with
                | Some v =>
                    if givenPatterns containsVal then
                      match containsPatterns v with
                      | [] => filteredData
                      | normalizedPatterns =>
                          List.filter
                            (fun row =>
                               let cell := normalizeString (row !! column) in
                               forallb (fun pattern => includes cell pattern)
                                 normalizedPatterns)
                            filteredData
                      end
                    else filteredData
                | None => filteredData
                end in
              match excludeVal with
              | Some v =>
                  if givenPatterns excludeVal then
                    match excludePatterns v with
                    | [] => filteredData
                    | normalizedPatterns =>
                        List.filter
                          (fun row =>
                             let cell := normalizeString (row !! column) in
                             negb (existsb (fun pattern => includes cell pattern)
                                     normalizedPatterns))
                          filteredData
                    end
                  else filteredData
              | None => filteredData
              end
          | _ => filteredData
          end
      end
  end.

(** Apply column filters. *)
Definition columnFilters `{Host} (columnTypes : gmap jsstring columnType)
    (filters : list (jsstring * option Filter)) (filteredData : list Row)
    : list Row :=
  foldl (applyColumnFilter columnTypes) filteredData filters.

(** The comparator of the formula sort. *)
Definition formulaCompare (buildFormulaFn : Row -> number)
    (formulaSortDir : direction) (a b : Row) : number :=
  let aVal := buildFormulaFn a in
  let bVal := buildFormulaFn b in
  let aNum := if isNaN aVal then NegInf else aVal in
  let bNum := if isNaN bVal then NegInf else bVal in
  match formulaSortDir with
  | asc => sub aNum bNum
  | desc => sub bNum aNum
  end.

(** The comparator of the column sort. *)
Definition columnCompare `{Host} (sortConfig : SortConfig) (a b : Row)
    : number :=
  let aValue := a !! key sortConfig in
  let bValue := b !! key sortConfig in
  (* Check if values are numbers *)
  let aNum := negb (isNaN (parseFloat aValue)) in
  let bNum := negb (isNaN (parseFloat bValue)) in
  if aNum && bNum then
    match dir sortConfig with
    | asc => sub (parseFloat aValue) (parseFloat bValue)
    | desc => sub (parseFloat bValue) (parseFloat aValue)
    end
  else
    match dir sortConfig with
    | asc => localeCompare (toStr aValue) (toStr bValue)
    | desc => localeCompare (toStr bValue) (toStr aValue)
    end.

(** Apply sorting. *)
Definition sorting `{Host} (buildFormulaFn : option (Row -> number))
    (formulaSortDir : option direction) (sortConfig : option SortConfig)
    (filteredData : list Row) : list Row :=
  match buildFormulaFn, formulaSortDir, sortConfig with
  | Some fn, Some d, _ => sort (formulaCompare fn d) filteredData
  | _, _, Some cfg => sort (columnCompare cfg) filteredData
  | _, _, None => filteredData
  end.

(** The rows to show, before pagination. *)
Definition processedData `{Host} (data : list Row) (headers : list jsstring)
    (st : ViewState) : list Row :=
  match data with
  | [] => []
  | _ =>
      let workingData := categoryFilter headers (selectedCategories st) data in
      let filteredData :=
        searchFilter (searchQuery st) (visibleColumns st) workingData in
      let filteredData := unknownMacrosFilter (hideUnknownMacros st) filteredData in
      let filteredData := columnFilters (columnTypes st) (filters st) filteredData in
      sorting (buildFormulaFn (appliedFormula st)) (formulaSortDir st)
        (sortConfig st) filteredData
  end.

(** *** The category tree of the data *)

(** The names every plain object inherits from [Object.prototype]. *)
Definition OBJECT_PROTOTYPE_KEYS : list jsstring :=
  [lit "constructor"; lit "__defineGetter__"; lit "__defineSetter__";
   lit "hasOwnProperty"; lit "__lookupGetter__"; lit "__lookupSetter__";
   lit "isPrototypeOf"; lit "propertyIsEnumerable"; lit "toString";
   lit "valueOf"; lit "__proto__"; lit "toLocaleString"].

(** The array index a property key stands for, if it is one: a canonical
    decimal numeral below 2^32 - 1. *)
Definition arrayIndex (key : jsstring) : option Z :=
  match key with
  | [] => None
  | c :: r =>
      if forallb isDigit key && (negb (c =? 48)%N || bool_decide (r = []))
      then
        let v := digitsValue key in
        if v <=? 4294967294 then Some v else None
      else None
  end.

(** What [current[part]] reads on one of the objects [buildTree] walks:
    the own properties are the nodes, in the order [Object.values] lists
    them; other names are looked up in [Object.prototype]. *)
Inductive property : Type :=
| Own (node : CategoryNode)
| Inherited
| Undefined.

Fixpoint ownProperty (part : jsstring) (nodes : list CategoryNode)
    : option CategoryNode :=
  match nodes with
  | [] => None
  | node :: nodes' =>
      if bool_decide (name node = part) then Some node
      else ownProperty part nodes'
  end.

Definition getProperty (part : jsstring) (nodes : list CategoryNode)
    : property :=
  match ownProperty part nodes with
  | Some node => Own node
  | None =>
      if includesStr OBJECT_PROTOTYPE_KEYS part then Inherited else Undefined
  end.

(** [current[part] = node] for a new key, in the order of own properties:
    array indices ascending first, then the other keys as created. *)
Fixpoint defineProperty (node : CategoryNode) (nodes : list CategoryNode)
    : list CategoryNode :=
  match arrayIndex (name node) with
  | None => nodes ++ [node]
  | Some i =>
      match nodes with
      | [] => [node]
      | n :: nodes' =>
          match arrayIndex (name n) with
          | Some j =>
              if j <? i then n :: defineProperty node nodes'
              else node :: nodes
          | None => node :: nodes
          end
      end
  end.

(** The object of [part] with the children the walk below it left. *)
Fixpoint setChildren (part : jsstring) (cs : list CategoryNode)
    (nodes : list CategoryNode) : list CategoryNode :=
  match nodes with
  | [] => []
  | node :: nodes' =>
      if bool_decide (name node = part)
      then mkNode (name node) (CategoryManager.path node) cs :: nodes'
      else node :: setChildren part cs nodes'
  end.

(** The walk of [buildTree] along the parts of one path, from the object
    [current]; [pre] is the joined parts walked so far, with the
    delimiter. A part that reads as undefined gets a fresh node. A part
    that is found in [Object.prototype] gets none, and the walk goes on in
    the [children] of what was found, which is undefined: reading the next
    part throws ([None]). *)
Fixpoint walkParts (pre : jsstring) (parts : list jsstring)
    (current : list CategoryNode) : option (list CategoryNode) :=
  match parts with
  | [] => Some current
  | part :: rest =>
      match getProperty part current with
      | Own node =>
          match walkParts (pre ++ part ++ [HASH]) rest (children node) with
          | Some cs => Some (setChildren part cs current)
          | None => None
          end
      | Undefined =>
          match walkParts (pre ++ part ++ [HASH]) rest [] with
          | Some cs => Some (defineProperty (mkNode part (pre ++ part) cs) current)
          | None => None
          end
      | Inherited =>
          match rest with
          | [] => Some current
          | _ :: _ => None
          end
      end
  end.

(** One round of [data.forEach] in [buildTree]. *)
Definition addRow (acc : option (list CategoryNode * list jsstring))
    (row : Row) : option (list CategoryNode * list jsstring) :=
  match acc with
  | None => None
  | Some (root, allPaths) =>
      let rawValue := default [] (row !! CATEGORY_COLUMN) in
      match rawValue with
      | [] => Some (root, allPaths)
      | _ =>
          let path := join [HASH] (List.map trim (split HASH rawValue)) in
          match walkParts [] (split HASH path) root with
          | Some root' => Some (root', allPaths ++ [path])
          | None => None
          end
      end
  end.

(** [buildTree]: the forest and all paths of the rows, in row order;
    [None] when a walk throws. *)
Definition buildTree (data : list Row)
    : option (list CategoryNode * list jsstring) :=
  foldl addRow (Some ([], [])) data.

(** *** Columns *)

(** The column order the header effect sets: the columns shown by default
    that the headers have, the ones hidden by default, the remaining
    headers. The first part is also the default of the visible columns. *)
Definition defaultColumnOrder (headers : list jsstring) : list jsstring :=
  let shown := List.filter (includesStr headers) SHOWN_BY_DEFAULT_COLUMNS in
  let hiddenToggle :=
    List.filter (includesStr headers) HIDDEN_BY_DEFAULT_COLUMNS in
  let remainder :=
    List.filter
      (fun h => negb (includesStr shown h) && negb (includesStr hiddenToggle h))
      headers in
  shown ++ hiddenToggle ++ remainder.

(** [l.indexOf(x)] *)
Fixpoint indexOf (l : list jsstring) (x : jsstring) : Z :=
  match l with
  | [] => -1
  | y :: l' =>
      if bool_decide (y = x) then 0
      else let i := indexOf l' x in if i <? 0 then -1 else i + 1
  end.

(** The comparator that orders columns by their place in [columnOrder]. *)
Definition byColumnOrder (columnOrder : list jsstring) (a b : jsstring)
    : number :=
  sub (Num (inject_Z (indexOf columnOrder a)))
      (Num (inject_Z (indexOf columnOrder b))).

(** The update [handleColumnVisibilityChange] applies to the visible
    columns. *)
Definition handleColumnVisibilityChange (columnOrder : list jsstring)
    (column : jsstring) (isVisible : bool) (prev : list jsstring)
    : list jsstring :=
  if isVisible then sort (byColumnOrder columnOrder) (prev ++ [column])
  else List.filter (fun col => negb (bool_decide (col = column))) prev.

(** *** The category effect *)

(** The selection kept when the data changes and the file does not. *)
Definition reconcileSelection (allPaths : list jsstring)
    (prev : gset jsstring) : gset jsstring :=
  (* If no categories are selected, select all *)
  if (size prev =? 0)%nat then list_to_set allPaths
  else
    let prevPaths := elements prev in
    let hasNewPaths :=
      existsb (fun path => negb (includesStr prevPaths path)) allPaths in
    let hasRemovedPaths :=
      existsb (fun path => negb (includesStr allPaths path)) prevPaths in
    if hasNewPaths || hasRemovedPaths then
      (* Keep existing selections that are still valid *)
      let validSelections := List.filter (includesStr allPaths) prevPaths in
      match validSelections with
      | _ :: _ => list_to_set validSelections
      | [] => list_to_set allPaths
      end
    else prev.

(** Build categories tree whenever data changes: the tree and the
    selection the effect leaves, [None] when [buildTree] throws.
    [fileChanged] says that the selected file is not the one of the last
    run. *)
Definition categoriesEffect (data : list Row) (headers : list jsstring)
    (fileChanged : bool) (categoriesTree : list CategoryNode)
    (prev : gset jsstring) : option (list CategoryNode * gset jsstring) :=
  match data, headers with
  | [], _ | _, [] => Some (categoriesTree, prev)
  | _, _ =>
      match buildTree data with
      | None => None
      | Some (tree, allPaths) =>
          Some (tree,
                if fileChanged then list_to_set allPaths
                else reconcileSelection allPaths prev)
      end
  end.

(** *** Pagination *)

Definition paginatedData (processedData : list Row)
    (currentPage rowsPerPage : Z) : list Row :=
  let startIndex := (currentPage - 1) * rowsPerPage in
  slice processedData startIndex (startIndex + rowsPerPage).

(** [Math.ceil(processedData.length / rowsPerPage)] for a positive page
    size. The quotient of two array lengths is far coarser than the
    spacing of binary64 values, so the ceiling is taken of the exact
    quotient. *)
Definition totalPages (processedData : list Row) (rowsPerPage : Z) : Z :=
  Qceiling (inject_Z (Z.of_nat (length processedData)) / inject_Z rowsPerPage).

(** Adjust current page if it becomes invalid due to data changes. *)
Definition adjustPage (totalPages : Z) (st : ViewState) : ViewState :=
  if (currentPage st >? totalPages) && (totalPages >? 0)
  then setCurrentPage (Z.max 1 totalPages) st
  else st.

(** *** Handlers *)

Definition handleSort (column : jsstring) (st : ViewState) : ViewState :=
  let st := setFormulaSortDir None st in
  setSortConfig
    match sortConfig st with
    | Some prevSortConfig =>
        if bool_decide (key prevSortConfig = column) then
          match dir prevSortConfig with
          | asc => Some {| key := column; dir := desc |}
          | desc => None
          end
        else Some {| key := column; dir := asc |}
    | None => Some {| key := column; dir := asc |}
    end st.

Definition applyFormulaSort (d : direction) (st : ViewState) : ViewState :=
  match trim (appliedFormula st) with
  | [] => st
  | _ => setSortConfig None (setFormulaSortDir (Some d) st)
  end.

Definition clearFormulaSort (st : ViewState) : ViewState :=
  setFormulaSortDir None st.

(** A click on an entry of the formula history. *)
Definition applyHistoryFormula (f : jsstring) (st : ViewState) : ViewState :=
  addToast {| type := success; title := lit "Formula applied"; message := None |}
    (setShowFormulaHistory false (setAppliedFormula f (setFormulaInput f st))).

Fixpoint deleteKey {V} (column : jsstring) (l : list (jsstring * V))
    : list (jsstring * V) :=
  match l with
  | [] => []
  | (k, v) :: l' =>
      if bool_decide (k = column) then deleteKey column l'
      else (k, v) :: deleteKey column l'
  end.

(** [{ ...prev, [column]: filter }]: an existing key keeps its place. *)
Fixpoint assignKey {V} (column : jsstring) (v : V) (l : list (jsstring * V))
    : list (jsstring * V) :=
  match l with
  | [] => [(column, v)]
  | (k, w) :: l' =>
      if bool_decide (k = column) then (k, v) :: l'
      else (k, w) :: assignKey column v l'
  end.

Definition handleFilterChange (column : jsstring) (filter : option Filter)
    (st : ViewState) : ViewState :=
  setCurrentPage 1
    (setFilters
       match filter with
       | None => deleteKey column (filters st)
       | Some f => assignKey column (Some f) (filters st)
       end st).

Definition handleSearchChange (query : jsstring) (st : ViewState) : ViewState :=
  setCurrentPage 1 (setSearchQuery query st).

Definition handlePageChange (page : Z) (st : ViewState) : ViewState :=
  setCurrentPage page st.

Definition handleRowsPerPageChange (rows : Z) (st : ViewState) : ViewState :=
  setCurrentPage 1 (setRowsPerPage rows st).

(** Update visible columns when headers change. *)
Definition headersChanged (headers : list jsstring) (st : ViewState)
    : ViewState :=
  match headers with
  | [] => st
  | _ =>
      let shown := List.filter (includesStr headers) SHOWN_BY_DEFAULT_COLUMNS in
      setColumnTypes (deriveColumnTypes headers) (setVisibleColumns shown st)
  end.

Definition handleReset (headers : list jsstring)
    (categoriesTree : list CategoryNode) (st : ViewState) : ViewState :=
  let st := setSortConfig None st in
  let st := setFormulaSortDir None st in
  let st := setFormulaInput [] st in
  let st := setAppliedFormula [] st in
  let st := setFilters [] st in
  let st := setSearchQuery [] st in
  let st := setCurrentPage 1 st in
  let st := setHideUnknownMacros true st in
  let st :=
    match headers with
    | [] => st
    | _ =>
        let shown := List.filter (includesStr headers) SHOWN_BY_DEFAULT_COLUMNS in
        setVisibleColumns shown st
    end in
  setSelectedCategories (list_to_set (collectPaths categoriesTree)) st.

(** *** Formula history *)

(** The history [addFormulaToHistory] sets and writes to the local
    storage: the formula first, behind it the previous entries other than
    the formula, fifteen entries at most. *)
Definition addFormulaToHistory (f : jsstring) (prev : list jsstring)
    : list jsstring :=
  let updated :=
    slice (f :: List.filter (fun x => negb (bool_decide (x = f))) prev) 0 15 in
  updated.

Definition removeFormulaFromHistory (f : jsstring) (prev : list jsstring)
    : list jsstring :=
  let updated := List.filter (fun x => negb (bool_decide (x = f))) prev in
  updated.

End CSVViewer.

Import CSVViewer.

(** ** Pagination: the pager under the table *)

Module Pagination.

(** The page [handlePrevious] asks for, if any. *)
Definition handlePrevious (currentPage : Z) : option Z :=
  if currentPage >? 1 then Some (currentPage - 1) else None.

(** The page [handleNext] asks for, if any. *)
Definition handleNext (currentPage totalPages : Z) : option Z :=
  if currentPage <? totalPages then Some (currentPage + 1) else None.

(** The first and the last row number of the line that reads
    Showing .. to .. of .. results. *)
Definition showingFrom (currentPage rowsPerPage totalRows : Z) : Z :=
  if totalRows =? 0 then 0 else (currentPage - 1) * rowsPerPage + 1.

Definition showingTo (currentPage rowsPerPage totalRows : Z) : Z :=
  Z.min (currentPage * rowsPerPage) totalRows.

End Pagination.

(** ** ColumnManager: the column panel *)

Module ColumnManager.

Definition normalizeColumnName (columnName : jsstring) : jsstring :=
  trim match columnName with
       | c :: r => if (c =? BOM)%N then r else columnName
       | [] => []
       end.

(** The columns the panel counts: all but the always hidden ones. *)
Definition normalizedAllColumns (columns : list jsstring) : list jsstring :=
  List.filter
    (fun col =>
       let normalized := normalizeColumnName col in
       negb (CSVViewer.includesStr CSVViewer.ALWAYS_HIDDEN_COLUMNS normalized))
    columns.

Definition areAllVisible (columns visibleColumns : list jsstring) : bool :=
  forallb (fun col => CSVViewer.includesStr visibleColumns col)
    (normalizedAllColumns columns).

(** The calls of [onColumnVisibilityChange] that [handleToggleAll] makes,
    in order. *)
Definition handleToggleAll (columns visibleColumns : list jsstring)
    : list (jsstring * bool) :=
  let shouldBeVisible := negb (areAllVisible columns visibleColumns) in
  List.flat_map
    (fun col =>
       if negb (Bool.eqb (CSVViewer.includesStr visibleColumns col)
                  shouldBeVisible)
       then [(col, shouldBeVisible)]
       else [])
    (normalizedAllColumns columns).

(** The columns the panel lists: those that match the search box, without
    the always hidden ones. *)
Definition filteredColumns `{CSVViewer.Host} (orderedColumns : list jsstring)
    (searchQuery : jsstring) : list jsstring :=
  List.filter
    (fun column =>
       let normalizedColumn := normalizeColumnName column in
       includes (CSVViewer.toLowerCase column)
         (CSVViewer.toLowerCase searchQuery)
       && negb (CSVViewer.includesStr CSVViewer.ALWAYS_HIDDEN_COLUMNS
                  normalizedColumn))
    orderedColumns.

(** [items.indexOf(x)] where [x] is a column or [undefined]; no column is
    [undefined]. *)
Definition indexOfValue (items : list jsstring) (x : option jsstring) : Z :=
  match x with
  | Some column => CSVViewer.indexOf items column
  | None => -1
  end.

(** The order [handleDragEnd] sets and reports, [None] when it returns
    early. [source] and [destination] are the indices of the drag result
    in the listed columns; an entry [None] of the order is [undefined]. *)
Definition handleDragEnd `{CSVViewer.Host} (orderedColumns : list jsstring)
    (searchQuery : jsstring) (source : nat) (destination : option nat)
    : option (list (option jsstring)) :=
  match destination with
  | None => None
  | Some destination =>
      let items := List.map Some orderedColumns in
      let filtered := filteredColumns orderedColumns searchQuery in
      let sourceColumn := filtered !! source in
      let sourceIndex := indexOfValue orderedColumns sourceColumn in
      let destinationColumn := filtered !! destination in
      let destinationIndex := indexOfValue orderedColumns destinationColumn in
      let (removed, items) := splice items sourceIndex 1 [] in
      let reorderedItem := default None (head removed) in
      let (_, items) := splice items destinationIndex 0 [reorderedItem] in
      Some items
  end.

End ColumnManager.

(** ** FilterPanel: the filter panel

    The panel reports to the viewer through [onFilterChange], which is
    [handleFilterChange], and [onHideUnknownMacrosChange], which sets the
    flag. *)

Module FilterPanel.

Definition clearFilter (column : jsstring) (st : ViewState) : ViewState :=
  handleFilterChange column None st.

Definition clearAllFilters (columns : list jsstring) (st : ViewState)
    : ViewState :=
  let st := foldl (fun st column => handleFilterChange column None st)
              st columns in
  setHideUnknownMacros false st.

End FilterPanel.


(** ** Vocabulary of the statements *)

(** *** Trees *)

(** The nodes of a subtree, the node itself first. *)
Fixpoint subnodes (node : CategoryNode) : list CategoryNode :=
  match node with
  | mkNode _ _ cs => node :: List.flat_map subnodes cs
  end.

(** The nodes strictly below a node. *)
Definition descendants (node : CategoryNode) : list CategoryNode :=
  List.flat_map subnodes (children node).

Definition allNodes (tree : list CategoryNode) : list CategoryNode :=
  List.flat_map subnodes tree.

(** The invariant of the category tree as [buildTree] makes it
    ([buildTree_wf]): a name is one segment of a split at the delimiter,
    siblings are keyed by name, and a path is the parent's path, the
    delimiter, and the name ([pre] is the parent's path with the
    delimiter, empty at a root). *)
Fixpoint wfNode (pre : jsstring) (node : CategoryNode) : bool :=
  match node with
  | mkNode nm p cs =>
      bool_decide (p = pre ++ nm)
      && negb (bool_decide (HASH ∈ nm))
      && bool_decide (NoDup (List.map name cs))
      && forallb (wfNode (p ++ [HASH])) cs
  end.

Definition wfForest (tree : list CategoryNode) : bool :=
  bool_decide (NoDup (List.map name tree)) && forallb (wfNode []) tree.

(** The paths a toggle of [path] touches in the tree: the path and what
    lies below it by text. *)
Definition cascades (tree : list CategoryNode) (path x : jsstring) : Prop :=
  x ∈ collectPaths tree
  /\ (x = path \/ startsWith (path ++ [HASH]) x = true).

(** In a subtree, a path that extends the path of [n] past a delimiter
    belongs to a node below [n]. *)
Definition separated (r : CategoryNode) : Prop :=
  forall pre n m,
    wfNode pre r = true -> n ∈ subnodes r -> m ∈ subnodes r ->
    startsWith (path n ++ [HASH]) (path m) = true ->
    m ∈ descendants n.

(** *** Datasets *)

(** The dataset exposes a category column. *)
Definition exposesCategory (headers : list jsstring) : bool :=
  existsb (fun h => bool_decide (normalizeHeader h = CATEGORY_COLUMN)) headers.

(** The callable of a formula that divides one quoted reference by
    another. *)
Definition ratio (a b : jsstring) : Row -> number :=
  fun row => div (refValue row a) (refValue row b).

(** *** The division pattern *)

(** What may follow the zero of a matched division: no digit. *)
Definition noDigitAhead (rest : jsstring) : Prop :=
  match rest with
  | d :: _ => isDigit d = false
  | [] => True
  end.

(** *** The formula order as the specification words it *)

(** Non-finite and NaN results count as negative infinity. *)
Definition lowestIfNotFinite (v : number) : number :=
  if isFinite v then v else NegInf.

Definition specFormulaCompare (fn : Row -> number) (d : direction)
    (a b : Row) : number :=
  match d with
  | asc => sub (lowestIfNotFinite (fn a)) (lowestIfNotFinite (fn b))
  | desc => sub (lowestIfNotFinite (fn b)) (lowestIfNotFinite (fn a))
  end.

(** *** Numeric filters as the specification words them *)

(** A bound binds when it is set. *)
Definition specRange (min max : option number) (value : number) : bool :=
  match min with Some m => ge value m | None => true end
  && match max with Some m => le value m | None => true end.

(** *** Rows and their categories *)

(** The row has a category: [buildTree] does not skip it. *)
Definition categorised (row : Row) : bool :=
  nonEmpty (default [] (row !! CATEGORY_COLUMN)).

(** The canonical paths of the rows that have a category, in row order. *)
Definition categoryPaths (data : list Row) : list jsstring :=
  List.map categoryPath (List.filter categorised data).

Definition inheritedName (part : jsstring) : bool :=
  includesStr OBJECT_PROTOTYPE_KEYS part.

(** Some part other than the last names a property of
    [Object.prototype]. *)
Fixpoint inheritedBeforeEnd (parts : list jsstring) : bool :=
  match parts with
  | [] => false
  | part :: rest =>
      (inheritedName part && negb (bool_decide (rest = [])))
      || inheritedBeforeEnd rest
  end.

(** No node of the subtree is named like a property of
    [Object.prototype]. *)
Fixpoint ownNamesOnly (node : CategoryNode) : bool :=
  match node with
  | mkNode nm _ cs => negb (inheritedName nm) && forallb ownNamesOnly cs
  end.

(** Within one subtree no path occurs twice. *)
Definition distinctPaths (r : CategoryNode) : Prop :=
  forall pre, wfNode pre r = true -> NoDup (dfs r).

(** [q] is the path [p] cut after one of its segments. *)
Definition segmentPrefix (q p : jsstring) : Prop :=
  exists i, (1 <= i <= length (split HASH p))%nat
            /\ q = join [HASH] (take i (split HASH p)).

(** *** Columns *)

(** The visible columns after a run of calls of
    [handleColumnVisibilityChange], each a column and the visibility asked
    for. *)
Definition applyVisibilityCalls (columnOrder : list jsstring)
    (calls : list (jsstring * bool)) (visibleColumns : list jsstring)
    : list jsstring :=
  foldl (fun prev call =>
           handleColumnVisibilityChange columnOrder call.1 call.2 prev)
    visibleColumns calls.

(** *** Order *)

(** The rational is a whole multiple of the least positive binary64
    value, as every finite binary64 value is. *)
Definition onGrid (q : Q) : Prop :=
  exists z : Z, (q == inject_Z z * inject_Z 2 ^ (-1074))%Q.

Definition representable (x : number) : Prop :=
  match x with Num q => onGrid q | _ => True end.

(** Whatever stands earlier in the list is [before] what stands later. *)
Definition inOrder {A} (before : A -> A -> bool) (l : list A) : Prop :=
  forall (i j : nat) (a b : A),
    (i < j)%nat -> l !! i = Some a -> l !! j = Some b -> before a b = true.

(** The value a row is ordered by under the formula sort. *)
Definition formulaKey (fn : Row -> number) (row : Row) : number :=
  if isNaN (fn row) then NegInf else fn row.

(** [a] may stand before [b]: not above it when ascending, not below it
    when descending. *)
Definition byDirection (d : direction) (value : Row -> number) (a b : Row)
    : bool :=
  match d with
  | asc => le (value a) (value b)
  | desc => le (value b) (value a)
  end.

Definition sameValue (value : Row -> number) (v : number) (row : Row) : bool :=
  strictEq (value row) v.

(** *** Column filters, row by row *)

Definition containsTest `{Host} (column : jsstring)
    (containsVal : option patterns) (row : Row) : bool :=
  match containsVal with
  | Some v =>
      if givenPatterns containsVal then
        forallb (fun pattern => includes (normalizeString (row !! column)) pattern)
          (containsPatterns v)
      else true
  | None => true
  end.

Definition excludeTest `{Host} (column : jsstring)
    (excludeVal : option patterns) (row : Row) : bool :=
  match excludeVal with
  | Some v =>
      if givenPatterns excludeVal then
        negb (existsb (fun pattern => includes (normalizeString (row !! column)) pattern)
                (excludePatterns v))
      else true
  | None => true
  end.

(** What one entry of [filters] asks of a row. *)
Definition entryTest `{Host} (columnTypes : gmap jsstring columnType)
    (entry : jsstring * option Filter) (row : Row) : bool :=
  match entry.2 with
  | None => true
  | Some filter =>
      match columnTypes !! entry.1, filter with
      | Some TNumber, FEquals value => equalsPredicate entry.1 value row
      | Some TNumber, FRange min max => rangePredicate entry.1 min max row
      | Some TNumber, FText _ _ => true
      | _, FText containsVal excludeVal =>
          containsTest entry.1 containsVal row
          && excludeTest entry.1 excludeVal row
      | _, _ => true
      end
  end.

(** *** Operator actions *)

Inductive event : Type :=
| EvSort (column : jsstring)
| EvApplyFormulaSort (d : direction)
| EvClearFormulaSort
| EvFormulaInput (text : jsstring)
| EvValidateAndApplyFormula (headers : list jsstring) (data : list Row)
| EvApplyHistoryFormula (f : jsstring)
| EvFilterChange (column : jsstring) (filter : option Filter)
| EvSearchChange (query : jsstring)
| EvPageChange (page : Z)
| EvRowsPerPageChange (rows : Z)
| EvHideUnknownMacros (hide : bool)
| EvSelectionChange (selection : gset jsstring)
| EvHeaders (headers : list jsstring)
| EvReset (headers : list jsstring) (categoriesTree : list CategoryNode).

Definition step `{Host} (e : event) (st : ViewState) : ViewState :=
  match e with
  | EvSort column => handleSort column st
  | EvApplyFormulaSort d => applyFormulaSort d st
  | EvClearFormulaSort => clearFormulaSort st
  | EvFormulaInput text => setFormulaInput text st
  | EvValidateAndApplyFormula headers data =>
      validateAndApplyFormula headers data st
  | EvApplyHistoryFormula f => applyHistoryFormula f st
  | EvFilterChange column filter => handleFilterChange column filter st
  | EvSearchChange query => handleSearchChange query st
  | EvPageChange page => handlePageChange page st
  | EvRowsPerPageChange rows => handleRowsPerPageChange rows st
  | EvHideUnknownMacros hide => setHideUnknownMacros hide st
  | EvSelectionChange selection => setSelectedCategories selection st
  | EvHeaders headers => headersChanged headers st
  | EvReset headers categoriesTree => handleReset headers categoriesTree st
  end.

(** The states the component can be in. *)
Inductive reachable `{Host} : ViewState -> Prop :=
| reachable_initial : reachable initialState
| reachable_step e st : reachable st -> reachable (step e st).

(** At most one of the two sort modes is switched on. *)
Definition oneSortMode (st : ViewState) : Prop :=
  sortConfig st = None \/ formulaSortDir st = None.

(** ** A sample host

    Lower-casing of the ASCII letters, comparison by code units, and a
    formula compiler that knows two shapes: one quoted reference, and the
    quotient of two quoted references. *)

Definition asciiLower (c : N) : N :=
  if ((65 <=? c) && (c <=? 90))%N then (c + 32)%N else c.

Fixpoint codeUnitCompare (a b : jsstring) : number :=
  match a, b with
  | [], [] => Num 0
  | [], _ :: _ => Num (-1)
  | _ :: _, [] => Num 1
  | x :: a', y :: b' =>
      match (x ?= y)%N with
      | Lt => Num (-1)
      | Gt => Num 1
      | Eq => codeUnitCompare a' b'
      end
  end.

Definition sampleCompile (formula : jsstring) : option (Row -> option number) :=
  match quotedRefs formula, stripQuoted formula with
  | [col], [] => Some (fun row => Some (refValue row col))
  | [a; b], [47%N] => Some (fun row => Some (ratio a b row))
  | _, _ => None
  end.

Definition sampleHost : Host := {|
  toLowerCase := List.map asciiLower;
  localeCompare := codeUnitCompare;
  compileFormula := sampleCompile;
|}.

(** A cell and a row from ASCII literals. *)
Definition cell (column value : string) : jsstring * jsstring :=
  (lit column, lit value).

Definition mkRow (cells : list (jsstring * jsstring)) : Row :=
  list_to_map cells.

(** A quoted column reference as it is typed in a formula. *)
Definition quoted (col : string) : jsstring := [DQUOTE] ++ lit col ++ [DQUOTE].

(** ** The host model at work *)



Example parseFloat_10 : parseFloatStr (lit "10") = Num 10.
Proof. vm_compute. reflexivity. Qed.
Example parseFloat_10_00 : parseFloatStr (lit "10.00") = Num 10.
Proof. vm_compute. reflexivity. Qed.
Example parseFloat_10_5 : parseFloatStr (lit "10.5") = Num (21 # 2).
Proof. vm_compute. reflexivity. Qed.
Example parseFloat_tenth :
  parseFloatStr (lit "0.1") = Num (3602879701896397 # 36028797018963968).
Proof. vm_compute. reflexivity. Qed.
Example parseFloat_junk : parseFloatStr (lit "abc") = NaN.
Proof. vm_compute. reflexivity. Qed.
Example parseFloat_prefix : parseFloatStr (lit " -2.5e1kg") = Num (-25).
Proof. vm_compute. reflexivity. Qed.
Example parseFloat_huge : parseFloatStr (lit "1e400") = PosInf.
Proof. vm_compute. reflexivity. Qed.
Example split_join :
  join [HASH] (List.map trim (split HASH (lit " A # B#C "))) = lit "A#B#C".
Proof. vm_compute. reflexivity. Qed.

(** ** List helpers *)

Lemma elem_of_List_filter {A} (f : A -> bool) (l : list A) (x : A) :
  x ∈ List.filter f l <-> x ∈ l /\ f x = true.
Proof. rewrite !list_elem_of_In. apply filter_In. Qed.

(** ** Pagination *)

Section Pagination.

Lemma slice_window {A} (l : list A) (s r : Z) :
  0 <= s -> 0 <= r ->
  slice l s (s + r) = take (Z.to_nat r) (drop (Z.to_nat s) l).
Proof.
  intros Hs Hr. unfold slice, relIndex.
  destruct (Z.ltb_spec s 0) as [|_]; [lia|].
  destruct (Z.ltb_spec (s + r) 0) as [|_]; [lia|].
  set (len := Z.of_nat (length l)).
  destruct (Z.le_gt_cases len s) as [Hge | Hlt].
  - rewrite (Z.min_r s len), (Z.min_r (s + r) len) by lia.
    rewrite Z.sub_diag. simpl.
    rewrite (drop_ge l (Z.to_nat s)) by (subst len; lia).
    now rewrite take_nil, take_0.
  - rewrite (Z.min_l s len) by lia.
    destruct (Z.le_gt_cases (s + r) len) as [Hin | Hout].
    + rewrite Z.min_l by lia. f_equal. lia.
    + rewrite Z.min_r by lia.
      rewrite !take_ge; [reflexivity | |];
        rewrite length_drop; subst len; lia.
Qed.

Lemma pages_prefix (l : list Row) (rpp : Z) (k : nat) :
  0 <= rpp ->
  concat (List.map (fun p => paginatedData l p rpp) (seqZ 1 (Z.of_nat k)))
  = take (Z.to_nat (Z.of_nat k * rpp)) l.
Proof.
  intros Hr. induction k as [|k IH].
  - reflexivity.
  - rewrite seqZ_S, List.map_app, concat_app, IH. simpl.
    rewrite app_nil_r. unfold paginatedData.
    replace (1 + Z.of_nat k - 1) with (Z.of_nat k) by lia.
    rewrite slice_window by nia.
    rewrite take_take_drop. f_equal. nia.
Qed.

Lemma totalPages_covers (l : list Row) (rpp : Z) :
  0 < rpp ->
  0 <= totalPages l rpp /\ Z.of_nat (length l) <= totalPages l rpp * rpp.
Proof.
  intros Hr. unfold totalPages.
  set (len := Z.of_nat (length l)).
  assert (Hpos : (inject_Z 0 < inject_Z rpp)%Q) by (rewrite <- Zlt_Qlt; exact Hr).
  change (inject_Z 0) with 0%Q in Hpos.
  assert (Hq : (0 <= inject_Z len / inject_Z rpp)%Q).
  { apply Qle_shift_div_l; [exact Hpos|].
    rewrite Qmult_0_l. change 0%Q with (inject_Z 0).
    rewrite <- Zle_Qle. subst len. lia. }
  split.
  - change 0 with (Qceiling 0). now apply Qceiling_resp_le.
  - pose proof (Qle_ceiling (inject_Z len / inject_Z rpp)) as Hc.
    rewrite Zle_Qle, inject_Z_mult.
    assert (Heq : (inject_Z len / inject_Z rpp * inject_Z rpp == inject_Z len)%Q).
    { field. intros H0. rewrite H0 in Hpos. now apply Qlt_irrefl in Hpos. }
    apply Qle_trans with (inject_Z len / inject_Z rpp * inject_Z rpp)%Q.
    + rewrite Heq. apply Qle_refl.
    + apply Qmult_le_compat_r; [exact Hc | now apply Qlt_le_weak].
Qed.

(** C9. For a positive page size, the pages 1 to [totalPages] put one after
    the other are the processed sequence itself; an empty sequence has zero
    pages and every page of it is empty. *)
Theorem pagination_coverage (processed : list Row) (rowsPerPage : Z) :
  0 < rowsPerPage ->
  concat (List.map (fun page => paginatedData processed page rowsPerPage)
            (seqZ 1 (totalPages processed rowsPerPage)))
  = processed
  /\ totalPages [] rowsPerPage = 0
  /\ forall page, paginatedData [] page rowsPerPage = [].
Proof.
  intros Hr.
  destruct (totalPages_covers processed rowsPerPage Hr) as [H0 Hcov].
  split; [|split].
  - rewrite <- (Z2Nat.id (totalPages processed rowsPerPage)) by exact H0.
    rewrite pages_prefix by lia.
    apply take_ge. rewrite Z2Nat.id by exact H0. lia.
  - reflexivity.
  - intros page. unfold paginatedData, slice. rewrite drop_nil. apply take_nil.
Qed.

Lemma pagination_coverage_witness :
  0 < 2 /\
  concat (List.map
            (fun page =>
               paginatedData
                 [mkRow [cell "name" "a"]; mkRow [cell "name" "b"];
                  mkRow [cell "name" "c"]] page 2)
            (seqZ 1 (totalPages
                       [mkRow [cell "name" "a"]; mkRow [cell "name" "b"];
                        mkRow [cell "name" "c"]] 2)))
  = [mkRow [cell "name" "a"]; mkRow [cell "name" "b"]; mkRow [cell "name" "c"]].
Proof.
  split; [lia|].
  apply (pagination_coverage
           [mkRow [cell "name" "a"]; mkRow [cell "name" "b"];
            mkRow [cell "name" "c"]] 2).
  lia.
Defined.

End Pagination.

(** ** Sort state *)

Section SortState.

Context `{Host}.

Lemma validate_sort_state headers data st :
  sortConfig (validateAndApplyFormula headers data st) = sortConfig st
  /\ (formulaSortDir (validateAndApplyFormula headers data st) = formulaSortDir st
      \/ formulaSortDir (validateAndApplyFormula headers data st) = None).
Proof.
  unfold validateAndApplyFormula.
  destruct (trim (formulaInput st)) as [|c f]; [auto|].
  destruct (List.filter _ _); [|auto].
  destruct (detectsDivisionByZero _); [auto|].
  destruct (compileFormula _) as [fn|]; [|auto].
  destruct data as [|row0 data]; [auto|].
  destruct (fn row0) as [v|]; [|auto].
  destruct (isNaN v); auto.
Qed.

Lemma handleSort_sortConfig column st :
  sortConfig (handleSort column st)
  = match sortConfig st with
    | Some prev =>
        if bool_decide (key prev = column) then
          match dir prev with
          | asc => Some {| key := column; dir := desc |}
          | desc => None
          end
        else Some {| key := column; dir := asc |}
    | None => Some {| key := column; dir := asc |}
    end.
Proof. reflexivity. Qed.

Lemma step_oneSortMode e st : oneSortMode st -> oneSortMode (step e st).
Proof.
  unfold oneSortMode. intros Hinv.
  destruct e; cbn [step]; try exact Hinv.
  - right. reflexivity.
  - unfold applyFormulaSort.
    destruct (trim (appliedFormula st)); [exact Hinv | left; reflexivity].
  - right. reflexivity.
  - destruct (validate_sort_state headers data st) as [-> [-> | ->]]; tauto.
  - unfold headersChanged. destruct headers; exact Hinv.
  - left. unfold handleReset. destruct headers; reflexivity.
Qed.

(** C10. In every reachable state at most one sort mode is on. A column
    sort request switches the formula direction off; a formula sort
    request, which the component takes only while a formula is applied,
    sets the direction and clears the column sort, and is ignored while no
    formula is applied. Requests on one column go ascending, descending,
    none; a request on another column starts ascending. *)
Theorem sort_modes_exclusive :
  (forall st, reachable st -> oneSortMode st)
  /\ (forall column st, formulaSortDir (handleSort column st) = None)
  /\ (forall d st,
        trim (appliedFormula st) <> [] ->
        formulaSortDir (applyFormulaSort d st) = Some d
        /\ sortConfig (applyFormulaSort d st) = None)
  /\ (forall d st,
        trim (appliedFormula st) = [] -> applyFormulaSort d st = st)
  /\ (forall column st,
        (forall cfg, sortConfig st = Some cfg -> key cfg <> column) ->
        sortConfig (handleSort column st)
        = Some {| key := column; dir := asc |}
        /\ sortConfig (handleSort column (handleSort column st))
           = Some {| key := column; dir := desc |}
        /\ sortConfig (handleSort column (handleSort column (handleSort column st)))
           = None).
Proof.
  split; [|split; [|split; [|split]]].
  - intros st Hst. induction Hst as [|e st _ IH].
    + left. reflexivity.
    + now apply step_oneSortMode.
  - reflexivity.
  - intros d st Hf. unfold applyFormulaSort.
    destruct (trim (appliedFormula st)); [congruence | split; reflexivity].
  - intros d st Hf. unfold applyFormulaSort. now rewrite Hf.
  - intros column st Hother.
    assert (H1 : sortConfig (handleSort column st)
                 = Some {| key := column; dir := asc |}).
    { rewrite handleSort_sortConfig.
      destruct (sortConfig st) as [cfg|] eqn:Hcfg; [|reflexivity].
      rewrite bool_decide_eq_false_2; [reflexivity | now apply Hother]. }
    assert (H2 : sortConfig (handleSort column (handleSort column st))
                 = Some {| key := column; dir := desc |}).
    { rewrite handleSort_sortConfig, H1. simpl.
      now rewrite bool_decide_eq_true_2. }
    split; [exact H1 | split; [exact H2|]].
    rewrite handleSort_sortConfig, H2. simpl.
    now rewrite bool_decide_eq_true_2.
Qed.

End SortState.

Lemma sort_modes_exclusive_witness :
  let st := step (H := sampleHost) (EvSort (lit "price")) initialState in
  reachable (H := sampleHost) st /\ oneSortMode st.
Proof.
  intros st. subst st. split.
  - apply (reachable_step (H := sampleHost)), reachable_initial.
  - apply (proj1 (sort_modes_exclusive (H := sampleHost))).
    apply (reachable_step (H := sampleHost)), reachable_initial.
Defined.

(** ** Formula rejection *)

Section FormulaRejection.



End FormulaRejection.

(** ** The filter chain *)

Section FilterChain.

Context `{Host}.

Lemma insertBy_elem {A} (cmp : A -> A -> number) (x y : A) (l : list A) :
  y ∈ insertBy cmp x l <-> y = x \/ y ∈ l.
Proof.
  induction l as [|z l IH]; simpl.
  - rewrite list_elem_of_singleton, elem_of_nil. tauto.
  - destruct (sgn (cmp x z)); rewrite ?elem_of_cons, ?IH, ?elem_of_cons; tauto.
Qed.

Lemma sort_elem {A} (cmp : A -> A -> number) (y : A) (l : list A) :
  y ∈ sort cmp l <-> y ∈ l.
Proof.
  unfold sort. induction l as [|x l IH]; simpl; [reflexivity|].
  rewrite insertBy_elem, IH, elem_of_cons. tauto.
Qed.

Lemma sorting_elem (fn : option (Row -> number)) (d : option direction)
    (sc : option SortConfig) (row : Row) (l : list Row) :
  row ∈ sorting fn d sc l <-> row ∈ l.
Proof.
  unfold sorting.
  destruct fn as [f|], d as [d|], sc as [sc|];
    rewrite ?sort_elem; reflexivity.
Qed.

Ltac drop_filters Hx :=
  repeat (apply elem_of_List_filter in Hx; destruct Hx as [Hx _]).

Lemma applyColumnFilter_elem (types : gmap jsstring columnType)
    (l : list Row) (entry : jsstring * option Filter) (row : Row) :
  row ∈ applyColumnFilter types l entry -> row ∈ l.
Proof.
  unfold applyColumnFilter.
  destruct entry as [column [f|]]; [|auto].
  destruct (types !! column) as [[|]|]; destruct f as [v|lo hi|c e];
    try (intros Hx; drop_filters Hx; exact Hx);
    destruct c as [c|], e as [e|]; cbv zeta;
    repeat match goal with
           | |- context [if ?b then _ else _] => destruct b
           | |- context [match containsPatterns ?v with _ => _ end] =>
               destruct (containsPatterns v)
           | |- context [match excludePatterns ?v with _ => _ end] =>
               destruct (excludePatterns v)
           end;
    intros Hx; drop_filters Hx; exact Hx.
Qed.

Lemma columnFilters_elem (types : gmap jsstring columnType)
    (fs : list (jsstring * option Filter)) (l : list Row) (row : Row) :
  row ∈ columnFilters types fs l -> row ∈ l.
Proof.
  unfold columnFilters. revert l.
  induction fs as [|entry fs IH]; intros l; simpl; [auto|].
  intros Hx. apply IH in Hx. now apply applyColumnFilter_elem in Hx.
Qed.

(** C7. With the toggle on, no row of the processed data has a calories
    cell that parses to 100500, whatever the other view parameters are. *)
Theorem sentinel_rows_excluded (data : list Row) (headers : list jsstring)
    (st : ViewState) (row : Row) :
  hideUnknownMacros st = true ->
  row ∈ processedData data headers st ->
  strictEq (parseFloat (row !! lit "calories")) (Num 100500) = false.
Proof.
  intros Hon Hrow. unfold processedData in Hrow.
  destruct data as [|r0 data]; [now apply elem_of_nil in Hrow|].
  apply sorting_elem in Hrow.
  apply columnFilters_elem in Hrow.
  rewrite Hon in Hrow. unfold unknownMacrosFilter in Hrow.
  apply elem_of_List_filter in Hrow. destruct Hrow as [_ Hkeep].
  now apply negb_true_iff in Hkeep.
Qed.

End FilterChain.

Lemma sentinel_rows_excluded_witness :
  let data := [mkRow [cell "name" "soup"; cell "calories" "100500"];
               mkRow [cell "name" "tea"; cell "calories" "2"]] in
  let row := mkRow [cell "name" "tea"; cell "calories" "2"] in
  hideUnknownMacros initialState = true
  /\ processedData (H := sampleHost) data [lit "name"; lit "calories"]
       initialState = [row]
  /\ strictEq (parseFloat (row !! lit "calories")) (Num 100500) = false.
Proof.
  intros data row.
  assert (Hdata : processedData (H := sampleHost) data
                    [lit "name"; lit "calories"] initialState = [row])
    by (vm_compute; reflexivity).
  split; [reflexivity | split; [exact Hdata|]].
  apply (sentinel_rows_excluded (H := sampleHost) data
           [lit "name"; lit "calories"] initialState row).
  - reflexivity.
  - rewrite Hdata. apply list_elem_of_singleton. reflexivity.
Defined.

(** ** The category stage *)

Section CategoryStage.

(** C2, at the empty selection: the stage keeps a row whose path is not
    selected. *)
Lemma category_stage_empty_selection :
  let row := mkRow [cell "name" "nuts"; cell "category" "Snacks"] in
  exposesCategory [lit "name"; lit "category"] = true
  /\ ~ (row ∈ categoryFilter [lit "name"; lit "category"] ∅ [row]
        <-> categoryPath row ∈ (∅ : gset jsstring)).
Proof.
  intros row. split; [vm_compute; reflexivity|].
  intros [Hkeep _].
  assert (Hin : row ∈ categoryFilter [lit "name"; lit "category"] ∅ [row]).
  { apply (bool_decide_eq_true_1 _). vm_compute. reflexivity. }
  apply Hkeep in Hin. now apply not_elem_of_empty in Hin.
Qed.

(** C2, amended. In a dataset that exposes a category column and under a
    Selection Set that is not empty, the stage keeps a row exactly when its
    canonical path is selected; the path of a row whose category is empty
    or missing is the empty string, so such a row is kept exactly when the
    empty path is selected. Under the empty Selection Set the stage keeps
    every row. *)
Theorem category_stage (headers : list jsstring) (selected : gset jsstring)
    (data : list Row) :
  exposesCategory headers = true ->
  (selected <> ∅ ->
     forall row,
       row ∈ categoryFilter headers selected data
       <-> row ∈ data /\ categoryPath row ∈ selected)
  /\ (forall row,
        row !! CATEGORY_COLUMN = None \/ row !! CATEGORY_COLUMN = Some [] ->
        categoryPath row = [])
  /\ (forall row raw,
        row !! CATEGORY_COLUMN = Some raw -> raw <> [] ->
        categoryPath row = join [HASH] (List.map trim (split HASH raw)))
  /\ (selected = ∅ -> categoryFilter headers selected data = data).
Proof.
  intros Hcat. unfold exposesCategory in Hcat.
  split; [|split; [|split]].
  - intros Hne row. unfold categoryFilter. rewrite Hcat. simpl.
    assert (Hsz : (0 <? size selected)%nat = true).
    { apply Nat.ltb_lt.
      assert (size selected <> 0%nat); [|lia].
      intros Hz. apply size_empty_iff in Hz. apply Hne.
      now apply leibniz_equiv. }
    rewrite Hsz, elem_of_List_filter, bool_decide_eq_true. reflexivity.
  - intros row [Hrow | Hrow]; unfold categoryPath; now rewrite Hrow.
  - intros row raw Hrow Hraw. unfold categoryPath. rewrite Hrow. simpl.
    destruct raw; [contradiction | reflexivity].
  - intros ->. unfold categoryFilter. rewrite size_empty.
    now rewrite andb_false_r.
Qed.

Lemma category_stage_witness :
  let sel : gset jsstring := {[lit "Drinks#Tea"]} in
  let tea := mkRow [cell "name" "tea"; cell "category" "Drinks # Tea"] in
  let nuts := mkRow [cell "name" "nuts"; cell "category" "Snacks"] in
  exposesCategory [lit "name"; lit "category"] = true
  /\ sel <> ∅
  /\ (tea ∈ categoryFilter [lit "name"; lit "category"] sel [tea; nuts]
      <-> tea ∈ [tea; nuts] /\ categoryPath tea ∈ sel).
Proof.
  intros sel tea nuts.
  assert (Hcat : exposesCategory [lit "name"; lit "category"] = true)
    by (vm_compute; reflexivity).
  assert (Hne : sel <> ∅).
  { intros Heq. apply (f_equal size) in Heq. vm_compute in Heq. discriminate. }
  split; [exact Hcat | split; [exact Hne|]].
  apply (category_stage [lit "name"; lit "category"] sel [tea; nuts] Hcat).
  exact Hne.
Defined.

End CategoryStage.

(** ** Numeric filters *)

Section NumericFilters.

Context `{Host}.

(** Where every bound that is set is a number other than 0 and NaN, the
    range test is the one the specification words. *)
Lemma range_agrees_on_effective_bounds (column : jsstring)
    (min max : option number) (row : Row) :
  (forall m, min = Some m -> truthy m = true) ->
  (forall m, max = Some m -> truthy m = true) ->
  rangePredicate column min max row
  = specRange min max (parseFloat (row !! column)).
Proof.
  intros Hmin Hmax. unfold rangePredicate, specRange, falsy, boundValue.
  destruct min as [lo|], max as [hi|]; simpl;
    rewrite ?(Hmin lo eq_refl), ?(Hmax hi eq_refl); reflexivity.
Qed.

(** C3, at a lower bound of 0: the filter keeps a row whose cell is below
    the bound, where the bound as the specification words it rejects the
    cell. *)
Theorem range_zero_bound_not_applied :
  let row := mkRow [cell "name" "x"; cell "weight" "-5"] in
  let types := deriveColumnTypes [lit "name"; lit "weight"] in
  types !! lit "weight" = Some TNumber
  /\ columnFilters types
       [(lit "weight", Some (FRange (Some (Num 0)) None))] [row] = [row]
  /\ specRange (Some (Num 0)) None (parseFloat (row !! lit "weight")) = false
  /\ (forall column r, rangePredicate column (Some (Num 0)) None r = true).
Proof.
  intros row types.
  split; [|split; [|split]]; [vm_compute; reflexivity..|].
  intros column r. unfold rangePredicate. reflexivity.
Qed.

(** On a numeric column the equals filter keeps a row exactly when its
    cell parses to a number strictly equal to the filter value; a cell
    that does not parse as a number passes no equals filter, and no range
    filter in which the test of some bound is made. Of the price cells
    10, 10.00 and 10.5 the filter price equals 10 keeps the first two. *)
Theorem numeric_equals_filter (types : gmap jsstring columnType)
    (column : jsstring) :
  types !! column = Some TNumber ->
  (forall value rows row,
      row ∈ columnFilters types [(column, Some (FEquals value))] rows
      <-> row ∈ rows /\ strictEq (parseFloat (row !! column)) value = true)
  /\ (forall value row,
        isNaN (parseFloat (row !! column)) = true ->
        equalsPredicate column value row = false)
  /\ (forall min max row,
        isNaN (parseFloat (row !! column)) = true ->
        (exists m, (min = Some m \/ max = Some m) /\ truthy m = true) ->
        rangePredicate column min max row = false)
  /\ columnFilters (deriveColumnTypes [lit "price"])
       [(lit "price", Some (FEquals (Num 10)))]
       [mkRow [cell "price" "10"]; mkRow [cell "price" "10.00"];
        mkRow [cell "price" "10.5"]]
     = [mkRow [cell "price" "10"]; mkRow [cell "price" "10.00"]].
Proof.
  intros Hty. split; [|split; [|split]].
  - intros value rows row. unfold columnFilters. simpl. rewrite Hty.
    now rewrite elem_of_List_filter.
  - intros value row Hnan. unfold equalsPredicate.
    destruct (parseFloat (row !! column)); [reflexivity | discriminate..].
  - intros min max row Hnan (m & Hm & Ht). unfold rangePredicate.
    destruct (parseFloat (row !! column)); try discriminate.
    destruct Hm as [-> | ->]; unfold falsy, boundValue, ge, le; simpl;
      rewrite Ht; simpl; destruct m; rewrite ?andb_false_r; reflexivity.
  - vm_compute. reflexivity.
Qed.

End NumericFilters.

Lemma numeric_equals_filter_witness :
  let types := deriveColumnTypes [lit "name"; lit "price"] in
  let row := mkRow [cell "name" "x"; cell "price" "n/a"] in
  types !! lit "price" = Some TNumber
  /\ isNaN (parseFloat (row !! lit "price")) = true
  /\ equalsPredicate (lit "price") (Num 10) row = false.
Proof.
  intros types row.
  assert (Hty : types !! lit "price" = Some TNumber) by (vm_compute; reflexivity).
  assert (Hnan : isNaN (parseFloat (row !! lit "price")) = true)
    by (vm_compute; reflexivity).
  split; [exact Hty | split; [exact Hnan|]].
  apply (proj1 (proj2 (numeric_equals_filter (H := sampleHost) types
                         (lit "price") Hty))).
  exact Hnan.
Defined.

(** C8, at the range filter the panel stores when 0 is typed into Min
    and Max was never set, whose max is [parseFloat(null)]: the filter
    keeps a row whose cell does not parse as a number, where the claim
    has such a cell satisfy no numeric filter. Neither bound is tested:
    0 and NaN are falsy. *)
Theorem unparseable_cell_passes_zero_bound :
  let row := mkRow [cell "name" "x"; cell "price" "n/a"] in
  let types := deriveColumnTypes [lit "name"; lit "price"] in
  let max := parseFloat (Some (lit "null")) in
  types !! lit "price" = Some TNumber
  /\ isNaN (parseFloat (row !! lit "price")) = true
  /\ max = NaN
  /\ columnFilters (H := sampleHost) types
       [(lit "price", Some (FRange (Some (Num 0)) (Some max)))] [row] = [row]
  /\ specRange (Some (Num 0)) (Some max) (parseFloat (row !! lit "price"))
     = false
  /\ (forall column r, rangePredicate column (Some (Num 0)) (Some max) r = true).
Proof.
  intros row types max.
  split; [|split; [|split; [|split; [|split]]]]; [vm_compute; reflexivity..|].
  intros column r. unfold rangePredicate. reflexivity.
Qed.

(** ** The quoted references of a formula *)

Section QuotedReferences.

Lemma scan_body (acc body rest : jsstring) :
  DQUOTE ∉ body -> acc ++ body <> [] ->
  scanRefs (Inside acc) (body ++ DQUOTE :: rest)
  = (acc ++ body) :: scanRefs Outside rest
  /\ scanStrip (Inside acc) (body ++ DQUOTE :: rest) = scanStrip Outside rest.
Proof.
  revert acc. induction body as [|c body IH]; intros acc Hq Hne; simpl.
  - rewrite app_nil_r in *. rewrite ?N.eqb_refl.
    destruct acc; [contradiction | now split].
  - apply not_elem_of_cons in Hq. destruct Hq as [Hc Hq].
    destruct (N.eqb_spec c DQUOTE) as [-> | _]; [contradiction|].
    replace (acc ++ c :: body) with ((acc ++ [c]) ++ body)
      by now rewrite <- app_assoc.
    apply IH; [exact Hq|]. rewrite <- app_assoc. simpl.
    now destruct acc.
Qed.

(** The leftmost match: text without quotes, then a quoted body that is
    not empty; the body is captured, the match is cut out, and the scan
    goes on behind it. *)
Lemma quoted_reference_scanned (pre body rest : jsstring) :
  DQUOTE ∉ pre -> DQUOTE ∉ body -> body <> [] ->
  quotedRefs (pre ++ DQUOTE :: body ++ DQUOTE :: rest)
  = body :: quotedRefs rest
  /\ stripQuoted (pre ++ DQUOTE :: body ++ DQUOTE :: rest)
     = pre ++ stripQuoted rest.
Proof.
  unfold quotedRefs, stripQuoted.
  induction pre as [|c pre IH]; intros Hpre Hbody Hne; simpl.
  - rewrite ?N.eqb_refl. now apply (scan_body [] body rest).
  - apply not_elem_of_cons in Hpre. destruct Hpre as [Hc Hpre].
    destruct (N.eqb_spec c DQUOTE) as [-> | _]; [contradiction|].
    destruct (IH Hpre Hbody Hne) as [-> ->]. now split.
Qed.

(** Text without quotes has no reference and is kept whole. *)
Lemma unquoted_text_scanned (s : jsstring) :
  DQUOTE ∉ s -> quotedRefs s = [] /\ stripQuoted s = s.
Proof.
  unfold quotedRefs, stripQuoted.
  induction s as [|c s IH]; intros Hs; simpl; [now split|].
  apply not_elem_of_cons in Hs. destruct Hs as [Hc Hs].
  destruct (N.eqb_spec c DQUOTE) as [-> | _]; [contradiction|].
  destruct (IH Hs) as [-> ->]. now split.
Qed.

End QuotedReferences.

(** ** The division check *)

Section DivisionCheck.

Lemma zeroFollows_spec (s : jsstring) :
  zeroFollows s = true
  <-> exists ws rest,
        s = ws ++ 48%N :: rest
        /\ forallb isWhiteSpace ws = true
        /\ noDigitAhead rest.
Proof.
  induction s as [|c s IH]; simpl.
  - split; [discriminate|]. intros (ws & rest & Hs & _).
    now destruct ws.
  - destruct (isWhiteSpace c) eqn:Hws.
    + rewrite IH. split.
      * intros (ws & rest & -> & Hall & Hd).
        exists (c :: ws), rest. simpl. now rewrite Hws.
      * intros (ws & rest & Hs & Hall & Hd).
        destruct ws as [|w ws]; simpl in Hs; inversion Hs; subst.
        -- vm_compute in Hws. discriminate.
        -- exists ws, rest. simpl in Hall.
           apply andb_true_iff in Hall. tauto.
    + destruct (N.eqb_spec c 48) as [-> | Hne].
      * split.
        -- intros Hd. exists [], s. repeat split.
           destruct s; [exact I | now apply negb_true_iff in Hd].
        -- intros (ws & rest & Hs & Hall & Hd).
           destruct ws as [|w ws]; simpl in Hs; inversion Hs; subst.
           ++ destruct rest; [reflexivity | now apply negb_true_iff].
           ++ simpl in Hall. discriminate.
      * split; [discriminate|].
        intros (ws & rest & Hs & Hall & Hd).
        destruct ws as [|w ws]; simpl in Hs; inversion Hs; subst.
        -- contradiction.
        -- simpl in Hall. apply andb_true_iff in Hall.
           destruct Hall as [Hw _]. congruence.
Qed.

(** The test is the pattern: somewhere a solidus, white space, the digit
    zero, and then no digit. *)
Lemma divisionByZeroTest_spec (s : jsstring) :
  divisionByZeroTest s = true
  <-> exists pre ws rest,
        s = pre ++ SLASH :: ws ++ 48%N :: rest
        /\ forallb isWhiteSpace ws = true
        /\ noDigitAhead rest.
Proof.
  induction s as [|c s IH]; simpl.
  - split; [discriminate|]. intros (pre & ws & rest & Hs & _).
    now destruct pre.
  - rewrite orb_true_iff, andb_true_iff, IH, zeroFollows_spec. split.
    + intros [[Hc (ws & rest & -> & Hall & Hd)] | (pre & ws & rest & -> & Hall & Hd)].
      * apply N.eqb_eq in Hc. subst c. now exists [], ws, rest.
      * now exists (c :: pre), ws, rest.
    + intros (pre & ws & rest & Hs & Hall & Hd).
      destruct pre as [|p pre]; simpl in Hs; inversion Hs; subst.
      * left. split; [apply N.eqb_refl | now exists ws, rest].
      * right. now exists pre, ws, rest.
Qed.

(** C5, at a divisor 0.5: the check rejects the formula, as it rejects a
    division by the constant 0, while a division by a quoted reference
    passes. *)
Theorem division_by_half_rejected :
  detectsDivisionByZero (quoted "x" ++ lit "/0.5") = true
  /\ detectsDivisionByZero (quoted "x" ++ lit "/0") = true
  /\ detectsDivisionByZero (quoted "x" ++ lit "/" ++ quoted "y") = false
  /\ detectsDivisionByZero (quoted "x" ++ lit "/2") = false.
Proof. repeat split; vm_compute; reflexivity. Qed.

End DivisionCheck.

(** ** The formula order *)

Section FormulaOrder.

(** C1, at an infinite result: the row whose formula value is Infinity is
    ordered above a row with a finite value, last in ascending and first in
    descending order, where the order the claim describes puts it below. *)
Lemma infinite_result_orders_highest :
  let fn := ratio (lit "a") (lit "b") in
  let rInf := mkRow [cell "a" "5"; cell "b" ""] in
  let rOne := mkRow [cell "a" "1"; cell "b" "1"] in
  fn rInf = PosInf
  /\ fn rOne = Num 1
  /\ sgn (formulaCompare fn asc rInf rOne) = Gt
  /\ sgn (specFormulaCompare fn asc rInf rOne) = Lt
  /\ sort (formulaCompare fn asc) [rInf; rOne] = [rOne; rInf]
  /\ sort (formulaCompare fn desc) [rOne; rInf] = [rInf; rOne]
  /\ ~ (forall d, sgn (formulaCompare fn d rInf rOne)
                  = sgn (specFormulaCompare fn d rInf rOne)).
Proof.
  intros fn rInf rOne.
  repeat split; try (vm_compute; reflexivity).
  intros Hall. specialize (Hall asc). vm_compute in Hall. discriminate.
Qed.

(** C1, amended. Under a formula sort a NaN result counts as negative
    infinity, for every pair of rows: the comparator gives what it gives
    when every NaN result is replaced by negative infinity. So a row
    whose result is NaN or negative infinity is ordered below every row
    with a finite result or Infinity, first in ascending and last in
    descending order, and level with every row whose result is NaN or
    negative infinity. An infinite result keeps its value: Infinity is
    ordered above every row with a finite, NaN or negative infinite
    result and level with another Infinity. *)
Theorem formula_order_nan_lowest (fn : Row -> number) (a b : Row) :
  (forall d, formulaCompare fn d a b = formulaCompare (formulaKey fn) d a b)
  /\ (isNaN (fn a) = true \/ fn a = NegInf ->
      (isFinite (fn b) = true \/ fn b = PosInf ->
       sgn (formulaCompare fn asc a b) = Lt
       /\ sgn (formulaCompare fn asc b a) = Gt
       /\ sgn (formulaCompare fn desc a b) = Gt
       /\ sgn (formulaCompare fn desc b a) = Lt)
      /\ (isNaN (fn b) = true \/ fn b = NegInf ->
          forall d, sgn (formulaCompare fn d a b) = Eq
                    /\ sgn (formulaCompare fn d b a) = Eq))
  /\ (fn a = PosInf ->
      (isFinite (fn b) = true \/ isNaN (fn b) = true \/ fn b = NegInf ->
       sgn (formulaCompare fn asc a b) = Gt
       /\ sgn (formulaCompare fn asc b a) = Lt
       /\ sgn (formulaCompare fn desc a b) = Lt
       /\ sgn (formulaCompare fn desc b a) = Gt)
      /\ (fn b = PosInf ->
          forall d, sgn (formulaCompare fn d a b) = Eq
                    /\ sgn (formulaCompare fn d b a) = Eq)).
Proof.
  unfold formulaCompare, formulaKey. split; [|split].
  - intros d. destruct (fn a), (fn b); reflexivity.
  - intros Ha. split.
    + intros Hb.
      destruct (fn a); destruct Ha as [Ha | Ha]; try discriminate;
        destruct (fn b); destruct Hb as [Hb | Hb]; try discriminate;
        simpl; auto.
    + intros Hb d.
      destruct (fn a); destruct Ha as [Ha | Ha]; try discriminate;
        destruct (fn b); destruct Hb as [Hb | Hb]; try discriminate;
        destruct d; simpl; auto.
  - intros Ha. rewrite Ha. split.
    + intros Hb.
      destruct (fn b); destruct Hb as [Hb | [Hb | Hb]]; try discriminate;
        simpl; auto.
    + intros Hb d. rewrite Hb. destruct d; simpl; auto.
Qed.

Lemma formula_order_nan_lowest_witness :
  let fn := ratio (lit "a") (lit "b") in
  let rNaN := mkRow [cell "a" "x"; cell "b" ""] in
  let rOne := mkRow [cell "a" "1"; cell "b" "1"] in
  let rInf := mkRow [cell "a" "5"; cell "b" ""] in
  isNaN (fn rNaN) = true
  /\ isFinite (fn rOne) = true
  /\ fn rInf = PosInf
  /\ sgn (formulaCompare fn asc rNaN rOne) = Lt
  /\ sgn (formulaCompare fn asc rNaN rInf) = Lt
  /\ sgn (formulaCompare fn desc rNaN rInf) = Gt.
Proof.
  intros fn rNaN rOne rInf.
  assert (Hnan : isNaN (fn rNaN) = true) by (vm_compute; reflexivity).
  assert (Hfin : isFinite (fn rOne) = true) by (vm_compute; reflexivity).
  assert (Hinf : fn rInf = PosInf) by (vm_compute; reflexivity).
  split; [exact Hnan | split; [exact Hfin | split; [exact Hinf|]]].
  destruct (proj1 (proj1 (proj2 (formula_order_nan_lowest fn rNaN rOne))
                     (or_introl Hnan)) (or_introl Hfin)) as (Hone & _).
  destruct (proj1 (proj1 (proj2 (formula_order_nan_lowest fn rNaN rInf))
                     (or_introl Hnan)) (or_intror Hinf)) as (Hasc & _ & Hdesc & _).
  split; [exact Hone | split; [exact Hasc | exact Hdesc]].
Defined.

End FormulaOrder.

(** ** Strings split at the delimiter *)

Section Segments.

Lemma startsWith_spec (p s : jsstring) :
  startsWith p s = true <-> exists r, s = p ++ r.
Proof.
  revert s. induction p as [|a p IH]; intros s; simpl.
  - split; [eauto | reflexivity].
  - destruct s as [|b s].
    + split; [discriminate | intros [r Hr]; discriminate].
    + rewrite andb_true_iff, IH, N.eqb_eq. split.
      * intros [-> [r ->]]. now exists r.
      * intros [r Hr]. inversion Hr. eauto.
Qed.

Lemma split_not_nil (sep : N) (s : jsstring) : split sep s <> [].
Proof.
  destruct s as [|c s]; simpl; [discriminate|].
  destruct (c =? sep)%N; [discriminate|].
  destruct (split sep s); discriminate.
Qed.

Lemma split_app_sep (sep : N) (a r : jsstring) :
  split sep (a ++ sep :: r) = split sep a ++ split sep r.
Proof.
  induction a as [|c a IH]; simpl.
  - now rewrite N.eqb_refl.
  - destruct (c =? sep)%N; rewrite IH; [reflexivity|].
    pose proof (split_not_nil sep a) as Hne.
    destruct (split sep a); [contradiction | reflexivity].
Qed.

Lemma join_split (sep : N) (s : jsstring) : join [sep] (split sep s) = s.
Proof.
  induction s as [|c s IH]; simpl; [reflexivity|].
  pose proof (split_not_nil sep s) as Hne.
  destruct (N.eqb_spec c sep) as [-> | _].
  - destruct (split sep s); [contradiction|]. simpl in *. now rewrite IH.
  - destruct (split sep s) as [|p ps]; [contradiction|].
    destruct ps; simpl in *; now rewrite <- IH.
Qed.

(** A prefix that ends before a delimiter is the join of the first
    segments. *)
Lemma prefix_is_join_of_segments (a r : jsstring) :
  let parts := split HASH (a ++ HASH :: r) in
  let i := length (split HASH a) in
  (1 <= i <= length parts - 1)%nat /\ join [HASH] (take i parts) = a.
Proof.
  simpl. rewrite split_app_sep, length_app.
  pose proof (split_not_nil HASH a) as Ha.
  pose proof (split_not_nil HASH r) as Hr.
  destruct (split HASH a) as [|x xs] eqn:Ea; [contradiction|].
  destruct (split HASH r) as [|y ys] eqn:Er; [contradiction|].
  split; [simpl; lia|].
  rewrite take_app_length. rewrite <- Ea. apply join_split.
Qed.

(** Two names without delimiter that open the same text up to a delimiter
    or the end are the same name. *)
Lemma segment_unique (a b x y : jsstring) :
  HASH ∉ a -> HASH ∉ b ->
  a ++ HASH :: x = b ++ y ->
  y = [] \/ (exists y', y = HASH :: y') ->
  a = b.
Proof.
  revert b. induction a as [|c a IH]; intros b Ha Hb Heq Hy.
  - destruct b as [|c' b]; [reflexivity|].
    simpl in Heq. inversion Heq; subst.
    exfalso. apply Hb. left.
  - destruct b as [|c' b]; simpl in Heq.
    + destruct Hy as [-> | [y' ->]]; [discriminate|].
      inversion Heq; subst. exfalso. apply Ha. left.
    + inversion Heq; subst. f_equal.
      apply IH; [| | assumption..].
      * intros Hin. apply Ha. now right.
      * intros Hin. apply Hb. now right.
Qed.

End Segments.

(** ** Folds over the selection *)

Section SelectionFolds.

Lemma foldl_add_elem (x : jsstring) (l : list jsstring) (s0 : gset jsstring) :
  x ∈ foldl (fun newSel d => {[d]} ∪ newSel) s0 l <-> x ∈ s0 \/ x ∈ l.
Proof.
  revert s0. induction l as [|d l IH]; intros s0; simpl.
  - rewrite elem_of_nil. tauto.
  - rewrite IH, elem_of_union, elem_of_singleton, elem_of_cons. tauto.
Qed.

Lemma foldl_add_image_elem {A} (f : A -> jsstring) (x : jsstring)
    (l : list A) (s0 : gset jsstring) :
  x ∈ foldl (fun newSel i => {[f i]} ∪ newSel) s0 l
  <-> x ∈ s0 \/ exists i, i ∈ l /\ x = f i.
Proof.
  revert s0. induction l as [|d l IH]; intros s0; simpl.
  - split; [tauto|]. intros [Hx | (i & Hi & _)]; [exact Hx|].
    now apply elem_of_nil in Hi.
  - rewrite IH, elem_of_union, elem_of_singleton. split.
    + intros [[-> | Hx] | (i & Hi & ->)].
      * right. exists d. split; [left | reflexivity].
      * now left.
      * right. exists i. split; [now right | reflexivity].
    + intros [Hx | (i & Hi & ->)]; [tauto|].
      apply elem_of_cons in Hi. destruct Hi as [-> | Hi]; [tauto|].
      right. now exists i.
Qed.

Lemma foldl_delete_elem (x : jsstring) (l : list jsstring)
    (s0 : gset jsstring) :
  x ∈ foldl (fun newSel d => newSel ∖ {[d]}) s0 l <-> x ∈ s0 /\ x ∉ l.
Proof.
  revert s0. induction l as [|d l IH]; intros s0; simpl.
  - rewrite elem_of_nil. tauto.
  - rewrite IH, elem_of_difference, elem_of_singleton, not_elem_of_cons. tauto.
Qed.

Lemma cascades_filter (tree : list CategoryNode) (path x : jsstring) :
  x ∈ List.filter
        (fun p => bool_decide (p = path) || startsWith (path ++ [HASH]) p)
        (collectPaths tree)
  <-> cascades tree path x.
Proof.
  unfold cascades.
  rewrite elem_of_List_filter, orb_true_iff, bool_decide_eq_true. tauto.
Qed.

Lemma togglePath_selected (tree : list CategoryNode)
    (selected : gset jsstring) (path x : jsstring) :
  path ∈ selected ->
  x ∈ togglePath tree selected path
  <-> x ∈ selected /\ ~ cascades tree path x.
Proof.
  intros Hsel. unfold togglePath.
  rewrite (bool_decide_eq_true_2 _ Hsel).
  now rewrite foldl_delete_elem, cascades_filter.
Qed.

Lemma togglePath_unselected (tree : list CategoryNode)
    (selected : gset jsstring) (path x : jsstring) :
  path ∉ selected ->
  x ∈ togglePath tree selected path
  <-> x ∈ selected
      \/ cascades tree path x
      \/ exists i, (1 <= i <= length (split HASH path) - 1)%nat
                   /\ x = join [HASH] (take i (split HASH path)).
Proof.
  intros Hsel. unfold togglePath.
  rewrite (bool_decide_eq_false_2 _ Hsel).
  rewrite foldl_add_image_elem, foldl_add_elem, cascades_filter.
  split.
  - intros [[Hx | Hx] | (i & Hi & ->)]; [tauto | tauto |].
    right. right. exists i. split; [|reflexivity].
    apply elem_of_seq in Hi. lia.
  - intros [Hx | [Hx | (i & Hi & ->)]]; [tauto | tauto |].
    right. exists i. split; [|reflexivity].
    apply elem_of_seq. lia.
Qed.

End SelectionFolds.

(** ** The category tree *)

Section Tree.

Lemma CategoryNode_forall_ind (P : CategoryNode -> Prop) :
  (forall nm p cs, Forall P cs -> P (mkNode nm p cs)) ->
  forall node, P node.
Proof.
  intros Hnode. fix IH 1. intros [nm p cs]. apply Hnode.
  induction cs as [|c cs IHcs]; constructor; [apply IH | exact IHcs].
Qed.

Lemma elem_of_flat_map {A B} (f : A -> list B) (l : list A) (y : B) :
  y ∈ List.flat_map f l <-> exists x, x ∈ l /\ y ∈ f x.
Proof.
  rewrite list_elem_of_In, in_flat_map. split.
  - intros (x & Hx & Hy). exists x. now rewrite !list_elem_of_In.
  - intros (x & Hx & Hy). exists x. now rewrite <- !list_elem_of_In.
Qed.

Lemma subnodes_unfold (node m : CategoryNode) :
  m ∈ subnodes node <-> m = node \/ m ∈ descendants node.
Proof. destruct node as [nm p cs]. simpl. apply elem_of_cons. Qed.

Lemma dfs_subnodes (node : CategoryNode) :
  dfs node = List.map path (subnodes node).
Proof.
  induction node as [nm p cs IH] using CategoryNode_forall_ind. simpl. f_equal.
  induction IH as [|c cs Hc _ IHcs]; simpl; [reflexivity|].
  now rewrite List.map_app, Hc, IHcs.
Qed.

Lemma collectPaths_allNodes (tree : list CategoryNode) :
  collectPaths tree = List.map path (allNodes tree).
Proof.
  unfold collectPaths, allNodes.
  induction tree as [|c tree IH]; simpl; [reflexivity|].
  now rewrite List.map_app, dfs_subnodes, IH.
Qed.

Lemma node_path_collected (tree : list CategoryNode) (n : CategoryNode) :
  n ∈ allNodes tree -> path n ∈ collectPaths tree.
Proof.
  intros Hn. rewrite collectPaths_allNodes.
  apply list_elem_of_In, in_map, list_elem_of_In, Hn.
Qed.

Lemma wfNode_unfold (pre nm p : jsstring) (cs : list CategoryNode) :
  wfNode pre (mkNode nm p cs) = true ->
  p = pre ++ nm /\ (HASH ∉ nm) /\ NoDup (List.map name cs)
  /\ Forall (fun c => wfNode (p ++ [HASH]) c = true) cs.
Proof.
  simpl. rewrite !andb_true_iff, negb_true_iff.
  rewrite !bool_decide_eq_true, bool_decide_eq_false.
  intros [[[Hp Hnm] Hnd] Hcs]. repeat split; try assumption.
  apply Forall_forall. intros c Hc.
  rewrite forallb_forall in Hcs. apply Hcs. now apply list_elem_of_In.
Qed.

(** Below a node every path is the node's path, the delimiter, and more. *)
Lemma descendant_path (n : CategoryNode) :
  forall pre d,
    wfNode pre n = true -> d ∈ descendants n ->
    exists r, path d = path n ++ HASH :: r.
Proof.
  induction n as [nm p cs IH] using CategoryNode_forall_ind.
  intros pre d Hwf Hd.
  apply wfNode_unfold in Hwf. destruct Hwf as (_ & _ & _ & Hcs).
  unfold descendants in Hd. simpl in Hd.
  apply elem_of_flat_map in Hd. destruct Hd as (c & Hc & Hd).
  rewrite Forall_forall in IH, Hcs.
  specialize (IH c Hc). specialize (Hcs c Hc). simpl.
  assert (Hpc : path c = (p ++ [HASH]) ++ name c).
  { destruct c as [cn cp ccs]. apply wfNode_unfold in Hcs. tauto. }
  apply subnodes_unfold in Hd. destruct Hd as [-> | Hd].
  - exists (name c). rewrite Hpc, <- app_assoc. reflexivity.
  - destruct (IH _ _ Hcs Hd) as [r Hr].
    exists (name c ++ HASH :: r). rewrite Hr, Hpc, <- !app_assoc. reflexivity.
Qed.

(** Inside the subtree of [c] every path opens with the name of [c] after
    the prefix, up to a delimiter or the end. *)
Lemma subnode_path (pre : jsstring) (c n : CategoryNode) :
  wfNode pre c = true -> n ∈ subnodes c ->
  exists t, path n = pre ++ name c ++ t
            /\ (t = [] \/ exists t', t = HASH :: t').
Proof.
  intros Hwf Hn.
  assert (Hpc : path c = pre ++ name c).
  { destruct c as [cn cp ccs]. apply wfNode_unfold in Hwf. tauto. }
  apply subnodes_unfold in Hn. destruct Hn as [-> | Hn].
  - exists []. rewrite app_nil_r. auto.
  - destruct (descendant_path c pre n Hwf Hn) as [r Hr].
    exists (HASH :: r). rewrite Hr, Hpc, <- app_assoc. eauto.
Qed.

Lemma subnode_wf (c : CategoryNode) :
  forall pre n,
    wfNode pre c = true -> n ∈ subnodes c -> exists pre', wfNode pre' n = true.
Proof.
  induction c as [nm p cs IH] using CategoryNode_forall_ind.
  intros pre n Hwf Hn.
  apply subnodes_unfold in Hn. destruct Hn as [-> | Hn]; [eauto|].
  apply wfNode_unfold in Hwf. destruct Hwf as (_ & _ & _ & Hcs).
  unfold descendants in Hn. simpl in Hn.
  apply elem_of_flat_map in Hn. destruct Hn as (c & Hc & Hn).
  rewrite Forall_forall in IH, Hcs. eauto.
Qed.

Lemma descendants_trans (r : CategoryNode) :
  forall n d, n ∈ subnodes r -> d ∈ descendants n -> d ∈ descendants r.
Proof.
  induction r as [nm p cs IH] using CategoryNode_forall_ind.
  intros n d Hn Hd.
  apply subnodes_unfold in Hn. destruct Hn as [-> | Hn]; [exact Hd|].
  unfold descendants in Hn |- *. simpl in Hn |- *.
  apply elem_of_flat_map in Hn. destruct Hn as (c & Hc & Hn).
  apply elem_of_flat_map. exists c. split; [exact Hc|].
  apply subnodes_unfold. right.
  rewrite Forall_forall in IH. eauto.
Qed.

Lemma wfForest_unfold (tree : list CategoryNode) :
  wfForest tree = true ->
  NoDup (List.map name tree) /\ Forall (fun c => wfNode [] c = true) tree.
Proof.
  unfold wfForest. rewrite andb_true_iff, bool_decide_eq_true.
  intros [Hnd Hcs]. split; [exact Hnd|].
  apply Forall_forall. intros c Hc.
  rewrite forallb_forall in Hcs. apply Hcs. now apply list_elem_of_In.
Qed.

Lemma forest_node_wf (tree : list CategoryNode) (n : CategoryNode) :
  wfForest tree = true -> n ∈ allNodes tree ->
  exists pre, wfNode pre n = true.
Proof.
  intros Hwf Hn. apply wfForest_unfold in Hwf. destruct Hwf as [_ Hcs].
  apply elem_of_flat_map in Hn. destruct Hn as (c & Hc & Hn).
  rewrite Forall_forall in Hcs. eapply subnode_wf; eauto.
Qed.

Lemma forest_descendant (tree : list CategoryNode) (n d : CategoryNode) :
  n ∈ allNodes tree -> d ∈ descendants n -> d ∈ allNodes tree.
Proof.
  intros Hn Hd. apply elem_of_flat_map in Hn. destruct Hn as (c & Hc & Hn).
  apply elem_of_flat_map. exists c. split; [exact Hc|].
  apply subnodes_unfold. right. eapply descendants_trans; eauto.
Qed.

Lemma NoDup_name_inj (l : list CategoryNode) (x y : CategoryNode) :
  NoDup (List.map name l) -> x ∈ l -> y ∈ l -> name x = name y -> x = y.
Proof.
  induction l as [|z l IH]; simpl; intros Hnd Hx Hy Heq.
  - now apply elem_of_nil in Hx.
  - apply NoDup_cons in Hnd. destruct Hnd as [Hz Hnd].
    apply elem_of_cons in Hx. apply elem_of_cons in Hy.
    destruct Hx as [-> | Hx], Hy as [-> | Hy]; [reflexivity | | |auto].
    + exfalso. apply Hz. rewrite Heq.
      apply list_elem_of_In, in_map, list_elem_of_In, Hy.
    + exfalso. apply Hz. rewrite <- Heq.
      apply list_elem_of_In, in_map, list_elem_of_In, Hx.
Qed.

Lemma not_own_extension (p r : jsstring) : p <> (p ++ HASH :: r).
Proof.
  intros Heq. apply (f_equal (@length N)) in Heq.
  rewrite length_app in Heq. simpl in Heq. lia.
Qed.

Lemma forest_separated (pre : jsstring) (forest : list CategoryNode)
    (n m : CategoryNode) :
  NoDup (List.map name forest) ->
  Forall (fun c => wfNode pre c = true) forest ->
  Forall separated forest ->
  n ∈ allNodes forest -> m ∈ allNodes forest ->
  startsWith (path n ++ [HASH]) (path m) = true ->
  m ∈ descendants n.
Proof.
  intros Hnd Hwf Hsep Hn Hm Hstart.
  apply elem_of_flat_map in Hn. destruct Hn as (c & Hc & Hn).
  apply elem_of_flat_map in Hm. destruct Hm as (c' & Hc' & Hm).
  rewrite Forall_forall in Hwf, Hsep.
  destruct (subnode_path pre c n (Hwf c Hc) Hn) as (tn & Hpn & Htn).
  destruct (subnode_path pre c' m (Hwf c' Hc') Hm) as (tm & Hpm & Htm).
  pose proof Hstart as Hext.
  apply startsWith_spec in Hext. destruct Hext as [r Hr].
  assert (Hnames : name c = name c').
  { assert (Hc1 : HASH ∉ name c).
    { specialize (Hwf c Hc). destruct c. apply wfNode_unfold in Hwf. tauto. }
    assert (Hc2 : HASH ∉ name c').
    { specialize (Hwf c' Hc'). destruct c'. apply wfNode_unfold in Hwf. tauto. }
    rewrite Hpn, Hpm, <- !app_assoc in Hr. apply app_inv_head in Hr.
    destruct Htn as [-> | [t' ->]]; simpl in Hr.
    - symmetry in Hr. eapply segment_unique; eauto.
    - change (HASH :: t' ++ HASH :: r) with (HASH :: (t' ++ HASH :: r)) in Hr.
      symmetry in Hr. eapply segment_unique; eauto. }
  assert (c = c') by (eapply NoDup_name_inj; eauto). subst c'.
  exact (Hsep c Hc pre n m (Hwf c Hc) Hn Hm Hstart).
Qed.

Lemma subtree_separated (r : CategoryNode) : separated r.
Proof.
  induction r as [nm p cs IH] using CategoryNode_forall_ind.
  intros pre n m Hwf Hn Hm Hstart.
  pose proof Hwf as Hparts. apply wfNode_unfold in Hparts.
  destruct Hparts as (Hp & Hnm & Hnd & Hcs).
  apply startsWith_spec in Hstart as Hext. destruct Hext as [x Hx].
  rewrite <- app_assoc in Hx. simpl in Hx.
  apply subnodes_unfold in Hn. apply subnodes_unfold in Hm.
  destruct Hn as [-> | Hn].
  - destruct Hm as [-> | Hm]; [|exact Hm].
    now apply not_own_extension in Hx.
  - destruct Hm as [-> | Hm].
    + destruct (descendant_path _ pre n Hwf Hn) as [y Hy].
      simpl in Hx, Hy. rewrite Hy, <- app_assoc in Hx. simpl in Hx.
      now apply not_own_extension in Hx.
    + unfold descendants in Hn, Hm. simpl in Hn, Hm.
      exact (forest_separated (p ++ [HASH]) cs n m Hnd Hcs IH Hn Hm Hstart).
Qed.

Lemma tree_separated (tree : list CategoryNode) (n m : CategoryNode) :
  wfForest tree = true ->
  n ∈ allNodes tree -> m ∈ allNodes tree ->
  startsWith (path n ++ [HASH]) (path m) = true ->
  m ∈ descendants n.
Proof.
  intros Hwf. apply wfForest_unfold in Hwf. destruct Hwf as [Hnd Hcs].
  apply (forest_separated [] tree n m Hnd Hcs).
  apply Forall_forall. intros c _. apply subtree_separated.
Qed.

(** C4. In a category tree, toggling the path of a node that is not
    selected gives a Selection Set that holds the path, the path of every
    node below it, and the path of every node above it. Toggling the path
    of a selected node gives a Selection Set without the path and without
    the path of any node below it; every other path, and so the path of
    every node above it, is in the result exactly when it was selected. *)
Theorem toggle_cascade (tree : list CategoryNode) (selected : gset jsstring)
    (n : CategoryNode) :
  wfForest tree = true ->
  n ∈ allNodes tree ->
  let result := togglePath tree selected (path n) in
  (path n ∉ selected ->
     path n ∈ result
     /\ (forall d, d ∈ descendants n -> path d ∈ result)
     /\ (forall a, a ∈ allNodes tree -> n ∈ descendants a -> path a ∈ result))
  /\ (path n ∈ selected ->
        (path n ∉ result)
        /\ (forall d, d ∈ descendants n -> path d ∉ result)
        /\ (forall q,
              q <> path n ->
              (forall d, d ∈ descendants n -> q <> path d) ->
              (q ∈ result <-> q ∈ selected))
        /\ (forall a,
              a ∈ allNodes tree -> n ∈ descendants a ->
              (path a ∈ result <-> path a ∈ selected))).
Proof.
  intros Hwf Hn result. subst result.
  destruct (forest_node_wf tree n Hwf Hn) as [pre Hwfn].
  assert (Hself : cascades tree (path n) (path n)).
  { split; [now apply node_path_collected | now left]. }
  assert (Hbelow : forall d, d ∈ descendants n -> cascades tree (path n) (path d)).
  { intros d Hd. split.
    - apply node_path_collected. eapply forest_descendant; eauto.
    - right. apply startsWith_spec.
      destruct (descendant_path n pre d Hwfn Hd) as [r ->].
      exists r. now rewrite <- app_assoc. }
  assert (Hframe : forall q,
             q <> path n ->
             (forall d, d ∈ descendants n -> q <> path d) ->
             ~ cascades tree (path n) q).
  { intros q Hq Hnot [Hin [-> | Hstart]]; [now apply Hq|].
    rewrite collectPaths_allNodes in Hin.
    apply list_elem_of_In, in_map_iff in Hin.
    destruct Hin as (m & <- & Hm). apply list_elem_of_In in Hm.
    apply (Hnot m); [|reflexivity].
    now apply (tree_separated tree n m). }
  split.
  - intros Hsel. split; [|split].
    + apply togglePath_unselected; [exact Hsel | tauto].
    + intros d Hd. apply togglePath_unselected; [exact Hsel|].
      right. left. now apply Hbelow.
    + intros a Ha Hna.
      destruct (forest_node_wf tree a Hwf Ha) as [prea Hwfa].
      destruct (descendant_path a prea n Hwfa Hna) as [r Hr].
      apply togglePath_unselected; [exact Hsel|]. right. right.
      exists (length (split HASH (path a))).
      pose proof (prefix_is_join_of_segments (path a) r) as Hjoin.
      simpl in Hjoin. rewrite <- Hr in Hjoin.
      destruct Hjoin as [Hi Hj]. split; [exact Hi | now rewrite Hj].
  - intros Hsel. split; [|split; [|split]].
    + intros Hin. apply togglePath_selected in Hin; [|exact Hsel]. tauto.
    + intros d Hd Hin. apply togglePath_selected in Hin; [|exact Hsel].
      destruct Hin as [_ Hin]. apply Hin. now apply Hbelow.
    + intros q Hq Hnot. rewrite togglePath_selected by exact Hsel.
      specialize (Hframe q Hq Hnot). tauto.
    + intros a Ha Hna. rewrite togglePath_selected by exact Hsel.
      destruct (forest_node_wf tree a Hwf Ha) as [prea Hwfa].
      destruct (descendant_path a prea n Hwfa Hna) as [r Hr].
      assert (Hnc : ~ cascades tree (path n) (path a)).
      { apply Hframe.
        - rewrite Hr. apply not_own_extension.
        - intros d Hd Heq.
          destruct (descendant_path n pre d Hwfn Hd) as [r' Hr'].
          rewrite Hr', Hr, <- app_assoc in Heq. simpl in Heq.
          now apply not_own_extension in Heq. }
      tauto.
Qed.

End Tree.

Lemma toggle_cascade_witness :
  let tea := mkNode (lit "Tea") (lit "Drinks#Tea") [] in
  let coffee := mkNode (lit "Coffee") (lit "Drinks#Coffee") [] in
  let drinks := mkNode (lit "Drinks") (lit "Drinks") [coffee; tea] in
  let snacks := mkNode (lit "Snacks") (lit "Snacks") [] in
  let tree := [drinks; snacks] in
  wfForest tree = true
  /\ drinks ∈ allNodes tree
  /\ path drinks ∈ ({[lit "Drinks"; lit "Drinks#Tea"; lit "Snacks"]} : gset jsstring)
  /\ path tea ∉ togglePath tree {[lit "Drinks"; lit "Drinks#Tea"; lit "Snacks"]}
                  (path drinks).
Proof.
  intros tea coffee drinks snacks tree.
  assert (Hwf : wfForest tree = true) by (vm_compute; reflexivity).
  assert (Hin : drinks ∈ allNodes tree) by left.
  assert (Hsel : path drinks
                 ∈ ({[lit "Drinks"; lit "Drinks#Tea"; lit "Snacks"]}
                    : gset jsstring)).
  { apply (bool_decide_eq_true_1 _). vm_compute. reflexivity. }
  split; [exact Hwf | split; [exact Hin | split; [exact Hsel|]]].
  apply (toggle_cascade tree {[lit "Drinks"; lit "Drinks#Tea"; lit "Snacks"]}
           drinks Hwf Hin).
  - exact Hsel.
  - unfold descendants. simpl. right. left.
Defined.

(** ** The tree of the data is a category tree *)

Section BuildTree.

Lemma wfNode_intro (pre nm p : jsstring) (cs : list CategoryNode) :
  p = pre ++ nm -> HASH ∉ nm -> NoDup (List.map name cs) ->
  Forall (fun c => wfNode (p ++ [HASH]) c = true) cs ->
  wfNode pre (mkNode nm p cs) = true.
Proof.
  intros Hp Hnm Hnd Hcs. simpl.
  rewrite !andb_true_iff, negb_true_iff.
  rewrite !bool_decide_eq_true, bool_decide_eq_false.
  repeat split; try assumption.
  apply forallb_forall. intros c Hc.
  rewrite Forall_forall in Hcs. apply Hcs. now apply list_elem_of_In.
Qed.

Lemma split_no_sep (sep : N) (s : jsstring) :
  Forall (fun p => sep ∉ p) (split sep s).
Proof.
  induction s as [|c s IH]; simpl.
  - constructor; [apply not_elem_of_nil | constructor].
  - destruct (N.eqb_spec c sep) as [-> | Hne].
    + constructor; [apply not_elem_of_nil | exact IH].
    + destruct (split sep s) as [|p ps].
      * constructor; [|constructor].
        intros Hin. apply list_elem_of_singleton in Hin. congruence.
      * inversion IH as [|? ? Hp Hps]; subst.
        constructor; [|exact Hps].
        intros Hin. apply elem_of_cons in Hin.
        destruct Hin as [Heq | Hin]; [congruence | exact (Hp Hin)].
Qed.

Lemma ownProperty_Some (part : jsstring) (nodes : list CategoryNode)
    (node : CategoryNode) :
  ownProperty part nodes = Some node -> node ∈ nodes /\ name node = part.
Proof.
  induction nodes as [|n nodes IH]; simpl; [discriminate|].
  destruct (bool_decide_reflect (name n = part)) as [Heq | _].
  - intros [= <-]. split; [left | exact Heq].
  - intros Hown. destruct (IH Hown). split; [now right | assumption].
Qed.

Lemma ownProperty_None (part : jsstring) (nodes : list CategoryNode) :
  ownProperty part nodes = None -> part ∉ List.map name nodes.
Proof.
  induction nodes as [|n nodes IH]; simpl; [intros _; apply not_elem_of_nil|].
  destruct (bool_decide_reflect (name n = part)) as [Heq | Hne];
    [discriminate|].
  intros Hown. apply not_elem_of_cons. split; [congruence | now apply IH].
Qed.

Lemma defineProperty_perm (node : CategoryNode) (nodes : list CategoryNode) :
  defineProperty node nodes ≡ₚ node :: nodes.
Proof.
  induction nodes as [|n nodes IH]; simpl.
  - now destruct (arrayIndex (name node)).
  - destruct (arrayIndex (name node)) as [i|] eqn:Hi.
    + destruct (arrayIndex (name n)) as [j|]; [|reflexivity].
      destruct (j <? i); [|reflexivity].
      rewrite IH. apply Permutation_swap.
    + change (n :: nodes ++ [node]) with ((n :: nodes) ++ [node]).
      symmetry. apply Permutation_cons_append.
Qed.

Lemma setChildren_names (part : jsstring) (cs nodes : list CategoryNode) :
  List.map name (setChildren part cs nodes) = List.map name nodes.
Proof.
  induction nodes as [|n nodes IH]; simpl; [reflexivity|].
  destruct (bool_decide (name n = part)); simpl; [reflexivity|].
  now rewrite IH.
Qed.

Lemma setChildren_Forall (P : CategoryNode -> Prop) (part : jsstring)
    (cs nodes : list CategoryNode) (node : CategoryNode) :
  ownProperty part nodes = Some node ->
  Forall P nodes ->
  P (mkNode (name node) (path node) cs) ->
  Forall P (setChildren part cs nodes).
Proof.
  induction nodes as [|n nodes IH]; simpl; [discriminate|].
  intros Hown Hall Hnew. inversion Hall as [|? ? Hn Hnodes]; subst.
  destruct (bool_decide (name n = part)).
  - injection Hown as <-. now constructor.
  - constructor; [exact Hn | now apply IH].
Qed.

Lemma walkParts_wf (parts : list jsstring) :
  forall pre current result,
    walkParts pre parts current = Some result ->
    Forall (fun p => HASH ∉ p) parts ->
    NoDup (List.map name current) ->
    Forall (fun c => wfNode pre c = true) current ->
    NoDup (List.map name result)
    /\ Forall (fun c => wfNode pre c = true) result.
Proof.
  induction parts as [|part rest IH];
    intros pre current result Hwalk Hparts Hnd Hwf; simpl in Hwalk.
  - injection Hwalk as <-. now split.
  - inversion Hparts as [|? ? Hpart Hrest]; subst.
    assert (Hpre : (pre ++ part) ++ [HASH] = pre ++ part ++ [HASH])
      by now rewrite <- app_assoc.
    unfold getProperty in Hwalk.
    destruct (ownProperty part current) as [node|] eqn:Hown.
    + destruct (walkParts _ rest (children node)) as [cs|] eqn:Hcs;
        [|discriminate].
      injection Hwalk as <-.
      destruct (ownProperty_Some _ _ _ Hown) as [Hin Hname].
      rewrite Forall_forall in Hwf. pose proof (Hwf node Hin) as Hnode.
      destruct node as [nm p ccs]. simpl in *. subst nm.
      apply wfNode_unfold in Hnode. destruct Hnode as (Hp & Hnm & Hcnd & Hccs).
      destruct (IH _ _ _ Hcs Hrest Hcnd) as [Hnd' Hwf'].
      { now rewrite <- Hpre, <- Hp. }
      split; [now rewrite setChildren_names|].
      apply (setChildren_Forall _ _ _ _ _ Hown);
        [now apply Forall_forall|].
      simpl. apply wfNode_intro; try assumption. now rewrite Hp, Hpre.
    + destruct (includesStr OBJECT_PROTOTYPE_KEYS part).
      * destruct rest; [|discriminate]. injection Hwalk as <-.
        split; [assumption | assumption].
      * destruct (walkParts _ rest []) as [cs|] eqn:Hcs; [|discriminate].
        injection Hwalk as <-.
        destruct (IH _ _ _ Hcs Hrest) as [Hnd' Hwf']; [constructor..|].
        pose proof (defineProperty_perm (mkNode part (pre ++ part) cs) current)
          as Hperm.
        split.
        -- rewrite (fmap_Permutation name _ _ Hperm). simpl.
           apply NoDup_cons. split; [now apply ownProperty_None | assumption].
        -- rewrite Hperm. constructor; [|assumption].
           apply wfNode_intro; try assumption; [reflexivity|].
           now rewrite Hpre.
Qed.

Lemma addRow_wf (acc : option (list CategoryNode * list jsstring))
    (row : Row) (root' : list CategoryNode) (paths' : list jsstring) :
  addRow acc row = Some (root', paths') ->
  exists root paths,
    acc = Some (root, paths)
    /\ (NoDup (List.map name root) ->
        Forall (fun c => wfNode [] c = true) root ->
        NoDup (List.map name root')
        /\ Forall (fun c => wfNode [] c = true) root').
Proof.
  destruct acc as [[root paths]|]; simpl; [|discriminate].
  intros Hadd. exists root, paths. split; [reflexivity|]. intros Hnd Hwf.
  destruct (default [] (row !! CATEGORY_COLUMN)) as [|c raw].
  - injection Hadd as <- <-. now split.
  - destruct (walkParts [] _ root) as [r|] eqn:Hwalk; [|discriminate].
    injection Hadd as <- <-.
    exact (walkParts_wf _ _ _ _ Hwalk (split_no_sep _ _) Hnd Hwf).
Qed.

Lemma foldl_addRow_wf (data : list Row) :
  forall root paths root' paths',
    foldl addRow (Some (root, paths)) data = Some (root', paths') ->
    NoDup (List.map name root) ->
    Forall (fun c => wfNode [] c = true) root ->
    NoDup (List.map name root')
    /\ Forall (fun c => wfNode [] c = true) root'.
Proof.
  induction data as [|row data IH] using rev_ind;
    intros root paths root' paths' Hfold Hnd Hwf.
  - simpl in Hfold. injection Hfold as <- <-. now split.
  - rewrite foldl_app in Hfold. simpl in Hfold.
    destruct (addRow_wf _ _ _ _ Hfold) as (r & ps & Hacc & Hstep).
    destruct (IH _ _ _ _ Hacc Hnd Hwf) as [Hnd' Hwf'].
    now apply Hstep.
Qed.

(** The forest [buildTree] makes of any rows, when it returns, has the
    invariant of the category tree. *)
Lemma buildTree_wf (data : list Row) (tree : list CategoryNode)
    (allPaths : list jsstring) :
  buildTree data = Some (tree, allPaths) -> wfForest tree = true.
Proof.
  intros Hbuild.
  destruct (foldl_addRow_wf data [] [] tree allPaths Hbuild)
    as [Hnd Hwf]; [constructor | constructor |].
  unfold wfForest. apply andb_true_iff. split.
  - now apply bool_decide_eq_true.
  - apply forallb_forall. intros c Hc.
    rewrite Forall_forall in Hwf. apply Hwf. now apply list_elem_of_In.
Qed.

End BuildTree.

(** ** The pipeline only selects and reorders *)

Section Pipeline.

Context `{Host}.

Lemma List_filter_filter {A} (f g : A -> bool) (l : list A) :
  List.filter f (List.filter g l) = List.filter (fun x => g x && f x) l.
Proof.
  induction l as [|x l IH]; simpl; [reflexivity|].
  destruct (g x); simpl; [|exact IH].
  destruct (f x); now rewrite IH.
Qed.

Lemma List_filter_true {A} (l : list A) : List.filter (fun _ => true) l = l.
Proof. induction l as [|x l IH]; simpl; now rewrite ?IH. Qed.

Lemma List_filter_sublist {A} (f : A -> bool) (l : list A) :
  List.filter f l `sublist_of` l.
Proof.
  induction l as [|x l IH]; simpl; [constructor|].
  destruct (f x); now constructor.
Qed.

Lemma applyColumnFilter_filter (types : gmap jsstring columnType)
    (l : list Row) (entry : jsstring * option Filter) :
  applyColumnFilter types l entry = List.filter (entryTest types entry) l.
Proof.
  unfold applyColumnFilter, entryTest.
  destruct entry as [column [f|]]; simpl; [|now rewrite List_filter_true].
  destruct (types !! column) as [[|]|]; destruct f as [v|lo hi|c e];
    try reflexivity; try (now rewrite List_filter_true);
    unfold containsTest, excludeTest;
    destruct c as [c|], e as [e|]; cbv zeta;
    repeat match goal with
           | |- context [givenPatterns ?v] => destruct (givenPatterns v)
           | |- context [containsPatterns ?v] =>
               destruct (containsPatterns v)
           | |- context [excludePatterns ?v] =>
               destruct (excludePatterns v)
           end;
    rewrite ?List_filter_filter;
    try (now rewrite List_filter_true);
    apply filter_ext; intros row; simpl; now rewrite ?andb_true_r.
Qed.

Lemma columnFilters_conjunction (types : gmap jsstring columnType)
    (fs : list (jsstring * option Filter)) (l : list Row) :
  columnFilters types fs l
  = List.filter (fun row => forallb (fun e => entryTest types e row) fs) l.
Proof.
  unfold columnFilters. revert l.
  induction fs as [|e fs IH]; intros l; simpl.
  - now rewrite List_filter_true.
  - now rewrite IH, applyColumnFilter_filter, List_filter_filter.
Qed.

(** X1. The column filters act as one conjunction: a row stays exactly when
    it is in the input and passes the test of every entry, so the order
    of the entries does not matter and one more entry can only remove
    rows. *)
Theorem column_filters_combine (types : gmap jsstring columnType)
    (fs gs : list (jsstring * option Filter)) (e : jsstring * option Filter)
    (l : list Row) :
  (forall row,
      row ∈ columnFilters types fs l
      <-> row ∈ l /\ forall e', e' ∈ fs -> entryTest types e' row = true)
  /\ (fs ≡ₚ gs -> columnFilters types fs l = columnFilters types gs l)
  /\ columnFilters types (fs ++ [e]) l `sublist_of` columnFilters types fs l.
Proof.
  split; [|split].
  - intros row. rewrite columnFilters_conjunction, elem_of_List_filter.
    rewrite forallb_forall. setoid_rewrite <- list_elem_of_In. reflexivity.
  - intros Hperm. rewrite !columnFilters_conjunction.
    apply filter_ext. intros row.
    apply eq_true_iff_eq. rewrite !forallb_forall.
    setoid_rewrite <- list_elem_of_In. now setoid_rewrite Hperm.
  - unfold columnFilters. rewrite foldl_app. simpl.
    rewrite applyColumnFilter_filter. apply List_filter_sublist.
Qed.

Lemma insertBy_perm {A} (cmp : A -> A -> number) (x : A) (l : list A) :
  insertBy cmp x l ≡ₚ x :: l.
Proof.
  induction l as [|y l IH]; simpl; [reflexivity|].
  destruct (sgn (cmp x y)); try reflexivity.
  rewrite IH. apply Permutation_swap.
Qed.

Lemma sort_perm {A} (cmp : A -> A -> number) (l : list A) : sort cmp l ≡ₚ l.
Proof.
  unfold sort. induction l as [|x l IH]; simpl; [reflexivity|].
  now rewrite insertBy_perm, IH.
Qed.

Lemma stages_sublist (data : list Row) (headers : list jsstring)
    (st : ViewState) :
  columnFilters (columnTypes st) (filters st)
    (unknownMacrosFilter (hideUnknownMacros st)
       (searchFilter (searchQuery st) (visibleColumns st)
          (categoryFilter headers (selectedCategories st) data)))
  `sublist_of` data.
Proof.
  rewrite columnFilters_conjunction.
  etransitivity; [apply List_filter_sublist|].
  etransitivity.
  { unfold unknownMacrosFilter. destruct (hideUnknownMacros st);
      [apply List_filter_sublist | reflexivity]. }
  etransitivity.
  { unfold searchFilter. destruct (searchQuery st);
      [reflexivity | apply List_filter_sublist]. }
  unfold categoryFilter.
  destruct (_ && _); [apply List_filter_sublist | reflexivity].
Qed.

(** X2. The processed data is a rearrangement of rows selected from the
    data: no row is invented and none is shown more often than it occurs.
    While no sort is switched on the rows keep the order of the data. *)
Theorem processed_rows_selected (data : list Row) (headers : list jsstring)
    (st : ViewState) :
  (exists kept,
      kept `sublist_of` data /\ processedData data headers st ≡ₚ kept)
  /\ (length (processedData data headers st) <= length data)%nat
  /\ (sortConfig st = None -> formulaSortDir st = None ->
      processedData data headers st `sublist_of` data).
Proof.
  pose proof (stages_sublist data headers st) as Hsub.
  assert (Hex : exists kept,
             kept `sublist_of` data /\ processedData data headers st ≡ₚ kept).
  { unfold processedData. destruct data as [|r0 data].
    - exists []. split; reflexivity.
    - eexists. split; [exact Hsub|].
      unfold sorting.
      destruct (buildFormulaFn (appliedFormula st)),
        (formulaSortDir st), (sortConfig st);
        try apply sort_perm; reflexivity. }
  split; [exact Hex | split].
  - destruct Hex as (kept & Hk & Hp). rewrite Hp.
    now apply sublist_length.
  - intros Hcfg Hdir. unfold processedData. destruct data as [|r0 data].
    + reflexivity.
    + rewrite Hcfg, Hdir. unfold sorting.
      destruct (buildFormulaFn (appliedFormula st)); exact Hsub.
Qed.

End Pipeline.

Lemma processed_rows_selected_witness :
  let st := handleSearchChange (lit "tea") initialState in
  let data := [mkRow [cell "name" "Tea"]; mkRow [cell "name" "Nuts"]] in
  sortConfig st = None /\ formulaSortDir st = None
  /\ processedData (H := sampleHost) data [lit "name"] st `sublist_of` data.
Proof.
  intros st data. split; [reflexivity | split; [reflexivity|]].
  apply (processed_rows_selected (H := sampleHost) data [lit "name"] st);
    reflexivity.
Defined.

Lemma column_filters_combine_witness :
  let types := deriveColumnTypes [lit "name"; lit "price"] in
  let fs := [(lit "price", Some (FRange (Some (Num 1)) None));
             (lit "name", Some (FText (Some (PArray [lit "tea"])) None))] in
  let gs := [(lit "name", Some (FText (Some (PArray [lit "tea"])) None));
             (lit "price", Some (FRange (Some (Num 1)) None))] in
  let l := [mkRow [cell "name" "Green tea"; cell "price" "3"]] in
  fs ≡ₚ gs
  /\ columnFilters (H := sampleHost) types fs l
     = columnFilters (H := sampleHost) types gs l.
Proof.
  intros types fs gs l.
  assert (Hperm : fs ≡ₚ gs) by apply Permutation_swap.
  split; [exact Hperm|].
  apply (column_filters_combine (H := sampleHost) types fs gs
           (lit "x", None) l).
  exact Hperm.
Defined.

(** ** Pages *)

Section Pages.

Import Pagination.

Lemma totalPages_tight (l : list Row) (rpp : Z) :
  0 < rpp -> (totalPages l rpp - 1) * rpp < Z.of_nat (length l).
Proof.
  intros Hr. unfold totalPages.
  set (len := Z.of_nat (length l)).
  assert (Hpos : (inject_Z 0 < inject_Z rpp)%Q) by (rewrite <- Zlt_Qlt; exact Hr).
  change (inject_Z 0) with 0%Q in Hpos.
  pose proof (Qceiling_lt (inject_Z len / inject_Z rpp)) as Hc.
  rewrite Zlt_Qlt, inject_Z_mult.
  assert (Heq : (inject_Z len / inject_Z rpp * inject_Z rpp == inject_Z len)%Q).
  { field. intros H0. rewrite H0 in Hpos. now apply Qlt_irrefl in Hpos. }
  apply Qlt_le_trans with (inject_Z len / inject_Z rpp * inject_Z rpp)%Q.
  - now apply Qmult_lt_compat_r.
  - rewrite Heq. apply Qle_refl.
Qed.

Lemma page_length (l : list Row) (p rpp : Z) :
  0 < rpp -> 1 <= p ->
  Z.of_nat (length (paginatedData l p rpp))
  = Z.max 0 (Z.min rpp (Z.of_nat (length l) - (p - 1) * rpp)).
Proof.
  intros Hr Hp. unfold paginatedData.
  rewrite slice_window by nia.
  rewrite length_take, length_drop. nia.
Qed.

(** X3. For a positive page size, a page holds at most that many rows;
    every page before the last page is full, every page from 1 to the
    total is non-empty, and every page beyond the total is empty. *)
Theorem page_sizes (processed : list Row) (page rowsPerPage : Z) :
  0 < rowsPerPage -> 1 <= page ->
  (length (paginatedData processed page rowsPerPage) <= Z.to_nat rowsPerPage)%nat
  /\ (page < totalPages processed rowsPerPage ->
      Z.of_nat (length (paginatedData processed page rowsPerPage)) = rowsPerPage)
  /\ (page <= totalPages processed rowsPerPage ->
      paginatedData processed page rowsPerPage <> [])
  /\ (totalPages processed rowsPerPage < page ->
      paginatedData processed page rowsPerPage = []).
Proof.
  intros Hr Hp.
  pose proof (page_length processed page rowsPerPage Hr Hp) as Hlen.
  destruct (totalPages_covers processed rowsPerPage Hr) as [H0 Hcov].
  pose proof (totalPages_tight processed rowsPerPage Hr) as Htight.
  split; [lia | split; [|split]].
  - intros Hlt. nia.
  - intros Hle Hnil. rewrite Hnil in Hlen. simpl in Hlen. nia.
  - intros Hgt. apply length_zero_iff_nil. nia.
Qed.

Lemma page_sizes_witness :
  let l := [mkRow [cell "name" "a"]; mkRow [cell "name" "b"];
            mkRow [cell "name" "c"]] in
  0 < 2 /\ 1 <= 2 /\ 2 <= totalPages l 2 /\ paginatedData l 2 2 <> [].
Proof.
  intros l. split; [lia | split; [lia|]].
  assert (Htp : 2 <= totalPages l 2) by (vm_compute; discriminate).
  split; [exact Htp|].
  apply (page_sizes l 2 2); [lia | lia | exact Htp].
Defined.

Lemma slice_stop_clamped {A} (l : list A) (s e : Z) :
  slice l s (Z.min e (Z.of_nat (length l))) = slice l s e \/ e < 0.
Proof.
  destruct (Z.lt_ge_cases e 0) as [Hneg | Hpos]; [now right | left].
  unfold slice, relIndex.
  destruct (Z.ltb_spec e 0); [lia|].
  destruct (Z.ltb_spec (Z.min e (Z.of_nat (length l))) 0); [lia|].
  do 2 f_equal. lia.
Qed.

(** X4. On a page from 1 to the total, the line under the table names the
    rows of the page: the page is the slice from the first to the last
    row number shown, and their distance is the number of rows on the
    page. *)
Theorem showing_line_matches_page (processed : list Row)
    (page rowsPerPage : Z) :
  0 < rowsPerPage ->
  1 <= page <= totalPages processed rowsPerPage ->
  let totalRows := Z.of_nat (length processed) in
  paginatedData processed page rowsPerPage
  = slice processed (showingFrom page rowsPerPage totalRows - 1)
      (showingTo page rowsPerPage totalRows)
  /\ showingTo page rowsPerPage totalRows
     - showingFrom page rowsPerPage totalRows + 1
     = Z.of_nat (length (paginatedData processed page rowsPerPage)).
Proof.
  intros Hr [Hp Hle] totalRows.
  pose proof (page_length processed page rowsPerPage Hr Hp) as Hlen.
  destruct (totalPages_covers processed rowsPerPage Hr) as [H0 Hcov].
  pose proof (totalPages_tight processed rowsPerPage Hr) as Htight.
  assert (Hrows : 0 < totalRows) by (subst totalRows; nia).
  unfold showingFrom, showingTo.
  destruct (Z.eqb_spec totalRows 0) as [Hz | _]; [lia|].
  split.
  - destruct (slice_stop_clamped processed
                ((page - 1) * rowsPerPage + 1 - 1) (page * rowsPerPage))
      as [Heq | Hneg]; [|nia].
    fold totalRows in Heq. rewrite Heq. unfold paginatedData.
    f_equal; lia.
  - rewrite Hlen. subst totalRows. nia.
Qed.

Lemma showing_line_matches_page_witness :
  let l := [mkRow [cell "name" "a"]; mkRow [cell "name" "b"];
            mkRow [cell "name" "c"]] in
  0 < 2 /\ 1 <= 2 <= totalPages l 2
  /\ showingTo 2 2 3 - showingFrom 2 2 3 + 1
     = Z.of_nat (length (paginatedData l 2 2)).
Proof.
  intros l.
  assert (Htp : 1 <= 2 <= totalPages l 2) by (vm_compute; split; discriminate).
  split; [lia | split; [exact Htp|]].
  apply (showing_line_matches_page l 2 2); [lia | exact Htp].
Defined.

(** X5. The page-adjust effect leaves a page number that is in range as
    it is, and sets one beyond a positive total to the total, so that
    afterwards a page number of at least 1 shows a non-empty page
    whenever there are rows; with no rows at all the page number is
    left alone. *)
Theorem adjusted_page_shows_rows (processed : list Row) (rowsPerPage : Z)
    (st : ViewState) :
  0 < rowsPerPage ->
  let total := totalPages processed rowsPerPage in
  let st' := adjustPage total st in
  (currentPage st <= total -> st' = st)
  /\ (total < currentPage st -> 0 < total ->
      st' = setCurrentPage total st /\ currentPage st' = total)
  /\ (processed = [] -> st' = st)
  /\ (1 <= currentPage st -> processed <> [] ->
      1 <= currentPage st' <= total
      /\ paginatedData processed (currentPage st') rowsPerPage <> []).
Proof.
  intros Hr total st'. subst st'. unfold adjustPage.
  destruct (totalPages_covers processed rowsPerPage Hr) as [H0 Hcov].
  pose proof (totalPages_tight processed rowsPerPage Hr) as Htight.
  fold total in H0, Hcov, Htight.
  split; [|split; [|split]].
  - intros Hle. destruct (Z.gtb_spec (currentPage st) total); [lia|].
    reflexivity.
  - intros Hgt Hpos.
    destruct (Z.gtb_spec (currentPage st) total); [|lia].
    destruct (Z.gtb_spec total 0); [|lia]. cbn [andb].
    rewrite Z.max_r by lia. split; reflexivity.
  - intros ->. subst total. unfold totalPages. simpl.
    now rewrite andb_false_r.
  - intros Hp Hne.
    assert (Hlen : 0 < Z.of_nat (length processed)).
    { destruct processed; [contradiction | simpl; lia]. }
    assert (Hrange : 1 <= currentPage
                            (if (currentPage st >? total) && (total >? 0)
                             then setCurrentPage (Z.max 1 total) st else st)
                     <= total).
    { destruct (Z.gtb_spec (currentPage st) total);
        destruct (Z.gtb_spec total 0); simpl; nia. }
    split; [exact Hrange|].
    pose proof (page_length processed _ rowsPerPage Hr (proj1 Hrange)) as Hpage.
    intros Hnil. rewrite Hnil in Hpage. simpl in Hpage. nia.
Qed.

Lemma adjusted_page_shows_rows_witness :
  let l := [mkRow [cell "name" "a"]; mkRow [cell "name" "b"];
            mkRow [cell "name" "c"]] in
  let st := handlePageChange 7 initialState in
  0 < 2 /\ totalPages l 2 = 2 /\ currentPage st = 7
  /\ currentPage (adjustPage (totalPages l 2) st) = 2
  /\ paginatedData l (currentPage (adjustPage (totalPages l 2) st)) 2 <> [].
Proof.
  intros l st.
  assert (Htotal : totalPages l 2 = 2) by (vm_compute; reflexivity).
  assert (Hpage : currentPage st = 7) by reflexivity.
  assert (Hr : 0 < 2) by lia.
  destruct (adjusted_page_shows_rows l 2 st Hr) as (_ & Hset & _ & Hshow).
  split; [exact Hr | split; [exact Htotal | split; [exact Hpage|]]].
  split.
  - destruct Hset as [_ Hcur]; [vm_compute; reflexivity..|].
    etransitivity; [exact Hcur | exact Htotal].
  - apply Hshow; [vm_compute; discriminate | discriminate].
Defined.

(** X6. From a page between 1 and the total, Previous and Next ask only
    for pages between 1 and the total, Previous does nothing on page 1
    and Next nothing on the last page, and Next followed by Previous
    comes back. *)
Theorem pager_stays_in_range (currentPage totalPages : Z) :
  1 <= currentPage <= totalPages ->
  (forall page, handlePrevious currentPage = Some page ->
                1 <= page <= totalPages)
  /\ (forall page, handleNext currentPage totalPages = Some page ->
                   1 <= page <= totalPages
                   /\ handlePrevious page = Some currentPage)
  /\ handlePrevious 1 = None
  /\ handleNext totalPages totalPages = None.
Proof.
  intros Hp. unfold handlePrevious, handleNext.
  split; [|split; [|split]].
  - intros page. destruct (Z.gtb_spec currentPage 1); intros [= <-]. lia.
  - intros page. destruct (Z.ltb_spec currentPage totalPages); intros [= <-].
    split; [lia|].
    destruct (Z.gtb_spec (currentPage + 1) 1); [|lia]. f_equal. lia.
  - reflexivity.
  - now rewrite Z.ltb_irrefl.
Qed.

Lemma pager_stays_in_range_witness :
  1 <= 2 <= 3 /\ handlePrevious 3 = Some 2.
Proof.
  split; [lia|].
  apply (pager_stays_in_range 2 3); [lia | reflexivity].
Defined.

End Pages.

(** ** The category effect *)

Section CategoryEffect.

Lemma categoryPath_categorised (row : Row) :
  categorised row = true ->
  categoryPath row
  = join [HASH]
      (List.map trim (split HASH (default [] (row !! CATEGORY_COLUMN)))).
Proof.
  unfold categorised, categoryPath, nonEmpty.
  destruct (default [] (row !! CATEGORY_COLUMN)); [discriminate | reflexivity].
Qed.

Lemma categoryPath_uncategorised (row : Row) :
  categorised row = false -> categoryPath row = [].
Proof.
  unfold categorised, categoryPath, nonEmpty.
  destruct (default [] (row !! CATEGORY_COLUMN)); [reflexivity | discriminate].
Qed.

Lemma foldl_addRow_paths (data : list Row) :
  forall root paths root' paths',
    foldl addRow (Some (root, paths)) data = Some (root', paths') ->
    paths' = paths ++ categoryPaths data.
Proof.
  unfold categoryPaths.
  induction data as [|row data IH] using rev_ind;
    intros root paths root' paths' Hfold.
  - simpl in Hfold. injection Hfold as <- <-. now rewrite app_nil_r.
  - rewrite foldl_app in Hfold. simpl in Hfold.
    destruct (foldl addRow (Some (root, paths)) data) as [[r ps]|] eqn:Hacc;
      [|discriminate].
    rewrite (IH _ _ _ _ Hacc) in Hfold.
    rewrite List.filter_app, List.map_app. simpl. unfold addRow in Hfold.
    pose proof (categoryPath_categorised row) as Hcat.
    unfold categorised, nonEmpty in *.
    destruct (default [] (row !! CATEGORY_COLUMN)) as [|c raw]; simpl in *.
    + injection Hfold as <- <-. now rewrite app_nil_r.
    + destruct (walkParts [] _ r); [|discriminate].
      injection Hfold as <- <-. rewrite Hcat by reflexivity.
      now rewrite app_assoc.
Qed.

Lemma buildTree_paths (data : list Row) (tree : list CategoryNode)
    (allPaths : list jsstring) :
  buildTree data = Some (tree, allPaths) -> allPaths = categoryPaths data.
Proof. intros Hb. now apply foldl_addRow_paths in Hb. Qed.

(** X7. Reconciling a selection with the paths of new data keeps the
    selected paths that are still paths of the data; when none is left,
    or none was selected, every path of the data is selected. *)
Theorem reconciled_selection (allPaths : list jsstring)
    (prev : gset jsstring) :
  ((exists q, q ∈ prev /\ q ∈ allPaths) ->
   forall p, p ∈ reconcileSelection allPaths prev
             <-> p ∈ prev /\ p ∈ allPaths)
  /\ ((forall q, q ∈ prev -> q ∉ allPaths) ->
      forall p, p ∈ reconcileSelection allPaths prev <-> p ∈ allPaths).
Proof.
  unfold reconcileSelection.
  assert (Hvalid : forall p,
             p ∈ List.filter (includesStr allPaths) (elements prev)
             <-> p ∈ prev /\ p ∈ allPaths).
  { intros p. rewrite elem_of_List_filter, elem_of_elements.
    unfold includesStr. now rewrite bool_decide_eq_true. }
  split.
  - intros (q & Hq & Hqa) p.
    destruct (Nat.eqb_spec (size prev) 0) as [Hz | _].
    { apply size_empty_iff in Hz. apply leibniz_equiv in Hz.
      subst prev. now apply not_elem_of_empty in Hq. }
    destruct (_ || _) eqn:Hchg.
    + destruct (List.filter _ _) as [|v vs] eqn:Hf.
      * assert (Hin : q ∈ @nil jsstring) by now apply Hvalid.
        now apply elem_of_nil in Hin.
      * rewrite elem_of_list_to_set. apply Hvalid.
    + apply orb_false_iff in Hchg. destruct Hchg as [_ Hrem].
      split; [|tauto]. intros Hp. split; [exact Hp|].
      rewrite <- not_true_iff_false, existsb_exists in Hrem.
      destruct (decide (p ∈ allPaths)) as [Hin | Hout]; [exact Hin|].
      exfalso. apply Hrem. exists p. split.
      * now apply list_elem_of_In, elem_of_elements.
      * unfold includesStr. now rewrite bool_decide_eq_false_2.
  - intros Hnone p.
    destruct (Nat.eqb_spec (size prev) 0) as [Hz | Hnz].
    { now rewrite elem_of_list_to_set. }
    assert (Hq : exists q, q ∈ prev).
    { apply size_pos_elem_of. lia. }
    destruct Hq as [q Hq].
    assert (Hrem : existsb (fun path => negb (includesStr allPaths path))
                     (elements prev) = true).
    { apply existsb_exists. exists q. split.
      - now apply list_elem_of_In, elem_of_elements.
      - unfold includesStr. rewrite bool_decide_eq_false_2; [reflexivity|].
        now apply Hnone. }
    rewrite Hrem, orb_true_r.
    destruct (List.filter _ _) as [|v vs] eqn:Hf.
    + now rewrite elem_of_list_to_set.
    + assert (Hv : v ∈ prev /\ v ∈ allPaths).
      { apply Hvalid. left. }
      destruct Hv as [Hv Hva]. now apply Hnone in Hv.
Qed.

Lemma reconciled_selection_witness :
  let allPaths := [lit "Drinks"; lit "Snacks"] in
  let prev : gset jsstring := {[lit "Snacks"; lit "Sweets"]} in
  (exists q, q ∈ prev /\ q ∈ allPaths)
  /\ (lit "Snacks" ∈ reconcileSelection allPaths prev
      <-> lit "Snacks" ∈ prev /\ lit "Snacks" ∈ allPaths).
Proof.
  intros allPaths prev.
  assert (Hq : exists q, q ∈ prev /\ q ∈ allPaths).
  { exists (lit "Snacks"). split; apply (bool_decide_eq_true_1 _);
      vm_compute; reflexivity. }
  split; [exact Hq|].
  apply (proj1 (reconciled_selection allPaths prev) Hq).
Defined.

(** X8. When the effect runs for a new file and does not throw, the
    selection is the set of the paths of the rows that have a category.
    In a dataset that exposes a category column every row that has a
    category then passes the category stage; a row without one passes
    exactly when no row has a category or the path of some row that has
    one is the empty string. *)
Theorem default_selection_rows (data : list Row) (headers : list jsstring)
    (categoriesTree tree : list CategoryNode) (prev selected : gset jsstring) :
  data <> [] -> headers <> [] ->
  categoriesEffect data headers true categoriesTree prev
  = Some (tree, selected) ->
  (forall p, p ∈ selected <-> p ∈ categoryPaths data)
  /\ (exposesCategory headers = true ->
      (forall row, row ∈ data -> categorised row = true ->
                   row ∈ categoryFilter headers selected data)
      /\ (forall row, row ∈ data -> categorised row = false ->
                      (row ∈ categoryFilter headers selected data
                       <-> categoryPaths data = []
                           \/ [] ∈ categoryPaths data))).
Proof.
  intros Hdata Hheaders Heff. unfold categoriesEffect in Heff.
  destruct data as [|r0 data]; [contradiction|].
  destruct headers as [|h0 headers]; [contradiction|].
  destruct (buildTree (r0 :: data)) as [[t ps]|] eqn:Hb; [|discriminate].
  injection Heff as <- <-. apply buildTree_paths in Hb. subst ps.
  set (rows := r0 :: data) in *.
  assert (Hsel : forall p,
             p ∈ (list_to_set (categoryPaths rows) : gset jsstring)
             <-> p ∈ categoryPaths rows).
  { intros p. apply elem_of_list_to_set. }
  split; [exact Hsel|]. intros Hcat.
  assert (Hstage : forall row,
             row ∈ categoryFilter (h0 :: headers)
                     (list_to_set (categoryPaths rows)) rows
             <-> row ∈ rows
                 /\ (categoryPaths rows = []
                     \/ categoryPath row ∈ categoryPaths rows)).
  { intros row. unfold categoryFilter. unfold exposesCategory in Hcat.
    rewrite Hcat. simpl andb.
    destruct (categoryPaths rows) as [|p ps] eqn:Hps.
    - simpl. rewrite elem_of_nil. tauto.
    - assert (Hsz : (0 <? size (list_to_set (p :: ps) : gset jsstring))%nat
                    = true).
      { apply Nat.ltb_lt.
        assert (size (list_to_set (p :: ps) : gset jsstring) <> 0%nat); [|lia].
        intros Hz. apply size_empty_iff in Hz.
        assert (Hp : p ∈ (list_to_set (p :: ps) : gset jsstring))
          by (apply elem_of_list_to_set; left).
        rewrite Hz in Hp. now apply not_elem_of_empty in Hp. }
      rewrite Hsz, elem_of_List_filter, bool_decide_eq_true.
      rewrite elem_of_list_to_set. split; [tauto|].
      intros [Hr [Hnil | Hin]]; [discriminate | tauto]. }
  split.
  - intros row Hrow Hc. apply Hstage. split; [exact Hrow | right].
    unfold categoryPaths.
    apply list_elem_of_In, in_map, filter_In.
    split; [now apply list_elem_of_In | exact Hc].
  - intros row Hrow Hc. rewrite Hstage.
    rewrite (categoryPath_uncategorised row Hc). tauto.
Qed.

Lemma default_selection_rows_witness :
  let tea := mkRow [cell "name" "tea"; cell "category" "Drinks # Tea"] in
  let odd := mkRow [cell "name" "odd"] in
  let data := [tea; odd] in
  let headers := [lit "name"; lit "category"] in
  data <> [] /\ headers <> [] /\ exposesCategory headers = true
  /\ (exists tree,
        categoriesEffect data headers true [] ∅
        = Some (tree, {[lit "Drinks#Tea"]}))
  /\ tea ∈ categoryFilter headers {[lit "Drinks#Tea"]} data.
Proof.
  intros tea odd data headers.
  assert (Hd : data <> []) by discriminate.
  assert (Hh : headers <> []) by discriminate.
  assert (Hcat : exposesCategory headers = true) by (vm_compute; reflexivity).
  assert (Heff : categoriesEffect data headers true [] ∅
                 = Some ([mkNode (lit "Drinks") (lit "Drinks")
                            [mkNode (lit "Tea") (lit "Drinks#Tea") []]],
                         {[lit "Drinks#Tea"]})).
  { vm_compute. reflexivity. }
  split; [exact Hd | split; [exact Hh | split; [exact Hcat | split]]].
  - eexists. exact Heff.
  - apply (proj1 (proj2 (default_selection_rows data headers [] _ ∅ _
                            Hd Hh Heff) Hcat)).
    + left.
    + vm_compute. reflexivity.
Defined.

End CategoryEffect.

(** ** When the walk throws, and what the tree holds *)

Section TreeContent.

Lemma ownNamesOnly_unfold (nm p : jsstring) (cs : list CategoryNode) :
  ownNamesOnly (mkNode nm p cs) = true
  <-> inheritedName nm = false
      /\ Forall (fun c => ownNamesOnly c = true) cs.
Proof.
  simpl. rewrite andb_true_iff, negb_true_iff, forallb_forall, Forall_forall.
  setoid_rewrite <- list_elem_of_In. reflexivity.
Qed.

Lemma walkParts_names_own (parts : list jsstring) :
  forall pre current result,
    walkParts pre parts current = Some result ->
    Forall (fun c => ownNamesOnly c = true) current ->
    Forall (fun c => ownNamesOnly c = true) result.
Proof.
  induction parts as [|part rest IH]; intros pre current result Hwalk Hown;
    simpl in Hwalk.
  - now injection Hwalk as <-.
  - unfold getProperty in Hwalk.
    destruct (ownProperty part current) as [node|] eqn:Hprop.
    + destruct (walkParts _ rest (children node)) as [cs|] eqn:Hcs;
        [|discriminate].
      injection Hwalk as <-.
      destruct (ownProperty_Some _ _ _ Hprop) as [Hin _].
      rewrite Forall_forall in Hown. pose proof (Hown node Hin) as Hnode.
      destruct node as [nm p ccs]. apply ownNamesOnly_unfold in Hnode.
      destruct Hnode as [Hnm Hccs].
      apply (setChildren_Forall _ _ _ _ _ Hprop); [now apply Forall_forall|].
      apply ownNamesOnly_unfold. split; [exact Hnm|].
      exact (IH _ _ _ Hcs Hccs).
    + fold (inheritedName part) in Hwalk.
      destruct (inheritedName part) eqn:Hinh.
      * destruct rest; [|discriminate]. now injection Hwalk as <-.
      * destruct (walkParts _ rest []) as [cs|] eqn:Hcs; [|discriminate].
        injection Hwalk as <-.
        rewrite defineProperty_perm. constructor; [|exact Hown].
        apply ownNamesOnly_unfold. split; [exact Hinh|].
        apply (IH _ _ _ Hcs). constructor.
Qed.

Lemma walkParts_throws (parts : list jsstring) :
  forall pre current,
    Forall (fun c => ownNamesOnly c = true) current ->
    walkParts pre parts current = None <-> inheritedBeforeEnd parts = true.
Proof.
  induction parts as [|part rest IH]; intros pre current Hown; simpl.
  - split; discriminate.
  - unfold getProperty.
    destruct (ownProperty part current) as [node|] eqn:Hprop.
    + destruct (ownProperty_Some _ _ _ Hprop) as [Hin Hname].
      rewrite Forall_forall in Hown. pose proof (Hown node Hin) as Hnode.
      destruct node as [nm p ccs]. apply ownNamesOnly_unfold in Hnode.
      destruct Hnode as [Hnm Hccs]. simpl in Hname. subst nm.
      rewrite Hnm. simpl.
      rewrite <- (IH (pre ++ part ++ [HASH]) ccs Hccs). simpl.
      destruct (walkParts _ rest ccs); split; congruence.
    + fold (inheritedName part). destruct (inheritedName part); simpl.
      * destruct rest; simpl; [split; discriminate | tauto].
      * rewrite <- (IH (pre ++ part ++ [HASH]) []) by constructor.
        destruct (walkParts _ rest []); split; congruence.
Qed.

Lemma foldl_addRow_None (data : list Row) : foldl addRow None data = None.
Proof. induction data as [|row data IH]; simpl; [reflexivity | exact IH]. Qed.

Lemma foldl_addRow_throws (data : list Row) :
  forall root paths,
    Forall (fun c => ownNamesOnly c = true) root ->
    foldl addRow (Some (root, paths)) data = None
    <-> exists row,
          row ∈ data /\ categorised row = true
          /\ inheritedBeforeEnd (split HASH (categoryPath row)) = true.
Proof.
  induction data as [|row data IH]; intros root paths Hown; simpl.
  - split; [discriminate|]. intros (row & Hrow & _).
    now apply elem_of_nil in Hrow.
  - pose proof (categoryPath_categorised row) as Hpath.
    unfold categorised, nonEmpty in Hpath |- *.
    destruct (default [] (row !! CATEGORY_COLUMN)) as [|c raw] eqn:Hraw.
    + rewrite (IH root paths Hown). split.
      * intros (r & Hr & Hc & Ht). exists r. split; [now right | tauto].
      * intros (r & Hr & Hc & Ht). apply elem_of_cons in Hr.
        destruct Hr as [-> | Hr]; [|eauto].
        unfold categorised, nonEmpty in Hc. now rewrite Hraw in Hc.
    + specialize (Hpath eq_refl).
      destruct (walkParts [] _ root) as [root'|] eqn:Hwalk.
      * assert (Hok : inheritedBeforeEnd (split HASH (categoryPath row))
                      = false).
        { rewrite Hpath. apply not_true_iff_false.
          rewrite <- (walkParts_throws _ [] root Hown). congruence. }
        rewrite (IH root' _ (walkParts_names_own _ _ _ _ Hwalk Hown)). split.
        -- intros (r & Hr & Hc & Ht). exists r. split; [now right | tauto].
        -- intros (r & Hr & Hc & Ht). apply elem_of_cons in Hr.
           destruct Hr as [-> | Hr]; [congruence | eauto].
      * rewrite foldl_addRow_None. split; [|reflexivity]. intros _.
        exists row. split; [left | split].
        -- unfold categorised, nonEmpty. now rewrite Hraw.
        -- rewrite Hpath. now apply (walkParts_throws _ [] root Hown).
Qed.

(** X9. [buildTree] throws exactly when some row has a category in which
    a segment other than the last names a property of [Object.prototype]
    (such as constructor or toString); otherwise it returns a tree and
    the paths of all rows that have a category. *)
Theorem buildTree_throws (data : list Row) :
  (buildTree data = None
   <-> exists row,
         row ∈ data /\ categorised row = true
         /\ inheritedBeforeEnd (split HASH (categoryPath row)) = true)
  /\ (forall tree allPaths,
        buildTree data = Some (tree, allPaths) ->
        allPaths = categoryPaths data).
Proof.
  split.
  - apply foldl_addRow_throws. constructor.
  - intros tree allPaths. apply buildTree_paths.
Qed.

Lemma buildTree_throws_witness :
  let row := mkRow [cell "name" "x"; cell "category" "toString # Tea"] in
  (exists r,
      r ∈ [row] /\ categorised r = true
      /\ inheritedBeforeEnd (split HASH (categoryPath r)) = true)
  /\ buildTree [row] = None.
Proof.
  intros row.
  assert (Hex : exists r,
             r ∈ [row] /\ categorised r = true
             /\ inheritedBeforeEnd (split HASH (categoryPath r)) = true).
  { exists row. split; [left | split; vm_compute; reflexivity]. }
  split; [exact Hex|].
  apply (proj1 (buildTree_throws [row])). exact Hex.
Defined.

Lemma collectPaths_cons (c : CategoryNode) (forest : list CategoryNode) :
  collectPaths (c :: forest) = dfs c ++ collectPaths forest.
Proof. reflexivity. Qed.

Lemma dfs_unfold (nm p : jsstring) (cs : list CategoryNode) :
  dfs (mkNode nm p cs) = p :: collectPaths cs.
Proof. reflexivity. Qed.

Lemma subtree_path_shape (pre : jsstring) (c : CategoryNode) (q : jsstring) :
  wfNode pre c = true -> q ∈ dfs c ->
  exists t, q = pre ++ name c ++ t /\ (t = [] \/ exists t', t = HASH :: t').
Proof.
  intros Hwf Hq. rewrite dfs_subnodes in Hq.
  apply list_elem_of_In, in_map_iff in Hq. destruct Hq as (n & <- & Hn).
  apply (subnode_path pre c n Hwf). now apply list_elem_of_In.
Qed.

Lemma name_of_shape (a b ta tb : jsstring) :
  HASH ∉ a -> HASH ∉ b ->
  a ++ ta = b ++ tb ->
  ta = [] \/ (exists t, ta = HASH :: t) ->
  tb = [] \/ (exists t, tb = HASH :: t) ->
  a = b.
Proof.
  intros Ha Hb Heq [-> | [t ->]] Htb.
  - rewrite app_nil_r in Heq. destruct Htb as [-> | [t ->]].
    + now rewrite app_nil_r in Heq.
    + exfalso. apply Ha. rewrite Heq. apply elem_of_app. right. left.
  - eapply segment_unique; eauto.
Qed.

Lemma forest_paths_distinct (pre : jsstring) (forest : list CategoryNode) :
  NoDup (List.map name forest) ->
  Forall (fun c => wfNode pre c = true) forest ->
  Forall distinctPaths forest ->
  NoDup (collectPaths forest).
Proof.
  induction forest as [|c forest IH]; intros Hnd Hwf Hdist.
  - constructor.
  - simpl in Hnd. apply NoDup_cons in Hnd. destruct Hnd as [Hfresh Hnd].
    inversion Hwf as [|? ? Hc Hrest]; subst.
    inversion Hdist as [|? ? Hdc Hdrest]; subst.
    rewrite collectPaths_cons. apply NoDup_app. split; [now apply (Hdc pre)|].
    split; [|now apply IH].
    intros q Hq Hq'. unfold collectPaths in Hq'.
    apply elem_of_flat_map in Hq'. destruct Hq' as (c' & Hc' & Hq').
    rewrite Forall_forall in Hrest.
    destruct (subtree_path_shape pre c q Hc Hq) as (t & Ht & Hshape).
    destruct (subtree_path_shape pre c' q (Hrest c' Hc') Hq')
      as (t' & Ht' & Hshape').
    rewrite Ht in Ht'. apply app_inv_head in Ht'.
    apply Hfresh. replace (name c) with (name c').
    { apply list_elem_of_In, in_map, list_elem_of_In, Hc'. }
    symmetry. eapply name_of_shape; eauto.
    + destruct c. apply wfNode_unfold in Hc. tauto.
    + specialize (Hrest c' Hc'). destruct c'.
      apply wfNode_unfold in Hrest. tauto.
Qed.

Lemma subtree_paths_distinct (r : CategoryNode) : distinctPaths r.
Proof.
  induction r as [nm p cs IH] using CategoryNode_forall_ind.
  intros pre Hwf. pose proof Hwf as Hparts. apply wfNode_unfold in Hparts.
  destruct Hparts as (Hp & Hnm & Hnd & Hcs).
  rewrite dfs_unfold. apply NoDup_cons. split.
  - intros Hin. rewrite collectPaths_allNodes in Hin.
    apply list_elem_of_In, in_map_iff in Hin. destruct Hin as (d & Hd & Hin).
    apply list_elem_of_In in Hin.
    destruct (descendant_path _ pre d Hwf Hin) as [x Hx].
    simpl in Hx. rewrite Hd in Hx. now apply not_own_extension in Hx.
  - now apply (forest_paths_distinct (p ++ [HASH])).
Qed.

(** X10. In the tree [buildTree] returns, every node is named by one
    segment, its path is the path of its parent, the delimiter and its
    name, and no two nodes have the same path. *)
Theorem built_tree_paths_distinct (data : list Row)
    (tree : list CategoryNode) (allPaths : list jsstring) :
  buildTree data = Some (tree, allPaths) ->
  wfForest tree = true /\ NoDup (collectPaths tree).
Proof.
  intros Hb. pose proof (buildTree_wf _ _ _ Hb) as Hwf.
  split; [exact Hwf|].
  apply wfForest_unfold in Hwf. destruct Hwf as [Hnd Hcs].
  apply (forest_paths_distinct [] tree Hnd Hcs).
  apply Forall_forall. intros c _. apply subtree_paths_distinct.
Qed.

Lemma built_tree_paths_distinct_witness :
  let data := [mkRow [cell "category" "Drinks # Tea"];
               mkRow [cell "category" "Drinks#Coffee"]] in
  exists tree allPaths,
    buildTree data = Some (tree, allPaths) /\ NoDup (collectPaths tree).
Proof.
  intros data.
  destruct (buildTree data) as [[tree allPaths]|] eqn:Hb;
    [|vm_compute in Hb; discriminate].
  exists tree, allPaths. split; [reflexivity|].
  apply (built_tree_paths_distinct data tree allPaths Hb).
Defined.

End TreeContent.

(** ** The nodes of the built tree *)

Section TreeNodes.

Lemma collectPaths_perm (l k : list CategoryNode) :
  l ≡ₚ k -> forall q, q ∈ collectPaths l <-> q ∈ collectPaths k.
Proof.
  intros Hperm q. unfold collectPaths.
  now rewrite (Permutation_flat_map dfs Hperm).
Qed.

Lemma collectPaths_elem_cons (c : CategoryNode) (forest : list CategoryNode)
    (q : jsstring) :
  q ∈ collectPaths (c :: forest)
  <-> q = path c \/ q ∈ collectPaths (children c) \/ q ∈ collectPaths forest.
Proof.
  rewrite collectPaths_cons, elem_of_app. destruct c as [nm p cs].
  rewrite dfs_unfold, elem_of_cons. simpl. tauto.
Qed.

Lemma setChildren_paths (part : jsstring) (cs nodes : list CategoryNode)
    (node : CategoryNode) (q : jsstring) :
  ownProperty part nodes = Some node ->
  (q ∈ collectPaths (setChildren part cs nodes) ->
   q ∈ collectPaths cs \/ q ∈ collectPaths nodes)
  /\ (q ∈ collectPaths cs -> q ∈ collectPaths (setChildren part cs nodes))
  /\ (q = path node -> q ∈ collectPaths (setChildren part cs nodes))
  /\ (q ∈ collectPaths nodes ->
      (q ∈ collectPaths (children node) -> q ∈ collectPaths cs) ->
      q ∈ collectPaths (setChildren part cs nodes)).
Proof.
  induction nodes as [|n nodes IH]; cbn [setChildren ownProperty];
    [discriminate|].
  destruct (bool_decide (name n = part)).
  - intros [= ->]. rewrite !collectPaths_elem_cons.
    cbn [path children name]. tauto.
  - intros Hown. specialize (IH Hown).
    rewrite !collectPaths_elem_cons. tauto.
Qed.

Lemma join_take_succ (part : jsstring) (rest : list jsstring) (i : nat) :
  (1 <= i <= length rest)%nat ->
  join [HASH] (take (S i) (part :: rest))
  = part ++ [HASH] ++ join [HASH] (take i rest).
Proof.
  intros Hi. destruct i as [|i]; [lia|].
  destruct rest as [|r rest]; [simpl in Hi; lia|]. reflexivity.
Qed.

Lemma walkParts_sound (parts : list jsstring) :
  forall pre current result q,
    walkParts pre parts current = Some result ->
    q ∈ collectPaths result ->
    q ∈ collectPaths current
    \/ exists i, (1 <= i <= length parts)%nat
                 /\ q = pre ++ join [HASH] (take i parts).
Proof.
  induction parts as [|part rest IH]; intros pre current result q Hwalk Hq;
    simpl in Hwalk.
  - injection Hwalk as <-. now left.
  - assert (Hdeep : forall i,
               (1 <= i <= length rest)%nat ->
               (pre ++ part ++ [HASH]) ++ join [HASH] (take i rest)
               = pre ++ join [HASH] (take (S i) (part :: rest))).
    { intros i Hi. rewrite join_take_succ by exact Hi.
      now rewrite <- !app_assoc. }
    unfold getProperty in Hwalk.
    destruct (ownProperty part current) as [node|] eqn:Hprop.
    + destruct (walkParts _ rest (children node)) as [cs|] eqn:Hcs;
        [|discriminate].
      injection Hwalk as <-.
      destruct (setChildren_paths part cs current node q Hprop) as [Hfrom _].
      destruct (Hfrom Hq) as [Hin | Hin]; [|now left].
      destruct (IH _ _ _ _ Hcs Hin) as [Hold | (i & Hi & ->)].
      * left. destruct (ownProperty_Some _ _ _ Hprop) as [Hnode _].
        unfold collectPaths. apply elem_of_flat_map. exists node.
        split; [exact Hnode|]. destruct node. rewrite dfs_unfold. now right.
      * right. exists (S i). split; [simpl; lia | now apply Hdeep].
    + destruct (includesStr OBJECT_PROTOTYPE_KEYS part).
      * destruct rest; [|discriminate]. injection Hwalk as <-. now left.
      * destruct (walkParts _ rest []) as [cs|] eqn:Hcs; [|discriminate].
        injection Hwalk as <-.
        apply (collectPaths_perm _ _ (defineProperty_perm _ _)) in Hq.
        apply collectPaths_elem_cons in Hq. simpl in Hq.
        destruct Hq as [-> | [Hin | Hin]]; [| |now left].
        -- right. exists 1%nat. split; [simpl; lia|]. reflexivity.
        -- destruct (IH _ _ _ _ Hcs Hin) as [Hold | (i & Hi & ->)].
           ++ now apply elem_of_nil in Hold.
           ++ right. exists (S i). split; [simpl; lia | now apply Hdeep].
Qed.

Lemma walkParts_keeps (parts : list jsstring) :
  forall pre current result q,
    walkParts pre parts current = Some result ->
    q ∈ collectPaths current -> q ∈ collectPaths result.
Proof.
  induction parts as [|part rest IH]; intros pre current result q Hwalk Hq;
    simpl in Hwalk.
  - now injection Hwalk as <-.
  - unfold getProperty in Hwalk.
    destruct (ownProperty part current) as [node|] eqn:Hprop.
    + destruct (walkParts _ rest (children node)) as [cs|] eqn:Hcs;
        [|discriminate].
      injection Hwalk as <-.
      apply (proj2 (proj2 (proj2
               (setChildren_paths part cs current node q Hprop))));
        [exact Hq|].
      now apply (IH _ _ _ _ Hcs).
    + destruct (includesStr OBJECT_PROTOTYPE_KEYS part).
      * destruct rest; [|discriminate]. now injection Hwalk as <-.
      * destruct (walkParts _ rest []) as [cs|] eqn:Hcs; [|discriminate].
        injection Hwalk as <-.
        apply (collectPaths_perm _ _ (defineProperty_perm _ _)).
        apply collectPaths_elem_cons. now right; right.
Qed.

Lemma walkParts_covers (parts : list jsstring) :
  forall pre current result i,
    walkParts pre parts current = Some result ->
    Forall (fun c => wfNode pre c = true) current ->
    Forall (fun part => inheritedName part = false) parts ->
    (1 <= i <= length parts)%nat ->
    pre ++ join [HASH] (take i parts) ∈ collectPaths result.
Proof.
  induction parts as [|part rest IH];
    intros pre current result i Hwalk Hwf Hparts Hi; [simpl in Hi; lia|].
  simpl in Hwalk. inversion Hparts as [|? ? Hown Hrest]; subst.
  assert (Hpre : (pre ++ part) ++ [HASH] = pre ++ part ++ [HASH])
    by now rewrite <- app_assoc.
  assert (Hdeep : forall j,
             (1 <= j <= length rest)%nat ->
             (pre ++ part ++ [HASH]) ++ join [HASH] (take j rest)
             = pre ++ join [HASH] (take (S j) (part :: rest))).
  { intros j Hj. rewrite join_take_succ by exact Hj.
    now rewrite <- !app_assoc. }
  unfold getProperty in Hwalk. fold (inheritedName part) in Hwalk.
  rewrite Hown in Hwalk.
  destruct i as [|[|j]]; [lia | |].
  - (* the node of the part itself *)
    simpl take. simpl join.
    destruct (ownProperty part current) as [node|] eqn:Hprop.
    + destruct (walkParts _ rest (children node)) as [cs|]; [|discriminate].
      injection Hwalk as <-.
      apply (proj1 (proj2 (proj2
               (setChildren_paths part cs current node _ Hprop)))).
      destruct (ownProperty_Some _ _ _ Hprop) as [Hin Hname].
      rewrite Forall_forall in Hwf. specialize (Hwf node Hin).
      destruct node as [nm p ccs]. apply wfNode_unfold in Hwf.
      simpl in *. subst nm. now destruct Hwf as [-> _].
    + destruct (walkParts _ rest []) as [cs|]; [|discriminate].
      injection Hwalk as <-.
      apply (collectPaths_perm _ _ (defineProperty_perm _ _)).
      apply collectPaths_elem_cons. now left.
  - (* a node below it *)
    simpl in Hi. rewrite <- (Hdeep (S j)) by lia.
    destruct (ownProperty part current) as [node|] eqn:Hprop.
    + destruct (walkParts _ rest (children node)) as [cs|] eqn:Hcs;
        [|discriminate].
      injection Hwalk as <-.
      apply (proj1 (proj2 (setChildren_paths part cs current node _ Hprop))).
      destruct (ownProperty_Some _ _ _ Hprop) as [Hin Hname].
      rewrite Forall_forall in Hwf. specialize (Hwf node Hin).
      destruct node as [nm p ccs]. apply wfNode_unfold in Hwf.
      destruct Hwf as (Hp & _ & _ & Hccs). simpl in *. subst nm.
      apply (IH _ _ _ _ Hcs); [|exact Hrest | lia].
      now rewrite <- Hpre, <- Hp.
    + destruct (walkParts _ rest []) as [cs|] eqn:Hcs; [|discriminate].
      injection Hwalk as <-.
      apply (collectPaths_perm _ _ (defineProperty_perm _ _)).
      apply collectPaths_elem_cons. right. left. simpl.
      apply (IH _ _ _ _ Hcs); [constructor | exact Hrest | lia].
Qed.

Lemma foldl_addRow_nodes (data : list Row) :
  forall root paths root' paths',
    foldl addRow (Some (root, paths)) data = Some (root', paths') ->
    NoDup (List.map name root) ->
    Forall (fun c => wfNode [] c = true) root ->
    (forall q, q ∈ collectPaths root -> exists p, p ∈ paths /\ segmentPrefix q p) ->
    (forall p q, p ∈ paths ->
                 Forall (fun part => inheritedName part = false) (split HASH p) ->
                 segmentPrefix q p -> q ∈ collectPaths root) ->
    (forall q, q ∈ collectPaths root' ->
               exists p, p ∈ paths' /\ segmentPrefix q p)
    /\ (forall p q, p ∈ paths' ->
                    Forall (fun part => inheritedName part = false)
                      (split HASH p) ->
                    segmentPrefix q p -> q ∈ collectPaths root').
Proof.
  induction data as [|row data IH] using rev_ind;
    intros root paths root' paths' Hfold Hnd Hwf Hsound Hcover.
  - simpl in Hfold. injection Hfold as <- <-. now split.
  - rewrite foldl_app in Hfold. simpl in Hfold.
    destruct (foldl addRow (Some (root, paths)) data) as [[r ps]|] eqn:Hacc;
      [|discriminate].
    destruct (IH _ _ _ _ Hacc Hnd Hwf Hsound Hcover) as [Hs Hc].
    destruct (foldl_addRow_wf _ _ _ _ _ Hacc Hnd Hwf) as [_ Hwfr].
    unfold addRow in Hfold.
    destruct (default [] (row !! CATEGORY_COLUMN)) as [|c raw].
    + injection Hfold as <- <-. now split.
    + set (p0 := join [HASH] (List.map trim (split HASH (c :: raw)))) in *.
      destruct (walkParts [] (split HASH p0) r) as [r'|] eqn:Hwalk;
        [|discriminate].
      injection Hfold as <- <-. split.
      * intros q Hq.
        destruct (walkParts_sound _ _ _ _ _ Hwalk Hq) as [Hold | (i & Hi & ->)].
        -- destruct (Hs q Hold) as (p & Hp & Hpre).
           exists p. split; [apply elem_of_app; now left | exact Hpre].
        -- exists p0. split; [apply elem_of_app; right; left|].
           exists i. now split.
      * intros p q Hp Hown Hpre. apply elem_of_app in Hp.
        destruct Hp as [Hp | Hp].
        -- apply (walkParts_keeps _ _ _ _ _ Hwalk). now apply (Hc p).
        -- apply list_elem_of_singleton in Hp. subst p.
           destruct Hpre as (i & Hi & ->).
           exact (walkParts_covers _ [] r r' i Hwalk Hwfr Hown Hi).
Qed.

(** X11. The tree [buildTree] returns has a node only for a path of some
    row cut after one of its segments, and it has a node for every such
    cut of every row path in which no segment names a property of
    [Object.prototype]. *)
Theorem built_tree_nodes (data : list Row) (tree : list CategoryNode)
    (allPaths : list jsstring) :
  buildTree data = Some (tree, allPaths) ->
  (forall q, q ∈ collectPaths tree ->
             exists p, p ∈ categoryPaths data /\ segmentPrefix q p)
  /\ (forall p q,
        p ∈ categoryPaths data ->
        Forall (fun part => inheritedName part = false) (split HASH p) ->
        segmentPrefix q p -> q ∈ collectPaths tree).
Proof.
  intros Hb. pose proof (buildTree_paths _ _ _ Hb) as ->.
  apply (foldl_addRow_nodes data [] [] tree _ Hb); try constructor.
  - intros q Hq. now apply elem_of_nil in Hq.
  - intros p q Hp. now apply elem_of_nil in Hp.
Qed.

Lemma built_tree_nodes_witness :
  let data := [mkRow [cell "category" "Drinks # Tea"]] in
  exists tree allPaths,
    buildTree data = Some (tree, allPaths)
    /\ lit "Drinks#Tea" ∈ categoryPaths data
    /\ segmentPrefix (lit "Drinks") (lit "Drinks#Tea")
    /\ (lit "Drinks" ∈ collectPaths tree).
Proof.
  intros data.
  destruct (buildTree data) as [[tree allPaths]|] eqn:Hb;
    [|vm_compute in Hb; discriminate].
  assert (Hp : lit "Drinks#Tea" ∈ categoryPaths data) by (vm_compute; left).
  assert (Hpre : segmentPrefix (lit "Drinks") (lit "Drinks#Tea")).
  { exists 1%nat. split; [vm_compute; lia | vm_compute; reflexivity]. }
  exists tree, allPaths. split; [reflexivity | split; [exact Hp | split]];
    [exact Hpre|].
  apply (proj2 (built_tree_nodes data tree allPaths Hb) (lit "Drinks#Tea"));
    [exact Hp | | exact Hpre].
  vm_compute. repeat constructor.
Defined.

End TreeNodes.

(** ** Select all, unselect all *)

Section ToggleAll.

Lemma areAllSelected_spec (tree : list CategoryNode) (sel : gset jsstring) :
  areAllSelected tree sel = true <-> forall p, p ∈ collectPaths tree -> p ∈ sel.
Proof.
  unfold areAllSelected. rewrite forallb_forall. split.
  - intros Hall p Hp. apply list_elem_of_In in Hp.
    exact (proj1 (bool_decide_eq_true _) (Hall p Hp)).
  - intros Hall p Hp. apply bool_decide_eq_true, Hall.
    now apply list_elem_of_In.
Qed.

Lemma toggleAll_elem (tree : list CategoryNode) (sel : gset jsstring)
    (x : jsstring) :
  x ∈ toggleAll tree sel
  <-> areAllSelected tree sel = false /\ x ∈ collectPaths tree.
Proof.
  unfold toggleAll. destruct (areAllSelected tree sel).
  - rewrite elem_of_empty. split; [tauto | now intros [? _]].
  - rewrite foldl_add_elem, elem_of_empty. tauto.
Qed.

(** X12. The button over the category tree selects every path of the tree
    unless every path is selected already, in which case it selects none;
    on a tree that has a node it therefore flips whether all paths are
    selected. Selected paths that are not in the tree are dropped either
    way. *)
Theorem toggle_all_flips (tree : list CategoryNode) (sel : gset jsstring) :
  tree <> [] ->
  (forall x, x ∈ toggleAll tree sel
             <-> areAllSelected tree sel = false /\ x ∈ collectPaths tree)
  /\ areAllSelected tree (toggleAll tree sel) = negb (areAllSelected tree sel).
Proof.
  intros Htree. split; [intros x; apply toggleAll_elem|].
  destruct (areAllSelected tree sel) eqn:Hall; simpl.
  - apply not_true_is_false. intros Hnow.
    destruct tree as [|[nm p cs] tree]; [contradiction|].
    pose proof (proj1 (areAllSelected_spec _ _) Hnow p) as Hp.
    assert (Hin : p ∈ collectPaths (mkNode nm p cs :: tree)).
    { rewrite collectPaths_cons, dfs_unfold. apply elem_of_app. left. left. }
    specialize (Hp Hin). apply toggleAll_elem in Hp.
    destruct Hp as [Hp _]. congruence.
  - apply areAllSelected_spec. intros p Hp. apply toggleAll_elem. now split.
Qed.

Lemma toggle_all_flips_witness :
  let tree := [mkNode (lit "Drinks") (lit "Drinks")
                 [mkNode (lit "Tea") (lit "Drinks#Tea") []]] in
  let sel : gset jsstring := {[ lit "Drinks"; lit "Juice" ]} in
  areAllSelected tree sel = false
  /\ areAllSelected tree (toggleAll tree sel) = true
  /\ (lit "Juice" ∉ toggleAll tree sel).
Proof.
  intros tree sel.
  destruct (toggle_all_flips tree sel) as [Helem Hflip]; [discriminate|].
  assert (Hall : areAllSelected tree sel = false) by (vm_compute; reflexivity).
  split; [exact Hall | split].
  - now rewrite Hflip, Hall.
  - intros Hin. apply Helem in Hin. destruct Hin as [_ Hin].
    vm_compute in Hin. repeat (apply elem_of_cons in Hin as [Hin|Hin];
                               [discriminate|]).
    now apply elem_of_nil in Hin.
Defined.

End ToggleAll.

(** ** The column order and the column panel *)

Section Columns.

Lemma includesStr_spec (l : list jsstring) (x : jsstring) :
  includesStr l x = true <-> x ∈ l.
Proof. apply bool_decide_eq_true. Qed.

Lemma includesStr_false (l : list jsstring) (x : jsstring) :
  includesStr l x = false <-> x ∉ l.
Proof. apply bool_decide_eq_false. Qed.

Lemma NoDup_List_filter {A} (f : A -> bool) (l : list A) :
  NoDup l -> NoDup (List.filter f l).
Proof.
  induction 1 as [|x l Hx Hnd IH]; simpl; [constructor|].
  destruct (f x); [|exact IH]. constructor; [|exact IH].
  rewrite elem_of_List_filter. tauto.
Qed.

Lemma default_columns_distinct :
  NoDup (SHOWN_BY_DEFAULT_COLUMNS ++ HIDDEN_BY_DEFAULT_COLUMNS).
Proof. apply (bool_decide_unpack _). vm_compute. exact I. Qed.

(** X13. The column order set when the headers change, and again on
    reset, places every header exactly once if no header occurs twice;
    the columns visible by default are headers and come first in it. *)
Theorem default_order_places_headers (headers : list jsstring) :
  NoDup headers ->
  defaultColumnOrder headers ≡ₚ headers
  /\ exists rest,
       defaultColumnOrder headers
       = List.filter (includesStr headers) SHOWN_BY_DEFAULT_COLUMNS ++ rest.
Proof.
  intros Hnd. split; [|unfold defaultColumnOrder; eauto].
  pose proof default_columns_distinct as Hconst.
  apply NoDup_app in Hconst. destruct Hconst as (Hshown & Hdisj & Hhidden).
  unfold defaultColumnOrder.
  set (shown := List.filter (includesStr headers) SHOWN_BY_DEFAULT_COLUMNS).
  set (hiddenToggle :=
         List.filter (includesStr headers) HIDDEN_BY_DEFAULT_COLUMNS).
  set (keep := fun h => negb (includesStr shown h)
                        && negb (includesStr hiddenToggle h)).
  assert (Hkeep : forall x,
             keep x = true <-> (x ∉ shown) /\ (x ∉ hiddenToggle)).
  { intros x. unfold keep.
    now rewrite andb_true_iff, !negb_true_iff, !includesStr_false. }
  apply NoDup_Permutation; [|exact Hnd|].
  - apply NoDup_app. split; [now apply NoDup_List_filter|]. split.
    + intros x Hx Hin. apply elem_of_app in Hin. destruct Hin as [Hin | Hin].
      * apply elem_of_List_filter in Hx, Hin.
        exact (Hdisj x (proj1 Hx) (proj1 Hin)).
      * apply elem_of_List_filter in Hin. destruct Hin as [_ Hin].
        apply Hkeep in Hin. tauto.
    + apply NoDup_app. split; [now apply NoDup_List_filter|].
      split; [|now apply NoDup_List_filter].
      intros x Hx Hin. apply elem_of_List_filter in Hin.
      destruct Hin as [_ Hin]. apply Hkeep in Hin. tauto.
  - intros x. rewrite !elem_of_app. unfold shown at 1, hiddenToggle at 1.
    rewrite !elem_of_List_filter, !includesStr_spec, Hkeep.
    destruct (decide (x ∈ shown)) as [Hs | Hs];
      destruct (decide (x ∈ hiddenToggle)) as [Hh | Hh];
      try (apply elem_of_List_filter in Hs as Hs';
           rewrite includesStr_spec in Hs');
      try (apply elem_of_List_filter in Hh as Hh';
           rewrite includesStr_spec in Hh');
      tauto.
Qed.

Lemma default_order_places_headers_witness :
  let headers := [lit "category"; lit "brand"; lit "name"] in
  defaultColumnOrder headers ≡ₚ headers
  /\ defaultColumnOrder headers = [lit "name"; lit "category"; lit "brand"].
Proof.
  intros headers. split; [|vm_compute; reflexivity].
  apply (default_order_places_headers headers).
  apply (bool_decide_unpack _). vm_compute. exact I.
Defined.

Lemma applyVisibilityCalls_app (order : list jsstring)
    (c1 c2 : list (jsstring * bool)) (v : list jsstring) :
  applyVisibilityCalls order (c1 ++ c2) v
  = applyVisibilityCalls order c2 (applyVisibilityCalls order c1 v).
Proof. unfold applyVisibilityCalls. now rewrite foldl_app. Qed.

Lemma show_elem (order : list jsstring) (column x : jsstring)
    (prev : list jsstring) :
  x ∈ handleColumnVisibilityChange order column true prev
  <-> x ∈ prev \/ x = column.
Proof.
  unfold handleColumnVisibilityChange.
  now rewrite sort_elem, elem_of_app, list_elem_of_singleton.
Qed.

Lemma hide_elem (order : list jsstring) (column x : jsstring)
    (prev : list jsstring) :
  x ∈ handleColumnVisibilityChange order column false prev
  <-> x ∈ prev /\ x <> column.
Proof.
  unfold handleColumnVisibilityChange.
  rewrite elem_of_List_filter, negb_true_iff, bool_decide_eq_false. tauto.
Qed.

Lemma toggle_calls_elem (order visible0 : list jsstring) (b : bool)
    (cols : list jsstring) :
  forall (v : list jsstring) (x : jsstring),
    x ∈ applyVisibilityCalls order
          (List.flat_map
             (fun col =>
                if negb (Bool.eqb (includesStr visible0 col) b)
                then [(col, b)] else [])
             cols) v
    <-> if b then x ∈ v \/ (x ∈ cols /\ x ∉ visible0)
        else x ∈ v /\ ~ (x ∈ cols /\ x ∈ visible0).
Proof.
  destruct b; induction cols as [|col cols IH]; intros v x;
    cbn [List.flat_map];
    try (unfold applyVisibilityCalls; simpl; rewrite elem_of_nil; tauto);
    rewrite applyVisibilityCalls_app, IH, elem_of_cons;
    (destruct (includesStr visible0 col) eqn:Hcol;
     [apply includesStr_spec in Hcol | apply includesStr_false in Hcol]);
    cbn [Bool.eqb negb applyVisibilityCalls foldl fst snd];
    rewrite ?show_elem, ?hide_elem.
  - split; [intros [?|[? ?]]; eauto |].
    intros [?|[[->|?] ?]]; tauto.
  - split.
    + intros [[? | ->] | [? ?]]; tauto.
    + intros [?|[[->|?] ?]]; tauto.
  - split.
    + intros [[Hx Hne] Hn]. split; [exact Hx|].
      intros [[->|Hc] Hv]; tauto.
    + intros [Hx Hn]. split; [split; [exact Hx|]|].
      * intros ->. tauto.
      * tauto.
  - split.
    + intros [Hx Hn]. split; [exact Hx|].
      intros [[->|Hc] Hv]; tauto.
    + intros [Hx Hn]. split; [exact Hx | tauto].
Qed.

(** X14. The button over the column list, through the calls it makes of
    [handleColumnVisibilityChange]: if a listed column is hidden, every
    listed column is visible afterwards and those visible before stay so;
    if all listed columns are visible, they are all hidden afterwards and
    what else was visible stays. The listed columns are all the columns
    but the always hidden ones. *)
Theorem toggle_all_columns (columnOrder columns visibleColumns : list jsstring)
    (x : jsstring) :
  x ∈ applyVisibilityCalls columnOrder
        (ColumnManager.handleToggleAll columns visibleColumns) visibleColumns
  <-> if ColumnManager.areAllVisible columns visibleColumns
      then x ∈ visibleColumns
           /\ x ∉ ColumnManager.normalizedAllColumns columns
      else x ∈ visibleColumns
           \/ x ∈ ColumnManager.normalizedAllColumns columns.
Proof.
  unfold ColumnManager.handleToggleAll.
  rewrite toggle_calls_elem.
  destruct (ColumnManager.areAllVisible columns visibleColumns); simpl.
  - tauto.
  - destruct (decide (x ∈ visibleColumns)); tauto.
Qed.

End Columns.

(** ** Clearing the filters *)

Section ClearFilters.

Context `{Host}.

Lemma deleteKey_elem {V} (column : jsstring) (l : list (jsstring * V))
    (e : jsstring * V) :
  e ∈ deleteKey column l <-> e ∈ l /\ e.1 <> column.
Proof.
  induction l as [|[k v] l IH]; simpl.
  - rewrite elem_of_nil. tauto.
  - destruct (bool_decide_reflect (k = column)) as [-> | Hne];
      rewrite ?elem_of_cons, IH.
    + split; [tauto|]. intros [[-> | He] Hk]; [now simpl in Hk | tauto].
    + split; [|tauto]. intros [-> | He]; [now split; [left|] | tauto].
Qed.

Lemma deleteKey_all {V} (columns : list jsstring) :
  forall l : list (jsstring * V),
    (forall e, e ∈ l -> e.1 ∈ columns) ->
    foldl (fun l column => deleteKey column l) l columns = [].
Proof.
  induction columns as [|c columns IH]; intros l Hkeys; simpl.
  - destruct l as [|e l]; [reflexivity|].
    specialize (Hkeys e (list_elem_of_here _ _)). now apply elem_of_nil in Hkeys.
  - apply IH. intros e He. apply deleteKey_elem in He. destruct He as [He Hne].
    specialize (Hkeys e He). apply elem_of_cons in Hkeys. tauto.
Qed.

Lemma clearing_keeps_view (columns : list jsstring) :
  forall st : ViewState,
    let st' :=
      foldl (fun st column => handleFilterChange column None st) st columns in
    filters st' = foldl (fun l column => deleteKey column l) (filters st) columns
    /\ visibleColumns st' = visibleColumns st
    /\ sortConfig st' = sortConfig st
    /\ searchQuery st' = searchQuery st
    /\ columnTypes st' = columnTypes st
    /\ appliedFormula st' = appliedFormula st
    /\ formulaSortDir st' = formulaSortDir st
    /\ selectedCategories st' = selectedCategories st.
Proof.
  induction columns as [|c columns IH]; intros st; [cbn; tauto|].
  cbn [foldl]. cbn zeta in IH.
  destruct (IH (handleFilterChange c None st))
    as (-> & -> & -> & -> & -> & -> & -> & ->).
  repeat split.
Qed.

(** X15. Clear all in the filter panel, through the calls it makes of
    [handleFilterChange]: if every column that has a filter is among the
    panel's columns, no column filter is left and the sentinel rows are no
    longer hidden, so the rows shown are those that pass the category
    stage and the search. *)
Theorem clear_all_shows_unfiltered (data : list Row)
    (headers columns : list jsstring) (st : ViewState) :
  (forall entry, entry ∈ filters st -> entry.1 ∈ columns) ->
  let st' := FilterPanel.clearAllFilters columns st in
  filters st' = []
  /\ hideUnknownMacros st' = false
  /\ forall row,
       row ∈ processedData data headers st'
       <-> row ∈ searchFilter (searchQuery st) (visibleColumns st)
                  (categoryFilter headers (selectedCategories st) data).
Proof.
  intros Hkeys st'.
  destruct (clearing_keeps_view columns st)
    as (Hf & Hv & Hs & Hq & Ht & Ha & Hd & Hc).
  cbn zeta in Hf, Hv, Hs, Hq, Ht, Ha, Hd, Hc.
  rewrite (deleteKey_all columns (filters st) Hkeys) in Hf.
  assert (Hf' : filters st' = []) by exact Hf.
  assert (Hh' : hideUnknownMacros st' = false) by reflexivity.
  split; [exact Hf' | split; [exact Hh'|]].
  intros row. unfold processedData. rewrite Hf', Hh'.
  change (selectedCategories st') with
    (selectedCategories
       (foldl (fun st column => handleFilterChange column None st) st columns)).
  change (searchQuery st') with
    (searchQuery
       (foldl (fun st column => handleFilterChange column None st) st columns)).
  change (visibleColumns st') with
    (visibleColumns
       (foldl (fun st column => handleFilterChange column None st) st columns)).
  rewrite Hc, Hq, Hv.
  destruct data as [|row0 data].
  - unfold categoryFilter, searchFilter. simpl.
    destruct (_ && _); destruct (searchQuery st); simpl;
      rewrite ?elem_of_nil; tauto.
  - now rewrite sorting_elem.
Qed.

End ClearFilters.

Lemma clear_all_shows_unfiltered_witness :
  let data := [mkRow [cell "name" "soup"; cell "calories" "100500"];
               mkRow [cell "name" "tea"; cell "calories" "2"]] in
  let headers := [lit "name"; lit "calories"] in
  let st :=
    handleFilterChange (lit "name")
      (Some (FText (Some (PArray [lit "tea"])) None))
      (headersChanged headers initialState) in
  let st' := FilterPanel.clearAllFilters headers st in
  processedData (H := sampleHost) data headers st = [mkRow [cell "name" "tea"; cell "calories" "2"]]
  /\ filters st' = []
  /\ forall row, row ∈ data -> row ∈ processedData (H := sampleHost) data headers st'.
Proof.
  intros data headers st st'.
  assert (Hkeys : forall entry, entry ∈ filters st -> entry.1 ∈ headers).
  { intros entry He. vm_compute in He.
    apply list_elem_of_singleton in He. subst entry. left. }
  destruct (clear_all_shows_unfiltered (H := sampleHost) data headers headers
              st Hkeys) as (Hf & _ & Hrows).
  split; [vm_compute; reflexivity | split; [exact Hf|]].
  intros row Hrow. apply Hrows. exact Hrow.
Defined.

(** ** The formula history *)

Section FormulaHistory.

Lemma addFormulaToHistory_unfold (f : jsstring) (prev : list jsstring) :
  addFormulaToHistory f prev
  = f :: take 14 (List.filter (fun x => negb (bool_decide (x = f))) prev).
Proof.
  unfold addFormulaToHistory.
  rewrite (slice_window _ 0 15) by lia. reflexivity.
Qed.

(** X16. The history after a formula is added has the formula first and
    nowhere else, and at most fifteen entries, all of them the formula or
    earlier entries, the earlier ones in their earlier order; it keeps
    every earlier entry if those were fewer than fifteen. It lists no
    formula twice if the earlier history did not. *)
Theorem history_after_add (f : jsstring) (prev : list jsstring) :
  let updated := addFormulaToHistory f prev in
  head updated = Some f
  /\ (f ∉ tail updated)
  /\ (length updated <= 15)%nat
  /\ (forall x, x ∈ updated -> x = f \/ x ∈ prev)
  /\ tail updated `sublist_of` prev
  /\ ((length prev < 15)%nat -> forall x, x ∈ prev -> x ∈ updated)
  /\ (NoDup prev -> NoDup updated).
Proof.
  intros updated. subst updated. rewrite addFormulaToHistory_unfold.
  set (others := List.filter (fun x => negb (bool_decide (x = f))) prev).
  assert (Hothers : forall x, x ∈ others <-> x ∈ prev /\ x <> f).
  { intros x. unfold others.
    now rewrite elem_of_List_filter, negb_true_iff, bool_decide_eq_false. }
  assert (Htake : forall x, x ∈ take 14 others -> x ∈ others).
  { intros x Hx. apply list_elem_of_lookup in Hx. destruct Hx as [i Hi].
    apply lookup_take_Some in Hi. apply list_elem_of_lookup.
    exists i. tauto. }
  assert (Hfresh : f ∉ take 14 others).
  { intros Hin. apply Htake, Hothers in Hin. tauto. }
  cbn [head tail].
  split; [reflexivity | split; [exact Hfresh|]].
  split; [|split; [|split; [|split]]].
  - simpl. rewrite length_take. lia.
  - intros x Hx. apply elem_of_cons in Hx. destruct Hx as [-> | Hx]; [now left|].
    right. apply Htake, Hothers in Hx. tauto.
  - etransitivity; [apply sublist_take | apply List_filter_sublist].
  - intros Hlen x Hx. apply elem_of_cons.
    destruct (decide (x = f)) as [-> | Hne]; [now left | right].
    rewrite take_ge; [now apply Hothers|].
    pose proof (sublist_length _ _ (List_filter_sublist
                 (fun x => negb (bool_decide (x = f))) prev)) as Hle.
    fold others in Hle. lia.
  - intros Hnd. constructor; [exact Hfresh|].
    apply (sublist_NoDup _ others); [|apply sublist_take].
    now apply NoDup_List_filter.
Qed.

Lemma history_after_add_witness :
  let prev := [quoted "price"; quoted "calories"; quoted "price"] in
  let updated := addFormulaToHistory (quoted "calories") prev in
  updated = [quoted "calories"; quoted "price"; quoted "price"]
  /\ head updated = Some (quoted "calories")
  /\ (quoted "calories" ∉ tail updated)
  /\ (length updated <= 15)%nat.
Proof.
  intros prev updated.
  split; [vm_compute; reflexivity|].
  destruct (history_after_add (quoted "calories") prev)
    as (Hhead & Hfresh & Hlen & _).
  exact (conj Hhead (conj Hfresh Hlen)).
Defined.

End FormulaHistory.

(** ** What applying a formula changes *)

Section FormulaOutcome.

Context `{Host}.

Lemma List_filter_nil {A} (f : A -> bool) (l : list A) :
  List.filter f l = [] -> forall x, x ∈ l -> f x = false.
Proof.
  induction l as [|y l IH]; simpl; intros Hnil x Hx.
  - now apply elem_of_nil in Hx.
  - destruct (f y) eqn:Hy; [discriminate|].
    apply elem_of_cons in Hx. destruct Hx as [-> | Hx]; [exact Hy | now apply IH].
Qed.

(** X17. Apply on a formula that is not blank raises exactly one toast.
    If it is an error toast, nothing else of the state changes. If it is
    the success toast, the trimmed formula is the applied formula and the
    formula input, the formula sort is switched off, every quoted
    reference is a header, the division check found nothing, the formula
    compiled, and on the first row, if there is one, it ran to a value
    that is not NaN. *)
Theorem apply_outcome (headers : list jsstring) (data : list Row)
    (st : ViewState) :
  trim (formulaInput st) <> [] ->
  let formula := trim (formulaInput st) in
  let st' := validateAndApplyFormula headers data st in
  exists t,
    toasts st' = toasts st ++ [t]
    /\ (type t = error -> st' = addToast t st)
    /\ (type t = success ->
        appliedFormula st' = formula
        /\ formulaInput st' = formula
        /\ formulaSortDir st' = None
        /\ sortConfig st' = sortConfig st
        /\ (forall col, col ∈ quotedRefs formula -> col ∈ headers)
        /\ detectsDivisionByZero formula = false
        /\ exists fn,
             compileFormula formula = Some fn
             /\ forall row0, head data = Some row0 ->
                  exists v, fn row0 = Some v /\ isNaN v = false).
Proof.
  intros Hblank formula st'. subst st'. unfold validateAndApplyFormula.
  fold formula. destruct formula as [|c formula'] eqn:Hformula;
    [contradiction|]. rewrite <- Hformula.
  destruct (List.filter _ (quotedRefs formula)) as [|m ms] eqn:Hmiss;
    [|eexists; split; [reflexivity|]; split; [reflexivity | intros [=]]].
  pose proof (List_filter_nil _ _ Hmiss) as Hrefs.
  assert (Hcols : forall col, col ∈ quotedRefs formula -> col ∈ headers).
  { intros col Hcol. apply includesStr_spec.
    specialize (Hrefs col Hcol). now apply negb_false_iff in Hrefs. }
  destruct (detectsDivisionByZero formula) eqn:Hdiv;
    [eexists; split; [reflexivity|]; split; [reflexivity | intros [=]]|].
  destruct (compileFormula formula) as [fn|] eqn:Hfn;
    [|eexists; split; [reflexivity|]; split; [reflexivity | intros [=]]].
  destruct data as [|row0 data].
  - eexists. split; [reflexivity|]. split; [intros [=]|]. intros _.
    repeat (split; [first [reflexivity | assumption]|]).
    exists fn. split; [reflexivity|]. intros row0 [=].
  - destruct (fn row0) as [testVal|] eqn:Hval;
      [|eexists; split; [reflexivity|]; split; [reflexivity | intros [=]]].
    destruct (isNaN testVal) eqn:Hnan;
      [eexists; split; [reflexivity|]; split; [reflexivity | intros [=]]|].
    eexists. split; [reflexivity|]. split; [intros [=]|]. intros _.
    repeat (split; [first [reflexivity | assumption]|]).
    exists fn. split; [reflexivity|]. intros r [= <-]. now exists testVal.
Qed.

End FormulaOutcome.

Lemma apply_outcome_witness :
  let headers := [lit "price"; lit "weight"] in
  let data := [mkRow [cell "price" "10"; cell "weight" "4"]] in
  let st := setFormulaInput (lit " " ++ quoted "price" ++ lit "/" ++ quoted "weight")
              initialState in
  let st' := validateAndApplyFormula (H := sampleHost) headers data st in
  trim (formulaInput st) <> []
  /\ appliedFormula st' = quoted "price" ++ lit "/" ++ quoted "weight"
  /\ exists t, toasts st' = toasts st ++ [t] /\ type t = success.
Proof.
  intros headers data st st'.
  assert (Hblank : trim (formulaInput st) <> []) by (vm_compute; discriminate).
  destruct (apply_outcome (H := sampleHost) headers data st Hblank)
    as (t & Htoasts & Herr & Hok).
  assert (Ht : type t = success).
  { assert (Hlast : last (toasts st') = Some t).
    { unfold st'. rewrite Htoasts. apply last_snoc. }
    vm_compute in Hlast. now injection Hlast as <-. }
  split; [exact Hblank | split].
  - destruct (Hok Ht) as (Happlied & _).
    etransitivity; [exact Happlied | vm_compute; reflexivity].
  - exists t. now split.
Defined.

Lemma toggle_all_columns_witness :
  let columns := [lit "name"; lit "html_path"; lit "price"] in
  let order := [lit "name"; lit "price"; lit "html_path"] in
  let visible := [lit "price"] in
  ColumnManager.areAllVisible columns visible = false
  /\ applyVisibilityCalls order
       (ColumnManager.handleToggleAll columns visible) visible
     = [lit "name"; lit "price"]
  /\ (lit "name"
      ∈ applyVisibilityCalls order
          (ColumnManager.handleToggleAll columns visible) visible).
Proof.
  intros columns order visible.
  split; [vm_compute; reflexivity | split; [vm_compute; reflexivity|]].
  apply (toggle_all_columns order columns visible (lit "name")).
  assert (Hall : ColumnManager.areAllVisible columns visible = false)
    by (vm_compute; reflexivity).
  rewrite Hall. right. vm_compute. left.
Defined.

(** ** The sign of a difference of Number values *)

Section NumberOrder.

Local Open Scope Q_scope.

Lemma two_positive : 0 < inject_Z 2.
Proof. reflexivity. Qed.

Lemma two_pow_pos (z : Z) : 0 < inject_Z 2 ^ z.
Proof. apply Qpower_0_lt, two_positive. Qed.

Lemma two_pow_mono (a b : Z) : (a <= b)%Z -> inject_Z 2 ^ a <= inject_Z 2 ^ b.
Proof. intros Hab. apply Qpower_le_compat_l; [exact Hab | discriminate]. Qed.

Lemma log2_lower (q : Q) :
  0 < q ->
  inject_Z 2 ^ (Z.log2 (Qnum q) - Z.log2 (Zpos (Qden q)) - 1) <= q.
Proof.
  intros Hq. destruct q as [n d]. cbn [Qnum Qden].
  assert (Hn : (0 < n)%Z) by (unfold Qlt in Hq; simpl in Hq; lia).
  pose proof (Z.log2_nonneg n) as Ha. pose proof (Z.log2_nonneg (Zpos d)) as Hb.
  destruct (Z.log2_spec n Hn) as [Hlo _].
  destruct (Z.log2_spec (Zpos d) eq_refl) as [_ Hhi].
  replace (Z.log2 n - Z.log2 (Zpos d) - 1)%Z
    with (Z.log2 n - Z.succ (Z.log2 (Zpos d)))%Z by lia.
  rewrite Qpower_minus by discriminate.
  assert (E1 : inject_Z 2 ^ Z.log2 n == inject_Z (2 ^ Z.log2 n))
    by (symmetry; apply Zpower_Qpower; lia).
  assert (E2 : inject_Z 2 ^ Z.succ (Z.log2 (Zpos d))
               == inject_Z (2 ^ Z.succ (Z.log2 (Zpos d))))
    by (symmetry; apply Zpower_Qpower; lia).
  rewrite E1, E2.
  apply Qle_shift_div_r.
  - change 0 with (inject_Z 0). rewrite <- Zlt_Qlt.
    apply Z.pow_pos_nonneg; lia.
  - revert Hlo Hhi. generalize (2 ^ Z.log2 n)%Z (2 ^ Z.succ (Z.log2 (Zpos d)))%Z.
    intros X Y Hlo Hhi. unfold Qle, Qmult, inject_Z. cbn [Qnum Qden].
    nia.
Qed.

Lemma roundPos_pos (q : Q) :
  0 < q -> inject_Z 2 ^ (-1074) <= q ->
  match roundPos q with Some r => 0 < r | None => True end.
Proof.
  intros Hq Htiny. unfold roundPos.
  set (k := (Z.log2 (Qnum q) - Z.log2 (Zpos (Qden q)))%Z).
  set (e2 := if Qle_bool (inject_Z 2 ^ k) q then k else (k - 1)%Z).
  set (p := Z.max (e2 - 52) (-1074)).
  set (scaled := q / inject_Z 2 ^ p).
  set (fl := Qfloor scaled).
  set (m := match (scaled - inject_Z fl ?= 1 # 2) with
            | Lt => fl
            | Gt => (fl + 1)%Z
            | Eq => if Z.even fl then fl else (fl + 1)%Z
            end).
  destruct (Qle_bool (inject_Z 2 ^ 1024) _); [exact I|].
  rewrite Qred_correct.
  assert (He2 : (e2 <= k)%Z) by (subst e2; destruct (Qle_bool _ q); lia).
  assert (Hp : inject_Z 2 ^ p <= q).
  { subst p. destruct (Z.max_spec (e2 - 52) (-1074)) as [[_ ->] | [_ ->]];
      [exact Htiny|].
    eapply Qle_trans; [|apply (log2_lower q Hq)].
    apply two_pow_mono. fold k. lia. }
  assert (Hscaled : 1 <= scaled).
  { subst scaled. apply Qle_shift_div_l; [apply two_pow_pos|].
    now rewrite Qmult_1_l. }
  assert (Hfl : (1 <= fl)%Z).
  { subst fl. change 1%Z with (Qfloor 1). now apply Qfloor_resp_le. }
  assert (Hm : (1 <= m)%Z).
  { subst m. destruct (_ ?= _); [destruct (Z.even fl)| |]; lia. }
  apply Qmult_lt_0_compat; [|apply two_pow_pos].
  change 0 with (inject_Z 0). rewrite <- Zlt_Qlt. lia.
Qed.

Lemma sgn_toNumber (q : Q) :
  q == 0 \/ inject_Z 2 ^ (-1074) <= q \/ q <= - inject_Z 2 ^ (-1074) ->
  sgn (toNumber q) = (q ?= 0).
Proof.
  intros Hq. unfold toNumber.
  destruct (q ?= 0) eqn:Hcmp.
  - reflexivity.
  - apply Qlt_alt in Hcmp.
    assert (Hneg : 0 < - q).
    { apply (Qopp_lt_compat q 0) in Hcmp. exact Hcmp. }
    assert (Htiny : inject_Z 2 ^ (-1074) <= - q).
    { destruct Hq as [Hq | [Hq | Hq]].
      - rewrite Hq in Hcmp. now apply Qlt_irrefl in Hcmp.
      - exfalso. apply (Qlt_irrefl 0).
        eapply Qlt_le_trans; [apply (two_pow_pos (-1074))|].
        eapply Qle_trans; [exact Hq|]. now apply Qlt_le_weak.
      - apply Qopp_le_compat in Hq. now rewrite Qopp_involutive in Hq. }
    pose proof (roundPos_pos (- q) Hneg Htiny) as Hr.
    destruct (roundPos (- q)) as [r|]; [|reflexivity].
    simpl. apply Qlt_alt. rewrite Qred_correct.
    apply (Qopp_lt_compat 0 r) in Hr. exact Hr.
  - apply Qgt_alt in Hcmp.
    assert (Htiny : inject_Z 2 ^ (-1074) <= q).
    { destruct Hq as [Hq | [Hq | Hq]].
      - rewrite Hq in Hcmp. now apply Qlt_irrefl in Hcmp.
      - exact Hq.
      - exfalso. apply (Qlt_irrefl 0).
        eapply Qlt_le_trans; [exact Hcmp|].
        eapply Qle_trans; [exact Hq|].
        apply Qlt_le_weak. apply (Qopp_lt_compat 0 _ (two_pow_pos (-1074))). }
    pose proof (roundPos_pos q Hcmp Htiny) as Hr.
    destruct (roundPos q) as [r|]; [|reflexivity].
    simpl. now apply Qgt_alt.
Qed.

Lemma onGrid_sub (a b : Q) :
  onGrid a -> onGrid b ->
  a - b == 0 \/ inject_Z 2 ^ (-1074) <= a - b
  \/ a - b <= - inject_Z 2 ^ (-1074).
Proof.
  intros [za Ha] [zb Hb].
  set (t := inject_Z 2 ^ (-1074)) in *.
  assert (Ht : 0 < t) by apply two_pow_pos.
  assert (Hd : a - b == inject_Z (za - zb) * t).
  { rewrite Ha, Hb. unfold Zminus. rewrite inject_Z_plus, inject_Z_opp. ring. }
  destruct (Z.lt_trichotomy (za - zb) 0) as [Hlt | [Heq | Hgt]].
  - right. right. rewrite Hd.
    assert (E : - t == inject_Z (-1) * t) by ring. rewrite E.
    apply Qmult_le_compat_r; [|now apply Qlt_le_weak].
    rewrite <- Zle_Qle. lia.
  - left. rewrite Hd, Heq. ring.
  - right. left. rewrite Hd.
    assert (E : t == inject_Z 1 * t) by ring. rewrite E at 1.
    apply Qmult_le_compat_r; [|now apply Qlt_le_weak].
    rewrite <- Zle_Qle. lia.
Qed.

Lemma roundPos_grid (q r : Q) : roundPos q = Some r -> onGrid r.
Proof.
  unfold roundPos.
  set (k := (Z.log2 (Qnum q) - Z.log2 (Zpos (Qden q)))%Z).
  set (e2 := if Qle_bool (inject_Z 2 ^ k) q then k else (k - 1)%Z).
  set (p := Z.max (e2 - 52) (-1074)).
  set (scaled := q / inject_Z 2 ^ p).
  set (fl := Qfloor scaled).
  set (m := match (scaled - inject_Z fl ?= 1 # 2) with
            | Lt => fl
            | Gt => (fl + 1)%Z
            | Eq => if Z.even fl then fl else (fl + 1)%Z
            end).
  destruct (Qle_bool (inject_Z 2 ^ 1024) _); [discriminate|].
  intros [= <-]. exists (m * 2 ^ (p + 1074))%Z.
  rewrite Qred_correct, inject_Z_mult.
  assert (Hp : (0 <= p + 1074)%Z) by (subst p; lia).
  rewrite (Zpower_Qpower 2 _ Hp), <- Qmult_assoc.
  rewrite <- Qpower_plus by discriminate.
  now replace (p + 1074 + -1074)%Z with p by lia.
Qed.

Lemma toNumber_representable (q : Q) : representable (toNumber q).
Proof.
  unfold toNumber. destruct (q ?= 0).
  - exists 0%Z. ring.
  - destruct (roundPos (- q)) as [r|] eqn:Hr; [|exact I].
    destruct (roundPos_grid _ _ Hr) as [z Hz]. exists (- z)%Z.
    rewrite Qred_correct, Hz, inject_Z_opp. ring.
  - destruct (roundPos q) as [r|] eqn:Hr; [|exact I].
    exact (roundPos_grid _ _ Hr).
Qed.

Lemma parseFloat_representable (v : option jsstring) :
  representable (parseFloat v).
Proof.
  unfold parseFloat, parseFloatStr.
  destruct (takeSign _) as [neg t].
  destruct (startsWith _ t); [now destruct neg|].
  destruct (spanDigits t) as [ip r1].
  destruct (match r1 with 46%N :: r => spanDigits r | _ => ([], r1) end)
    as [fp r2].
  destruct ip, fp; try exact I; apply toNumber_representable.
Qed.

Lemma integer_representable (z : Z) : representable (Num (inject_Z z)).
Proof.
  exists (z * 2 ^ 1074)%Z.
  rewrite inject_Z_mult, (Zpower_Qpower 2 1074) by lia.
  rewrite <- Qmult_assoc, <- Qpower_plus by discriminate.
  change (1074 + -1074)%Z with 0%Z. simpl. ring.
Qed.

Lemma sgn_sub_Num (a b : Q) :
  onGrid a -> onGrid b -> sgn (sub (Num a) (Num b)) = (a ?= b).
Proof.
  intros Ha Hb. simpl. rewrite sgn_toNumber by now apply onGrid_sub.
  destruct (a ?= b) eqn:Hab.
  - apply Qeq_alt. apply Qeq_alt in Hab. rewrite Hab. ring.
  - apply Qlt_alt. apply Qlt_alt in Hab.
    apply (Qplus_lt_l _ _ b). now ring_simplify.
  - apply Qgt_alt. apply Qgt_alt in Hab.
    apply (Qplus_lt_l _ _ b). now ring_simplify.
Qed.

Lemma Qle_bool_false (a b : Q) : Qle_bool a b = false <-> (a ?= b) = Gt.
Proof.
  rewrite <- Qgt_alt, <- not_true_iff_false, Qle_bool_iff. split.
  - apply Qnot_le_lt.
  - apply Qlt_not_le.
Qed.

Lemma sgn_sub_gt (x y : number) :
  representable x -> representable y ->
  isNaN x = false -> isNaN y = false ->
  sgn (sub x y) = Gt <-> le x y = false.
Proof.
  intros Hx Hy Hnx Hny.
  destruct x as [| | |a], y as [| | |b]; try discriminate;
    try (simpl; split; congruence).
  rewrite sgn_sub_Num by assumption. simpl. now rewrite Qle_bool_false.
Qed.

Lemma sgn_sub_eq (x y : number) :
  representable x -> representable y ->
  isNaN x = false -> isNaN y = false ->
  sgn (sub x y) = Eq <-> strictEq x y = true.
Proof.
  intros Hx Hy Hnx Hny.
  destruct x as [| | |a], y as [| | |b]; try discriminate;
    try (simpl; split; congruence).
  rewrite sgn_sub_Num by assumption. simpl.
  now rewrite Qeq_bool_iff, Qeq_alt.
Qed.

Lemma number_le_total (x y : number) :
  isNaN x = false -> isNaN y = false -> le x y = false -> le y x = true.
Proof.
  destruct x as [| | |a], y as [| | |b]; try discriminate; try reflexivity.
  simpl. intros _ _ Hab. apply Qle_bool_false in Hab. apply Qgt_alt in Hab.
  apply Qle_bool_iff. now apply Qlt_le_weak.
Qed.

Lemma number_le_trans (x y z : number) :
  le x y = true -> le y z = true -> le x z = true.
Proof.
  destruct x as [| | |a], y as [| | |b], z as [| | |c];
    try discriminate; try reflexivity.
  simpl. rewrite !Qle_bool_iff. apply Qle_trans.
Qed.

Lemma strictEq_class (x y v : number) :
  strictEq x v = true -> strictEq y v = true -> strictEq x y = true.
Proof.
  destruct x as [| | |a], y as [| | |b], v as [| | |c];
    try discriminate; try reflexivity.
  simpl. rewrite !Qeq_bool_iff. intros -> ->. reflexivity.
Qed.

End NumberOrder.

(** ** Insertion by a comparator that follows an order *)

Section InsertionSort.

Context {A : Type} (cmp : A -> A -> number) (before : A -> A -> bool)
  (ok : A -> Prop).

Hypothesis cmp_before :
  forall x y, ok x -> ok y -> sgn (cmp x y) = Gt <-> before x y = false.
Hypothesis before_total :
  forall x y, ok x -> ok y -> before x y = false -> before y x = true.
Hypothesis before_trans :
  forall x y z, ok x -> ok y -> ok z ->
                before x y = true -> before y z = true -> before x z = true.

Lemma inOrder_cons (x : A) (l : list A) :
  inOrder before (x :: l)
  <-> (forall y, y ∈ l -> before x y = true) /\ inOrder before l.
Proof.
  split.
  - intros Hord. split.
    + intros y Hy. apply list_elem_of_lookup in Hy. destruct Hy as [j Hj].
      apply (Hord 0%nat (S j) x y); [lia | reflexivity | exact Hj].
    + intros i j a b Hij Ha Hb.
      apply (Hord (S i) (S j) a b); [lia | exact Ha | exact Hb].
  - intros [Hx Hl] i j a b Hij Ha Hb.
    destruct j as [|j]; [lia|]. simpl in Hb.
    destruct i as [|i]; simpl in Ha.
    + injection Ha as <-. apply Hx. apply list_elem_of_lookup. now exists j.
    + apply (Hl i j a b); [lia | exact Ha | exact Hb].
Qed.

Lemma insertBy_inOrder (x : A) (l : list A) :
  ok x -> (forall y, y ∈ l -> ok y) ->
  inOrder before l -> inOrder before (insertBy cmp x l).
Proof.
  intros Hx. induction l as [|y l IH]; intros Hok Hord; simpl.
  - apply inOrder_cons. split; [|exact Hord].
    intros y Hy. now apply elem_of_nil in Hy.
  - assert (Hy : ok y) by (apply Hok; left).
    assert (Hl : forall z, z ∈ l -> ok z) by (intros z Hz; apply Hok; now right).
    apply inOrder_cons in Hord. destruct Hord as [Hyl Hord].
    destruct (sgn (cmp x y)) eqn:Hcmp.
    + assert (Hxy : before x y = true).
      { destruct (before x y) eqn:Hb; [reflexivity|].
        apply cmp_before in Hb; [congruence | exact Hx | exact Hy]. }
      apply inOrder_cons. split; [|apply inOrder_cons; now split].
      intros z Hz. apply elem_of_cons in Hz. destruct Hz as [-> | Hz];
        [exact Hxy|].
      apply (before_trans x y z); auto.
    + assert (Hxy : before x y = true).
      { destruct (before x y) eqn:Hb; [reflexivity|].
        apply cmp_before in Hb; [congruence | exact Hx | exact Hy]. }
      apply inOrder_cons. split; [|apply inOrder_cons; now split].
      intros z Hz. apply elem_of_cons in Hz. destruct Hz as [-> | Hz];
        [exact Hxy|].
      apply (before_trans x y z); auto.
    + apply inOrder_cons. split; [|now apply IH].
      intros z Hz. apply insertBy_elem in Hz. destruct Hz as [-> | Hz];
        [|now apply Hyl].
      apply before_total; [exact Hx | exact Hy|].
      now apply cmp_before.
Qed.

Lemma sort_inOrder (l : list A) :
  (forall y, y ∈ l -> ok y) -> inOrder before (sort cmp l).
Proof.
  unfold sort. induction l as [|x l IH]; intros Hok; simpl.
  - intros i j a b _ Ha. now rewrite lookup_nil in Ha.
  - apply insertBy_inOrder.
    + apply Hok. left.
    + intros y Hy. apply Hok. right. exact (proj1 (sort_elem cmp y l) Hy).
    + apply IH. intros y Hy. apply Hok. now right.
Qed.

Variable P : A -> bool.

Hypothesis P_ties :
  forall x y, ok x -> ok y -> P x = true -> P y = true -> sgn (cmp x y) <> Gt.

Lemma insertBy_filter (x : A) (l : list A) :
  ok x -> (forall y, y ∈ l -> ok y) ->
  List.filter P (insertBy cmp x l) = List.filter P (x :: l).
Proof.
  intros Hx. induction l as [|y l IH]; intros Hok; [reflexivity|].
  assert (Hy : ok y) by (apply Hok; left).
  assert (Hl : forall z, z ∈ l -> ok z) by (intros z Hz; apply Hok; now right).
  cbn [insertBy]. destruct (sgn (cmp x y)) eqn:Hcmp; try reflexivity.
  cbn [List.filter]. rewrite (IH Hl). cbn [List.filter].
  destruct (P x) eqn:Hpx, (P y) eqn:Hpy; try reflexivity.
  now destruct (P_ties x y Hx Hy Hpx Hpy).
Qed.

Lemma sort_filter (l : list A) :
  (forall y, y ∈ l -> ok y) ->
  List.filter P (sort cmp l) = List.filter P l.
Proof.
  unfold sort. induction l as [|x l IH]; intros Hok; [reflexivity|].
  cbn [foldr]. rewrite insertBy_filter.
  - cbn [List.filter]. rewrite IH; [reflexivity|].
    intros y Hy. apply Hok. now right.
  - apply Hok. left.
  - intros y Hy. apply Hok. right. exact (proj1 (sort_elem cmp y l) Hy).
Qed.

End InsertionSort.

(** ** The order of the sorted rows *)

Section SortedRows.

Context `{Host}.

Lemma sort_by_value (cmp : Row -> Row -> number) (value : Row -> number)
    (d : direction) (rows : list Row) :
  (forall a b, a ∈ rows -> b ∈ rows ->
               cmp a b = match d with
                         | asc => sub (value a) (value b)
                         | desc => sub (value b) (value a)
                         end) ->
  (forall row, row ∈ rows ->
               representable (value row) /\ isNaN (value row) = false) ->
  inOrder (byDirection d value) (sort cmp rows)
  /\ forall v, List.filter (sameValue value v) (sort cmp rows)
               = List.filter (sameValue value v) rows.
Proof.
  intros Hcmp Hval.
  assert (Hgt : forall x y, x ∈ rows -> y ∈ rows ->
                  sgn (cmp x y) = Gt <-> byDirection d value x y = false).
  { intros x y Hx Hy. rewrite (Hcmp x y Hx Hy).
    destruct (Hval x Hx) as [Hrx Hnx], (Hval y Hy) as [Hry Hny].
    destruct d; simpl; now apply sgn_sub_gt. }
  split.
  - apply (sort_inOrder cmp (byDirection d value) (fun row => row ∈ rows));
      [exact Hgt | | | auto].
    + intros x y Hx Hy. destruct (Hval x Hx) as [_ Hnx], (Hval y Hy) as [_ Hny].
      destruct d; simpl; now apply number_le_total.
    + intros x y z _ _ _. destruct d; simpl; [apply number_le_trans|].
      intros Hxy Hyz. exact (number_le_trans _ _ _ Hyz Hxy).
  - intros v.
    apply (sort_filter cmp (fun row => row ∈ rows)); [|auto].
    intros x y Hx Hy Hpx Hpy Hcontra. rewrite (Hcmp x y Hx Hy) in Hcontra.
    destruct (Hval x Hx) as [Hrx Hnx], (Hval y Hy) as [Hry Hny].
    unfold sameValue in Hpx, Hpy.
    destruct d.
    + pose proof (strictEq_class _ _ _ Hpx Hpy) as Heq.
      apply sgn_sub_eq in Heq; [congruence | assumption..].
    + pose proof (strictEq_class _ _ _ Hpy Hpx) as Heq.
      apply sgn_sub_eq in Heq; [congruence | assumption..].
Qed.

Lemma formulaKey_value (fn : Row -> number) (row : Row) :
  representable (fn row) ->
  representable (formulaKey fn row) /\ isNaN (formulaKey fn row) = false.
Proof.
  unfold formulaKey. destruct (fn row); simpl; auto.
Qed.

Lemma inOrder_nil {A} (before : A -> A -> bool) : inOrder before [].
Proof. intros i j a b _ Ha. now rewrite lookup_nil in Ha. Qed.

(** X18. Under an applied formula with a formula sort direction, if the
    formula value of every row shown is a Number value, the rows shown
    stand in the order of their formula values, NaN counted as negative
    infinity: never a higher value before a lower one when ascending,
    never a lower before a higher when descending. Rows of the same value
    stand in the order they have in the data. *)
Theorem formula_sort_orders (data : list Row) (headers : list jsstring)
    (st : ViewState) (fn : Row -> number) (d : direction) :
  buildFormulaFn (appliedFormula st) = Some fn ->
  formulaSortDir st = Some d ->
  (forall row, row ∈ processedData data headers st -> representable (fn row)) ->
  inOrder (byDirection d (formulaKey fn)) (processedData data headers st)
  /\ forall v,
       List.filter (sameValue (formulaKey fn) v) (processedData data headers st)
       `sublist_of` data.
Proof.
  intros Hfn Hd. unfold processedData.
  destruct data as [|row0 data]; [split; [apply inOrder_nil | reflexivity]|].
  rewrite Hfn, Hd. cbn [sorting]. intros Hval.
  set (rows := columnFilters _ _ _) in *.
  destruct (sort_by_value (formulaCompare fn d) (formulaKey fn) d rows)
    as [Hord Hstable].
  - intros a b _ _. now destruct d.
  - intros row Hrow. apply formulaKey_value, Hval. now apply sort_elem.
  - split; [exact Hord|]. intros v. rewrite Hstable.
    etransitivity; [apply List_filter_sublist | apply stages_sublist].
Qed.

(** X19. Under a column sort, with no formula sort switched on, if the
    cell of the sort column parses as a number in every row shown, the
    rows shown stand in the order of these numbers, ascending or
    descending as the sort says, and rows of the same number stand in the
    order they have in the data. *)
Theorem column_sort_orders (data : list Row) (headers : list jsstring)
    (st : ViewState) (cfg : SortConfig) :
  sortConfig st = Some cfg ->
  buildFormulaFn (appliedFormula st) = None \/ formulaSortDir st = None ->
  (forall row, row ∈ processedData data headers st ->
               isNaN (parseFloat (row !! key cfg)) = false) ->
  let value := fun row : Row => parseFloat (row !! key cfg) in
  inOrder (byDirection (dir cfg) value) (processedData data headers st)
  /\ forall v,
       List.filter (sameValue value v) (processedData data headers st)
       `sublist_of` data.
Proof.
  intros Hcfg Hoff Hval value. revert Hval. unfold processedData.
  destruct data as [|row0 data];
    [intros _; split; [apply inOrder_nil | reflexivity]|].
  rewrite Hcfg.
  set (rows := columnFilters _ _ _) in *.
  assert (Hsorting : sorting (buildFormulaFn (appliedFormula st))
                       (formulaSortDir st) (Some cfg) rows
                     = sort (columnCompare cfg) rows).
  { destruct Hoff as [-> | ->]; [reflexivity|].
    now destruct (buildFormulaFn _). }
  rewrite Hsorting. intros Hval.
  assert (Hnum : forall row, row ∈ rows -> isNaN (value row) = false).
  { intros row Hrow. apply Hval. now apply sort_elem. }
  destruct (sort_by_value (columnCompare cfg) value (dir cfg) rows)
    as [Hord Hstable].
  - intros a b Ha Hb. unfold columnCompare.
    fold (value a). fold (value b).
    now rewrite (Hnum a Ha), (Hnum b Hb).
  - intros row Hrow. split; [apply parseFloat_representable | now apply Hnum].
  - split; [exact Hord|]. intros v. rewrite Hstable.
    etransitivity; [apply List_filter_sublist | apply stages_sublist].
Qed.

End SortedRows.

Lemma Qle_bool_inject (a b : Z) :
  Qle_bool (inject_Z a) (inject_Z b) = (a <=? b)%Z.
Proof. unfold Qle_bool. simpl. now rewrite !Z.mul_1_r. Qed.

(** X20. Making a column visible leaves the columns visible before and
    the new one, each as often as before, standing by their place in the
    column order; columns the order does not have come first. *)
Theorem shown_columns_in_order (columnOrder : list jsstring)
    (column : jsstring) (prev : list jsstring) :
  let shown := handleColumnVisibilityChange columnOrder column true prev in
  inOrder (fun a b => (indexOf columnOrder a <=? indexOf columnOrder b)%Z) shown
  /\ shown ≡ₚ prev ++ [column].
Proof.
  intros shown. split; [|apply sort_perm].
  apply (sort_inOrder (byColumnOrder columnOrder) _ (fun _ => True)); auto.
  - intros x y _ _. unfold byColumnOrder.
    rewrite sgn_sub_gt by
      (try apply integer_representable; reflexivity).
    simpl. now rewrite Qle_bool_inject.
  - intros x y _ _ Hxy. apply Z.leb_le. apply Z.leb_gt in Hxy. lia.
  - intros x y z _ _ _. rewrite !Z.leb_le. lia.
Qed.

Lemma refValue_representable (row : Row) (col : jsstring) :
  representable (refValue row col).
Proof.
  unfold refValue, orZero.
  destruct (truthy _); [apply parseFloat_representable|].
  exact (integer_representable 0).
Qed.

Lemma formula_sort_orders_witness :
  let headers := [lit "price"] in
  let data := [mkRow [cell "price" "3"]; mkRow [cell "price" "n/a"];
               mkRow [cell "price" "2"]] in
  let st :=
    applyFormulaSort desc (setAppliedFormula (quoted "price") initialState) in
  let fn := fun row : Row => refValue row (lit "price") in
  buildFormulaFn (H := sampleHost) (appliedFormula st) = Some fn
  /\ formulaSortDir st = Some desc
  /\ processedData (H := sampleHost) data headers st
     = [mkRow [cell "price" "3"]; mkRow [cell "price" "2"];
        mkRow [cell "price" "n/a"]]
  /\ inOrder (byDirection desc (formulaKey fn))
       (processedData (H := sampleHost) data headers st).
Proof.
  intros headers data st fn.
  assert (Hfn : buildFormulaFn (H := sampleHost) (appliedFormula st) = Some fn)
    by (cbv -[refValue]; reflexivity).
  assert (Hd : formulaSortDir st = Some desc)
    by (cbv -[refValue]; reflexivity).
  split; [exact Hfn | split; [exact Hd | split; [vm_compute; reflexivity|]]].
  apply (formula_sort_orders (H := sampleHost) data headers st fn desc Hfn Hd).
  intros row _. apply refValue_representable.
Defined.

Lemma column_sort_orders_witness :
  let headers := [lit "price"] in
  let data := [mkRow [cell "price" "3"]; mkRow [cell "price" "10"];
               mkRow [cell "price" "2"]] in
  let st := handleSort (lit "price") initialState in
  let cfg := {| key := lit "price"; dir := asc |} in
  sortConfig st = Some cfg
  /\ processedData (H := sampleHost) data headers st
     = [mkRow [cell "price" "2"]; mkRow [cell "price" "3"];
        mkRow [cell "price" "10"]]
  /\ inOrder (byDirection asc (fun row : Row => parseFloat (row !! lit "price")))
       (processedData (H := sampleHost) data headers st).
Proof.
  intros headers data st cfg.
  assert (Hcfg : sortConfig st = Some cfg) by reflexivity.
  assert (Hout : processedData (H := sampleHost) data headers st
                 = [mkRow [cell "price" "2"]; mkRow [cell "price" "3"];
                    mkRow [cell "price" "10"]])
    by (vm_compute; reflexivity).
  split; [exact Hcfg | split; [exact Hout|]].
  apply (column_sort_orders (H := sampleHost) data headers st cfg Hcfg).
  - right. reflexivity.
  - intros row Hrow. rewrite Hout in Hrow.
    repeat (apply elem_of_cons in Hrow as [-> | Hrow];
            [vm_compute; reflexivity|]).
    now apply elem_of_nil in Hrow.
Defined.

(** ** Categories and the rows shown *)

Section CategoryRows.

Context `{Host}.


Lemma segmentPrefix_refl (p : jsstring) : segmentPrefix p p.
Proof.
  exists (length (split HASH p)). split.
  - pose proof (split_not_nil HASH p).
    destruct (split HASH p); [contradiction | simpl; lia].
  - now rewrite firstn_all, join_split.
Qed.

Lemma buildTree_covers (data : list Row) (tree : list CategoryNode)
    (allPaths : list jsstring) (row : Row) :
  buildTree data = Some (tree, allPaths) ->
  row ∈ data -> categorised row = true ->
  Forall (fun part => inheritedName part = false)
    (split HASH (categoryPath row)) ->
  categoryPath row ∈ collectPaths tree.
Proof.
  intros Hb Hrow Hc Hown.
  pose proof (buildTree_paths _ _ _ Hb) as ->.
  destruct (foldl_addRow_nodes data [] [] tree _ Hb) as [_ Hcover];
    try constructor.
  - intros q Hq. now apply elem_of_nil in Hq.
  - intros p q Hp. now apply elem_of_nil in Hp.
  - apply (Hcover (categoryPath row)); [|exact Hown | apply segmentPrefix_refl].
    unfold categoryPaths. apply list_elem_of_In, in_map, filter_In.
    split; [now apply list_elem_of_In | exact Hc].
Qed.


Lemma handleReset_view (headers : list jsstring)
    (categoriesTree : list CategoryNode) (st : ViewState) :
  let st' := handleReset headers categoriesTree st in
  sortConfig st' = None /\ formulaSortDir st' = None
  /\ appliedFormula st' = [] /\ filters st' = [] /\ searchQuery st' = []
  /\ hideUnknownMacros st' = true
  /\ selectedCategories st' = list_to_set (collectPaths categoriesTree).
Proof. destruct headers; repeat split. Qed.

(** X22. Reset: afterwards the rows shown are rows of the data in the
    order of the data. With the tree built from the data, among them is
    every row that has a category with no segment naming a property of
    [Object.prototype] and whose calories are not the sentinel. *)
Theorem reset_shows_rows (data : list Row) (headers : list jsstring)
    (tree : list CategoryNode) (allPaths : list jsstring) (st : ViewState) :
  let st' := handleReset headers tree st in
  processedData data headers st' `sublist_of` data
  /\ (buildTree data = Some (tree, allPaths) ->
      forall row,
        row ∈ data -> categorised row = true ->
        Forall (fun part => inheritedName part = false)
          (split HASH (categoryPath row)) ->
        strictEq (parseFloat (row !! lit "calories")) (Num 100500) = false ->
        row ∈ processedData data headers st').
Proof.
  intros st'.
  destruct (handleReset_view headers tree st)
    as (Hsort & Hdir & Happlied & Hfilters & Hquery & Hhide & Hsel).
  fold st' in Hsort, Hdir, Happlied, Hfilters, Hquery, Hhide, Hsel.
  assert (Hout : processedData data headers st'
                 = unknownMacrosFilter true
                     (categoryFilter headers
                        (list_to_set (collectPaths tree)) data)).
  { unfold processedData.
    rewrite Hsort, Hdir, Happlied, Hfilters, Hquery, Hhide, Hsel.
    destruct data as [|r0 data]; [|reflexivity].
    unfold categoryFilter. now destruct (_ && _). }
  rewrite Hout. split.
  - etransitivity; [apply List_filter_sublist|].
    unfold categoryFilter.
    destruct (_ && _); [apply List_filter_sublist | reflexivity].
  - intros Hb row Hrow Hc Hown Hcal.
    pose proof (buildTree_covers data tree allPaths row Hb Hrow Hc Hown)
      as Hnode.
    unfold unknownMacrosFilter. apply elem_of_List_filter.
    split; [|now rewrite Hcal].
    unfold categoryFilter. destruct (_ && _); [|exact Hrow].
    apply elem_of_List_filter. split; [exact Hrow|].
    apply bool_decide_eq_true. now apply elem_of_list_to_set.
Qed.

End CategoryRows.


Lemma reset_shows_rows_witness :
  let tea := mkRow [cell "name" "tea"; cell "category" "Drinks # Tea";
                    cell "calories" "2"] in
  let data := [tea] in
  let headers := [lit "name"; lit "category"; lit "calories"] in
  let st := handleSearchChange (lit "coffee") initialState in
  exists tree allPaths,
    buildTree data = Some (tree, allPaths)
    /\ processedData (H := sampleHost) data headers st = []
    /\ (tea ∈ processedData (H := sampleHost) data headers
                (handleReset headers tree st)).
Proof.
  intros tea data headers st.
  destruct (buildTree data) as [[tree allPaths]|] eqn:Hb;
    [|vm_compute in Hb; discriminate].
  exists tree, allPaths.
  split; [reflexivity | split; [vm_compute; reflexivity|]].
  apply (proj2 (reset_shows_rows (H := sampleHost) data headers tree allPaths
                  st) Hb tea).
  - left.
  - vm_compute. reflexivity.
  - vm_compute. repeat constructor.
  - vm_compute. reflexivity.
Defined.

(** ** Column types and the kind of a filter *)

Section FilterKinds.

Context `{Host}.

Lemma deriveColumnTypes_lookup (headers : list jsstring) (h : jsstring) :
  forall types : gmap jsstring columnType,
    foldl (fun types header =>
             <[header := if includesStr NUMERIC_COLUMNS (normalizeHeader header)
                         then TNumber else TString]> types)
      types headers !! h
    = if bool_decide (h ∈ headers)
      then Some (if includesStr NUMERIC_COLUMNS (normalizeHeader h)
                 then TNumber else TString)
      else types !! h.
Proof.
  induction headers as [|h0 headers IH]; intros types; [reflexivity|].
  cbn [foldl]. rewrite IH.
  destruct (bool_decide_reflect (h ∈ headers)) as [Hin | Hout].
  - rewrite bool_decide_eq_true_2 by now right. reflexivity.
  - destruct (decide (h = h0)) as [-> | Hne].
    + rewrite bool_decide_eq_true_2 by left. apply lookup_insert_eq.
    + rewrite bool_decide_eq_false_2.
      * now apply lookup_insert_ne.
      * intros Hin. apply elem_of_cons in Hin. tauto.
Qed.

(** X23. With the column types the header effect derives, the kind of
    filter that acts on a column follows its header: on a header whose
    name, with a leading BOM and surrounding white space removed, is one
    of the numeric columns, an equality filter keeps the rows whose cell
    parses to the value and a text filter keeps every row; on any other
    column, a header or not, equality and range filters keep every
    row. *)
Theorem filter_kind_follows_header (headers : list jsstring)
    (column : jsstring) (l : list Row) :
  let types := deriveColumnTypes headers in
  let numeric :=
    bool_decide (column ∈ headers)
    && includesStr NUMERIC_COLUMNS (normalizeHeader column) in
  (numeric = true ->
   (forall value,
      applyColumnFilter types l (column, Some (FEquals value))
      = List.filter (equalsPredicate column value) l)
   /\ (forall containsVal excludeVal,
         applyColumnFilter types l
           (column, Some (FText containsVal excludeVal)) = l))
  /\ (numeric = false ->
      (forall value,
         applyColumnFilter types l (column, Some (FEquals value)) = l)
      /\ (forall min max,
            applyColumnFilter types l (column, Some (FRange min max)) = l)).
Proof.
  intros types numeric.
  assert (Hty : types !! column
                = if bool_decide (column ∈ headers)
                  then Some (if includesStr NUMERIC_COLUMNS
                                  (normalizeHeader column)
                             then TNumber else TString)
                  else None).
  { unfold types, deriveColumnTypes. now rewrite deriveColumnTypes_lookup. }
  subst numeric. unfold applyColumnFilter.
  destruct (bool_decide (column ∈ headers));
    destruct (includesStr NUMERIC_COLUMNS (normalizeHeader column));
    rewrite Hty; simpl andb; split; intros Hn; try discriminate;
    split; reflexivity.
Qed.

End FilterKinds.

Lemma filter_kind_follows_header_witness :
  let headers := [lit " price "; lit "name"] in
  let row := mkRow [cell " price " "10"; cell "name" "10"] in
  applyColumnFilter (H := sampleHost) (deriveColumnTypes headers) [row]
    (lit "name", Some (FEquals (Num 3))) = [row]
  /\ applyColumnFilter (H := sampleHost) (deriveColumnTypes headers) [row]
       (lit " price ", Some (FEquals (Num 3))) = [].
Proof.
  intros headers row. split.
  - apply (proj2 (filter_kind_follows_header (H := sampleHost) headers
                    (lit "name") [row])).
    vm_compute. reflexivity.
  - destruct (proj1 (filter_kind_follows_header (H := sampleHost) headers
                       (lit " price ") [row])) as [Heq _].
    + vm_compute. reflexivity.
    + rewrite Heq. vm_compute. reflexivity.
Defined.

(** ** Clicks on a column header *)

Section HeaderClicks.

(** X24. Clicks on one column header cycle: after a click the table is
    sorted by that column, ascending or descending, or not sorted by a
    column at all, and three more clicks on the header bring the same
    column sort back. *)
Theorem header_click_cycle (column : jsstring) (st : ViewState) :
  let once := handleSort column st in
  (sortConfig once = None
   \/ exists d, sortConfig once = Some {| key := column; dir := d |})
  /\ sortConfig (handleSort column (handleSort column (handleSort column once)))
     = sortConfig once.
Proof.
  intros once. subst once. rewrite !handleSort_sortConfig.
  destruct (sortConfig st) as [[k [|]]|]; cbn [key dir];
    destruct (bool_decide_reflect (k = column)) as [Hk | Hk] || idtac;
    cbn [key dir]; rewrite ?bool_decide_eq_true_2 by reflexivity;
    cbn [key dir]; rewrite ?bool_decide_eq_true_2 by reflexivity;
    cbn [key dir]; rewrite ?bool_decide_eq_true_2 by reflexivity;
    (split; [|reflexivity]); eauto.
Qed.

End HeaderClicks.

(** ** Dragging a column *)

Lemma indexOf_nonneg (l : list jsstring) (x : jsstring) :
  x ∈ l -> 0 <= indexOf l x.
Proof.
  induction l as [|y l IH]; intros Hx; [now apply elem_of_nil in Hx|].
  simpl. destruct (bool_decide_reflect (y = x)); [lia|].
  apply elem_of_cons in Hx. destruct Hx as [-> | Hx]; [contradiction|].
  specialize (IH Hx). destruct (Z.ltb_spec (indexOf l x) 0); lia.
Qed.

Lemma indexOf_lookup (l : list jsstring) (i : nat) (x : jsstring) :
  NoDup l -> l !! i = Some x -> indexOf l x = Z.of_nat i.
Proof.
  intros Hnd. revert i. induction Hnd as [|y l Hy Hnd IH]; intros i Hi.
  - now rewrite lookup_nil in Hi.
  - simpl. destruct i as [|i]; simpl in Hi.
    + injection Hi as ->. now rewrite bool_decide_eq_true_2.
    + assert (Hx : x ∈ l) by (apply list_elem_of_lookup; eauto).
      rewrite bool_decide_eq_false_2 by (intros ->; contradiction).
      rewrite (IH i Hi). destruct (Z.ltb_spec (Z.of_nat i) 0); lia.
Qed.

Lemma relIndex_inside (len : Z) (i : nat) :
  Z.of_nat i <= len -> relIndex len (Z.of_nat i) = Z.of_nat i.
Proof.
  intros Hi. unfold relIndex.
  destruct (Z.ltb_spec (Z.of_nat i) 0); lia.
Qed.

Lemma splice_remove_one {A} (l : list A) (i : nat) (x : A) :
  l !! i = Some x ->
  splice l (Z.of_nat i) 1 [] = ([x], take i l ++ drop (S i) l).
Proof.
  intros Hi. pose proof (lookup_lt_Some _ _ _ Hi) as Hlt.
  unfold splice. cbv zeta. rewrite relIndex_inside by lia.
  replace (Z.min (Z.max 1 0) (Z.of_nat (length l) - Z.of_nat i)) with 1 by lia.
  rewrite Nat2Z.id. replace (Z.to_nat (Z.of_nat i + 1)) with (S i) by lia.
  change (Z.to_nat 1) with 1%nat. f_equal.
  rewrite (drop_S _ _ _ Hi). reflexivity.
Qed.

Lemma splice_insert_one {A} (l : list A) (j : nat) (x : A) :
  (j <= length l)%nat ->
  splice l (Z.of_nat j) 0 [x] = ([], take j l ++ x :: drop j l).
Proof.
  intros Hj. unfold splice. cbv zeta. rewrite relIndex_inside by lia.
  replace (Z.min (Z.max 0 0) (Z.of_nat (length l) - Z.of_nat j)) with 0 by lia.
  rewrite Z.add_0_r, Nat2Z.id. reflexivity.
Qed.

Lemma lookup_map {A B} (f : A -> B) (l : list A) (i : nat) :
  List.map f l !! i = option_map f (l !! i).
Proof.
  revert i. induction l as [|x l IH]; intros [|i]; simpl; auto.
Qed.

Section Drag.

Context `{Host}.

(** X25. A drag in the column panel, in an order that lists no column
    twice: the dragged column takes the place the column it is dropped on
    had in the order, the other columns keep their order among
    themselves, and no column is lost or doubled. *)
Theorem drag_moves_column (orderedColumns : list jsstring)
    (searchQuery : jsstring) (source destination place : nat)
    (dragged target : jsstring) :
  NoDup orderedColumns ->
  ColumnManager.filteredColumns orderedColumns searchQuery !! source = Some dragged ->
  ColumnManager.filteredColumns orderedColumns searchQuery !! destination = Some target ->
  orderedColumns !! place = Some target ->
  exists items,
    ColumnManager.handleDragEnd orderedColumns searchQuery source (Some destination)
    = Some (List.map Some items)
    /\ items ≡ₚ orderedColumns
    /\ items !! place = Some dragged
    /\ List.filter (fun column => negb (bool_decide (column = dragged))) items
       = List.filter (fun column => negb (bool_decide (column = dragged)))
           orderedColumns.
Proof.
  intros Hnd Hsrc Hdst Hplace.
  assert (Hin : dragged ∈ orderedColumns).
  { assert (Hf : dragged ∈ ColumnManager.filteredColumns orderedColumns searchQuery)
      by (apply list_elem_of_lookup; eauto).
    apply elem_of_List_filter in Hf. tauto. }
  apply list_elem_of_lookup in Hin. destruct Hin as [i Hi].
  set (rest := take i orderedColumns ++ drop (S i) orderedColumns).
  assert (Hsplit : orderedColumns
                   = take i orderedColumns ++ dragged :: drop (S i) orderedColumns).
  { rewrite <- (drop_S _ _ _ Hi). symmetry. apply take_drop. }
  assert (Hlen : length orderedColumns = S (length rest)).
  { rewrite Hsplit at 1. subst rest. rewrite !length_app. simpl. lia. }
  pose proof (lookup_lt_Some _ _ _ Hplace) as Hj.
  exists (take place rest ++ dragged :: drop place rest).
  split; [|split; [|split]].
  - unfold ColumnManager.handleDragEnd. rewrite Hsrc, Hdst. cbn [ColumnManager.indexOfValue].
    rewrite (indexOf_lookup _ _ _ Hnd Hi), (indexOf_lookup _ _ _ Hnd Hplace).
    rewrite (splice_remove_one (List.map Some orderedColumns) i (Some dragged))
      by now rewrite lookup_map, Hi.
    rewrite firstn_map, skipn_map, <- map_app. fold rest. cbn [head default from_option id].
    rewrite (splice_insert_one (List.map Some rest) place (Some dragged))
      by (rewrite length_map; lia).
    rewrite firstn_map, skipn_map.
    change (Some dragged :: List.map Some (drop place rest))
      with (List.map Some (dragged :: drop place rest)).
    now rewrite <- map_app.
  - etransitivity; [symmetry; apply Permutation_middle|].
    rewrite take_drop. subst rest. rewrite Permutation_middle.
    now rewrite <- Hsplit.
  - rewrite lookup_app_r; rewrite length_take, Nat.min_l by lia; [|lia].
    now rewrite Nat.sub_diag.
  - transitivity
      (List.filter (fun column => negb (bool_decide (column = dragged))) rest).
    + rewrite !List.filter_app. cbn [List.filter].
      rewrite bool_decide_eq_true_2 by reflexivity. cbn [negb].
      now rewrite <- List.filter_app, take_drop.
    + rewrite Hsplit at 1. subst rest. rewrite !List.filter_app. cbn [List.filter].
      now rewrite bool_decide_eq_true_2 by reflexivity.
Qed.

End Drag.

Lemma drag_moves_column_witness :
  let order := [lit "name"; lit "html_path"; lit "price"; lit "weight"] in
  NoDup order
  /\ ColumnManager.filteredColumns (H := sampleHost) order []
     = [lit "name"; lit "price"; lit "weight"]
  /\ ColumnManager.handleDragEnd (H := sampleHost) order [] 0 (Some 1%nat)
     = Some (List.map Some
               [lit "html_path"; lit "price"; lit "name"; lit "weight"])
  /\ exists items,
       ColumnManager.handleDragEnd (H := sampleHost) order [] 0 (Some 1%nat)
       = Some (List.map Some items)
       /\ items ≡ₚ order
       /\ items !! 2%nat = Some (lit "name").
Proof.
  intros order.
  assert (Hnd : NoDup order)
    by (apply (bool_decide_unpack _); vm_compute; exact I).
  split; [exact Hnd | split; [vm_compute; reflexivity|]].
  split; [vm_compute; reflexivity|].
  destruct (drag_moves_column (H := sampleHost) order [] 0 1 2
              (lit "name") (lit "price") Hnd)
    as (items & Hdrag & Hperm & Hplace & _);
    [vm_compute; reflexivity.. |].
  exists items. exact (conj Hdrag (conj Hperm Hplace)).
Defined.
